(** * rateflow: the four rate-limiting engines and their admission contract

    A shallow embedding of package [limiter] (token bucket, leaky bucket,
    sliding window, fixed window, and the [Reservation] value) together with
    the factory [NewLimiter] of package [rateflow], followed by the
    properties of the engines.

    Conventions of the embedding.
    - A [time.Time] is the number of nanoseconds since Go's zero time, an
      integer; [time.Now()] is an explicit argument ([now]) of every
      function that reads the clock.
    - A [time.Duration] and an [int] are 64-bit: sums, differences and
      negations wrap ([GoInt.wrap64]); [Time.Sub] saturates as in package
      [time].
    - A [float64] ([Limit], the token count) is idealised as an exact
      rational: rounding, infinities and NaN are not represented.  The
      conversion of a float to an integer truncates toward zero; when the
      value does not fit, Go leaves the result to the implementation and the
      embedding takes the amd64 answer (the minimum integer).  A property
      that depends on the value of a float is stated where float64 carries
      that value exactly, or with a margin that no rounding crosses: token
      counts and bursts below 2^53, a rate of zero or no elapsed time, at
      most half a unit due where none may drain, a window away from zero
      and from 2^63, rates whose product with an elapsed time stays finite.
    - A slice is a list.  [make] panics on a capacity that is negative or
      beyond what the runtime can allocate; [append] is not limited by the
      memory of the machine.
    - An [Algorithm] is one of the four named constants or any other
      integer, for which [NewLimiter] builds a token bucket.
    - The mutex is not represented: every operation is one atomic state
      transformer, which is what the lock provides.
    - A run-time panic (slice bounds, index out of range) is the [Panic]
      outcome. *)

From Stdlib Require Import ZArith QArith List Bool Lia Lqa.
Import ListNotations.
Open Scope Z_scope.

(** ** Outcomes: a value, or a run-time panic *)

Inductive Outcome (A : Type) : Type :=
| Done (a : A)
| Panic.
Arguments Done {A} a.
Arguments Panic {A}.

Definition bind {A B : Type} (m : Outcome A) (k : A -> Outcome B) : Outcome B :=
  match m with
  | Done a => k a
  | Panic => Panic
  end.

Notation "x <- m ;; k" := (bind m (fun x => k))
  (at level 61, m at next level, right associativity).

(** ** Go's 64-bit integers *)

Module GoInt.

Definition MinInt64 : Z := - 2 ^ 63.
Definition MaxInt64 : Z := 2 ^ 63 - 1.

Definition wrap64 (z : Z) : Z := (z + 2 ^ 63) mod 2 ^ 64 - 2 ^ 63.

Definition add (a b : Z) : Z := wrap64 (a + b).
Definition sub (a b : Z) : Z := wrap64 (a - b).
Definition neg (a : Z) : Z := wrap64 (- a).

Definition in_range (z : Z) : bool := (MinInt64 <=? z) && (z <=? MaxInt64).

(** [len(s)] of a slice. *)
Definition len {A : Type} (s : list A) : Z := Z.of_nat (length s).

(** [s[low:]]: panics unless [0 <= low <= len(s)]. *)
Definition slice_from {A : Type} (s : list A) (low : Z) : Outcome (list A) :=
  if (low <? 0) || (len s <? low) then Panic
  else Done (skipn (Z.to_nat low) s).

(** [s[:high]]: panics when [high < 0]; the one call site has
    [high < len(s)], so the capacity of the slice plays no role. *)
Definition slice_to {A : Type} (s : list A) (high : Z) : Outcome (list A) :=
  if high <? 0 then Panic
  else Done (firstn (Z.to_nat high) s).

(** [s[i]]: panics unless [0 <= i < len(s)]. *)
Definition index {A : Type} (s : list A) (i : Z) : Outcome A :=
  if i <? 0 then Panic
  else match nth_error s (Z.to_nat i) with
       | Some a => Done a
       | None => Panic
       end.

(** [make([]time.Time, 0, cap)]: the runtime panics (cap out of range)
    unless [0 <= cap] and the elements, 24 bytes each for a [time.Time], fit
    the 2^48 bytes it can allocate. *)
Definition MaxSliceCap : Z := 2 ^ 48 / 24.

Definition make_ok (cap : Z) : bool := (0 <=? cap) && (cap <=? MaxSliceCap).

(** [for i := 0; i < n; i++ { s = append(s, x) }] *)
Definition append_n {A : Type} (s : list A) (x : A) (n : Z) : list A :=
  s ++ repeat x (Z.to_nat n).

End GoInt.

(** ** float64, idealised as a rational *)

Module Float64.

Definition float64 : Type := Q.

(** [float64(n)] for an integer [n]. *)
Definition of_int (n : Z) : Q := inject_Z n.

(** [math.MaxFloat64] = (2 - 2^-52) * 2^1023. *)
Definition MaxFloat64 : Q := inject_Z (2 ^ 1024 - 2 ^ 971).

(** Truncation toward zero. *)
Definition trunc (q : Q) : Z := Z.quot (Qnum q) (Zpos (Qden q)).

(** [int(x)], [time.Duration(x)] for a float [x]. *)
Definition to_int64 (q : Q) : Z :=
  let z := trunc q in
  if GoInt.in_range z then z else GoInt.MinInt64.

Definition eqb (a b : Q) : bool := Qeq_bool a b.
Definition leb (a b : Q) : bool := Qle_bool a b.
Definition ltb (a b : Q) : bool := negb (Qle_bool b a).

(** [math.Min] *)
Definition fmin (a b : Q) : Q := if leb a b then a else b.

End Float64.

(** ** package time *)

Module GoTime.

Definition Time : Type := Z.
Definition Duration : Type := Z.

Definition Nanosecond : Duration := 1.
Definition Millisecond : Duration := 1000000.
Definition Second : Duration := 1000000000.

(** [t.Sub(u)]: the difference, saturated to the range of a Duration. *)
Definition Sub (t u : Time) : Duration :=
  Z.max GoInt.MinInt64 (Z.min GoInt.MaxInt64 (t - u)).

Definition Add (t : Time) (d : Duration) : Time := t + d.

Definition Before (t u : Time) : bool := t <? u.

(** [t.Truncate(d)]: [t] rounded down to a multiple of [d] since the zero
    time; [t] itself when [d <= 0]. *)
Definition Truncate (t : Time) (d : Duration) : Time :=
  if d <=? 0 then t else t - t mod d.

(** [d.Seconds()] *)
Definition Seconds (d : Duration) : Q := Qmake d 1000000000.

(** [time.Until(t)] when the clock reads [now]. *)
Definition Until (now t : Time) : Duration := Sub t now.

End GoTime.

Import GoTime.

(** ** Limit, Algorithm, Capabilities *)

Definition Limit : Type := Q.

(** [rateflow.Inf = Limit(math.MaxFloat64)] *)
Definition Inf : Limit := Float64.MaxFloat64.

(** [type Algorithm int]: the four named constants, and any other value
    of the integer type. *)
Inductive Algorithm : Type :=
| TokenBucket
| LeakyBucket
| SlidingWindow
| FixedWindow
| OtherAlgorithm (tag : Z).

Record Capabilities : Type := mkCapabilities {
  SupportsTokens : bool;
  SupportsBurst : bool;
  SupportsReservation : bool
}.

(** ** Reservation *)

Module Reservation.

(** [lim] is the back-reference to the engine that issued the reservation;
    only its identity matters, so it is the engine's algorithm, or [None]
    for the nil interface. *)
Record Reservation : Type := mkReservation {
  ok : bool;
  lim : option Algorithm;
  tokens : Z;
  timeToAct : Time;
  limit : Limit
}.

(** [&Reservation{ok: false}] *)
Definition notOK : Reservation :=
  {| ok := false; lim := None; tokens := 0; timeToAct := 0; limit := 0%Q |}.

Definition OK (r : Reservation) : bool := ok r.

Definition DelayFrom (r : Reservation) (t : Time) : Duration :=
  if negb (ok r) then -1
  else
    let delay := Sub (timeToAct r) t in
    if delay <? 0 then 0 else delay.

(** [CancelAt] restores nothing: the engine a reservation came from is left
    as it is. *)
Definition CancelAt {L : Type} (r : Reservation) (t : Time) (engine : L) : L :=
  if negb (ok r) then engine else engine.

End Reservation.

(** What [WaitN] does before it returns or suspends. *)
Inductive WaitOutcome : Type :=
| WaitNil
    (* return nil *)
| WaitExceeds (n bound : Z)
    (* return fmt.Errorf(..., n, bound) *)
| WaitTimer (delay : Duration)
    (* select: nil after [delay], or ctx.Err() once the context is done *)
| WaitRetry (waitUntil : Time).
    (* select: sleep until [waitUntil] and call WaitN again, or ctx.Err() *)

(** ** TokenBucketLimiter *)

Module TB.

Record TokenBucketLimiter : Type := mk {
  limit : Limit;
  burst : Z;
  tokens : Q;
  lastUpdated : Time
}.

Definition NewTokenBucket (now : Time) (r : Limit) (b : Z) : TokenBucketLimiter :=
  {| limit := r; burst := b; tokens := Float64.of_int b; lastUpdated := now |}.

Definition advance (tb : TokenBucketLimiter) (now : Time) : TokenBucketLimiter :=
  let elapsed := Sub now (lastUpdated tb) in
  if Float64.eqb (limit tb) Float64.MaxFloat64 then
    {| limit := limit tb; burst := burst tb;
       tokens := Float64.of_int (burst tb); lastUpdated := now |}
  else
    let delta := (limit tb * Seconds elapsed)%Q in
    {| limit := limit tb; burst := burst tb;
       tokens := Float64.fmin (tokens tb + delta)%Q (Float64.of_int (burst tb));
       lastUpdated := now |}.

Definition AllowN (tb : TokenBucketLimiter) (t : Time) (n : Z)
  : TokenBucketLimiter * bool :=
  let tb := advance tb t in
  if Float64.leb (Float64.of_int n) (tokens tb) then
    ({| limit := limit tb; burst := burst tb;
        tokens := (tokens tb - Float64.of_int n)%Q;
        lastUpdated := lastUpdated tb |}, true)
  else (tb, false).

Definition Allow (tb : TokenBucketLimiter) (now : Time) := AllowN tb now 1.

Definition ReserveN (tb : TokenBucketLimiter) (t : Time) (n : Z)
  : TokenBucketLimiter * Reservation.Reservation :=
  let tb := advance tb t in
  if burst tb <? n then (tb, Reservation.notOK)
  else
    let waitDuration :=
      if Float64.ltb (tokens tb) (Float64.of_int n) then
        let needed := (Float64.of_int n - tokens tb)%Q in
        if Float64.ltb 0 (limit tb) then
          GoInt.add
            (Float64.to_int64 (needed / limit tb * Float64.of_int Second)%Q)
            Nanosecond
        else 0
      else 0 in
    ({| limit := limit tb; burst := burst tb;
        tokens := (tokens tb - Float64.of_int n)%Q;
        lastUpdated := lastUpdated tb |},
     {| Reservation.ok := true;
        Reservation.lim := Some TokenBucket;
        Reservation.tokens := n;
        Reservation.timeToAct := Add t waitDuration;
        Reservation.limit := limit tb |}).

Definition Reserve (tb : TokenBucketLimiter) (now : Time) := ReserveN tb now 1.

Definition Burst (tb : TokenBucketLimiter) : Z := burst tb.

(** [now] is the clock read by [ReserveN(time.Now(), n)], [now'] the one read
    afterwards by [r.Delay()]. *)
Definition WaitN (tb : TokenBucketLimiter) (now now' : Time) (n : Z)
  : TokenBucketLimiter * WaitOutcome :=
  let (tb, r) := ReserveN tb now n in
  if negb (Reservation.OK r) then (tb, WaitExceeds n (Burst tb))
  else
    let delay := Reservation.DelayFrom r now' in
    if delay =? 0 then (tb, WaitNil) else (tb, WaitTimer delay).

Definition SetLimitAt (tb : TokenBucketLimiter) (t : Time) (newLimit : Limit)
  : TokenBucketLimiter :=
  let tb := advance tb t in
  {| limit := newLimit; burst := burst tb; tokens := tokens tb;
     lastUpdated := lastUpdated tb |}.

Definition SetBurstAt (tb : TokenBucketLimiter) (t : Time) (newBurst : Z)
  : TokenBucketLimiter :=
  let tb := advance tb t in
  {| limit := limit tb; burst := newBurst;
     tokens := if Float64.ltb (Float64.of_int newBurst) (tokens tb)
               then Float64.of_int newBurst else tokens tb;
     lastUpdated := lastUpdated tb |}.

Definition TokensAt (tb : TokenBucketLimiter) (t : Time)
  : TokenBucketLimiter * Q :=
  let tb := advance tb t in (tb, tokens tb).

Definition Algorithm (tb : TokenBucketLimiter) : Algorithm := TokenBucket.

Definition Capabilities (tb : TokenBucketLimiter) : Capabilities :=
  {| SupportsTokens := true; SupportsBurst := true; SupportsReservation := true |}.

Definition Limit (tb : TokenBucketLimiter) : Limit := limit tb.

End TB.

(** ** LeakyBucketLimiter *)

Module LB.

Record LeakyBucketLimiter : Type := mk {
  limit : Limit;
  capacity : Z;
  queue : list Time;
  lastLeakTime : Time
}.

(** [make([]time.Time, 0, capacity)] panics on a negative capacity and on
    one beyond what can be allocated. *)
Definition NewLeakyBucket (now : Time) (r : Limit) (capacity : Z)
  : Outcome LeakyBucketLimiter :=
  if GoInt.make_ok capacity then
    Done {| limit := r; capacity := capacity; queue := [];
            lastLeakTime := now |}
  else Panic.

Definition leak (lb : LeakyBucketLimiter) (now : Time)
  : Outcome LeakyBucketLimiter :=
  if Float64.eqb (limit lb) Float64.MaxFloat64 || (GoInt.len (queue lb) =? 0)
  then Done lb
  else
    let elapsed := Sub now (lastLeakTime lb) in
    let leakCount := Float64.to_int64 (limit lb * Seconds elapsed)%Q in
    let leakCount :=
      if GoInt.len (queue lb) <? leakCount then GoInt.len (queue lb)
      else leakCount in
    q <- GoInt.slice_from (queue lb) leakCount ;;
    Done {| limit := limit lb; capacity := capacity lb; queue := q;
            lastLeakTime := now |}.

Definition AllowN (lb : LeakyBucketLimiter) (t : Time) (n : Z)
  : Outcome (LeakyBucketLimiter * bool) :=
  lb <- leak lb t ;;
  if GoInt.add (GoInt.len (queue lb)) n <=? capacity lb then
    Done ({| limit := limit lb; capacity := capacity lb;
             queue := GoInt.append_n (queue lb) t n;
             lastLeakTime := lastLeakTime lb |}, true)
  else Done (lb, false).

Definition Allow (lb : LeakyBucketLimiter) (now : Time) := AllowN lb now 1.

Definition ReserveN (lb : LeakyBucketLimiter) (t : Time) (n : Z)
  : Outcome (LeakyBucketLimiter * Reservation.Reservation) :=
  lb <- leak lb t ;;
  if capacity lb <? n then Done (lb, Reservation.notOK)
  else
    let waitDuration :=
      if capacity lb <? GoInt.add (GoInt.len (queue lb)) n then
        let overflow :=
          GoInt.sub (GoInt.add (GoInt.len (queue lb)) n) (capacity lb) in
        if Float64.ltb 0 (limit lb) then
          GoInt.add
            (Float64.to_int64
               (Float64.of_int overflow / limit lb * Float64.of_int Second)%Q)
            Nanosecond
        else 0
      else 0 in
    Done ({| limit := limit lb; capacity := capacity lb;
             queue := GoInt.append_n (queue lb) t n;
             lastLeakTime := lastLeakTime lb |},
          {| Reservation.ok := true;
             Reservation.lim := Some LeakyBucket;
             Reservation.tokens := n;
             Reservation.timeToAct := Add t waitDuration;
             Reservation.limit := limit lb |}).

Definition Reserve (lb : LeakyBucketLimiter) (now : Time) := ReserveN lb now 1.

Definition Burst (lb : LeakyBucketLimiter) : Z := capacity lb.

Definition WaitN (lb : LeakyBucketLimiter) (now now' : Time) (n : Z)
  : Outcome (LeakyBucketLimiter * WaitOutcome) :=
  p <- ReserveN lb now n ;;
  let (lb, r) := p in
  if negb (Reservation.OK r) then Done (lb, WaitExceeds n (Burst lb))
  else
    let delay := Reservation.DelayFrom r now' in
    if delay =? 0 then Done (lb, WaitNil) else Done (lb, WaitTimer delay).

Definition SetLimitAt (lb : LeakyBucketLimiter) (t : Time) (newLimit : Limit)
  : Outcome LeakyBucketLimiter :=
  lb <- leak lb t ;;
  Done {| limit := newLimit; capacity := capacity lb; queue := queue lb;
          lastLeakTime := lastLeakTime lb |}.

Definition SetBurstAt (lb : LeakyBucketLimiter) (t : Time) (newBurst : Z)
  : Outcome LeakyBucketLimiter :=
  lb <- leak lb t ;;
  if newBurst <? GoInt.len (queue lb) then
    q <- GoInt.slice_to (queue lb) newBurst ;;
    Done {| limit := limit lb; capacity := newBurst; queue := q;
            lastLeakTime := lastLeakTime lb |}
  else
    Done {| limit := limit lb; capacity := newBurst; queue := queue lb;
            lastLeakTime := lastLeakTime lb |}.

Definition TokensAt (lb : LeakyBucketLimiter) (t : Time)
  : Outcome (LeakyBucketLimiter * Q) :=
  lb <- leak lb t ;;
  Done (lb, Float64.of_int (GoInt.sub (capacity lb) (GoInt.len (queue lb)))).

Definition Algorithm (lb : LeakyBucketLimiter) : Algorithm := LeakyBucket.

Definition Capabilities (lb : LeakyBucketLimiter) : Capabilities :=
  {| SupportsTokens := false; SupportsBurst := false;
     SupportsReservation := true |}.

Definition Limit (lb : LeakyBucketLimiter) : Limit := limit lb.

End LB.

(** ** SlidingWindowLimiter *)

Module SW.

Record SlidingWindowLimiter : Type := mk {
  limit : Limit;
  maxCount : Z;
  window : Duration;
  timestamps : list Time
}.

(** [time.Duration(float64(time.Second) * float64(maxCount) / float64(r))] *)
Definition windowOf (r : Limit) (maxCount : Z) : Duration :=
  Float64.to_int64 (Float64.of_int Second * Float64.of_int maxCount / r)%Q.

Definition NewSlidingWindow (r : Limit) (maxCount : Z)
  : Outcome SlidingWindowLimiter :=
  let window := if Float64.ltb 0 r then windowOf r maxCount else Second in
  if GoInt.make_ok maxCount then
    Done {| limit := r; maxCount := maxCount; window := window;
            timestamps := [] |}
  else Panic.

(** The loop of [cleanup]: the number of leading timestamps before the
    cutoff. *)
Fixpoint validIdx (cutoff : Time) (ts : list Time) : nat :=
  match ts with
  | [] => O
  | x :: rest => if Before x cutoff then S (validIdx cutoff rest) else O
  end.

Definition cleanup (sw : SlidingWindowLimiter) (now : Time)
  : SlidingWindowLimiter :=
  let cutoff := Add now (GoInt.neg (window sw)) in
  {| limit := limit sw; maxCount := maxCount sw; window := window sw;
     timestamps := skipn (validIdx cutoff (timestamps sw)) (timestamps sw) |}.

Definition AllowN (sw : SlidingWindowLimiter) (t : Time) (n : Z)
  : SlidingWindowLimiter * bool :=
  let sw := cleanup sw t in
  if GoInt.add (GoInt.len (timestamps sw)) n <=? maxCount sw then
    ({| limit := limit sw; maxCount := maxCount sw; window := window sw;
        timestamps := GoInt.append_n (timestamps sw) t n |}, true)
  else (sw, false).

Definition Allow (sw : SlidingWindowLimiter) (now : Time) := AllowN sw now 1.

Definition ReserveN (sw : SlidingWindowLimiter) (t : Time) (n : Z)
  : SlidingWindowLimiter * Reservation.Reservation :=
  let (sw, allowed) := AllowN sw t n in
  if allowed then
    (sw, {| Reservation.ok := true;
            Reservation.lim := Some SlidingWindow;
            Reservation.tokens := n;
            Reservation.timeToAct := t;
            Reservation.limit := limit sw |})
  else (sw, Reservation.notOK).

Definition Reserve (sw : SlidingWindowLimiter) (now : Time) := ReserveN sw now 1.

Definition WaitN (sw : SlidingWindowLimiter) (now : Time) (n : Z)
  : Outcome (SlidingWindowLimiter * WaitOutcome) :=
  let sw := cleanup sw now in
  if maxCount sw <? n then Done (sw, WaitExceeds n (maxCount sw))
  else if maxCount sw <? GoInt.add (GoInt.len (timestamps sw)) n then
    let needToExpire :=
      GoInt.sub (GoInt.add (GoInt.len (timestamps sw)) n) (maxCount sw) in
    let needToExpire :=
      if GoInt.len (timestamps sw) <? needToExpire
      then GoInt.len (timestamps sw) else needToExpire in
    oldestToKeep <- GoInt.index (timestamps sw) (GoInt.sub needToExpire 1) ;;
    let waitUntil := Add (Add oldestToKeep (window sw)) Millisecond in
    Done (sw, WaitRetry waitUntil)
  else
    Done ({| limit := limit sw; maxCount := maxCount sw; window := window sw;
             timestamps := GoInt.append_n (timestamps sw) now n |}, WaitNil).

Definition SetLimitAt (sw : SlidingWindowLimiter) (t : Time) (newLimit : Limit)
  : SlidingWindowLimiter :=
  let sw := cleanup sw t in
  {| limit := newLimit; maxCount := maxCount sw;
     window := if Float64.ltb 0 newLimit then windowOf newLimit (maxCount sw)
               else window sw;
     timestamps := timestamps sw |}.

Definition Burst (sw : SlidingWindowLimiter) : Z := maxCount sw.

Definition SetBurstAt (sw : SlidingWindowLimiter) (t : Time) (newBurst : Z)
  : SlidingWindowLimiter :=
  let sw := cleanup sw t in
  {| limit := limit sw; maxCount := newBurst;
     window := if Float64.ltb 0 (limit sw) then windowOf (limit sw) newBurst
               else window sw;
     timestamps := timestamps sw |}.

Definition TokensAt (sw : SlidingWindowLimiter) (t : Time)
  : SlidingWindowLimiter * Q :=
  let sw := cleanup sw t in
  (sw, Float64.of_int (GoInt.sub (maxCount sw) (GoInt.len (timestamps sw)))).

Definition Algorithm (sw : SlidingWindowLimiter) : Algorithm := SlidingWindow.

Definition Capabilities (sw : SlidingWindowLimiter) : Capabilities :=
  {| SupportsTokens := false; SupportsBurst := false;
     SupportsReservation := false |}.

Definition Limit (sw : SlidingWindowLimiter) : Limit := limit sw.

End SW.

(** ** FixedWindowLimiter *)

Module FW.

Record FixedWindowLimiter : Type := mk {
  limit : Limit;
  maxCount : Z;
  window : Duration;
  currentCount : Z;
  windowStart : Time
}.

Definition windowOf (r : Limit) (maxCount : Z) : Duration :=
  Float64.to_int64 (Float64.of_int Second * Float64.of_int maxCount / r)%Q.

Definition NewFixedWindow (now : Time) (r : Limit) (maxCount : Z)
  : FixedWindowLimiter :=
  let window := if Float64.ltb 0 r then windowOf r maxCount else Second in
  {| limit := r; maxCount := maxCount; window := window; currentCount := 0;
     windowStart := now |}.

Definition resetIfNeeded (fw : FixedWindowLimiter) (now : Time)
  : FixedWindowLimiter :=
  if window fw <=? Sub now (windowStart fw) then
    {| limit := limit fw; maxCount := maxCount fw; window := window fw;
       currentCount := 0; windowStart := Truncate now (window fw) |}
  else fw.

Definition AllowN (fw : FixedWindowLimiter) (t : Time) (n : Z)
  : FixedWindowLimiter * bool :=
  let fw := resetIfNeeded fw t in
  if GoInt.add (currentCount fw) n <=? maxCount fw then
    ({| limit := limit fw; maxCount := maxCount fw; window := window fw;
        currentCount := GoInt.add (currentCount fw) n;
        windowStart := windowStart fw |}, true)
  else (fw, false).

Definition Allow (fw : FixedWindowLimiter) (now : Time) := AllowN fw now 1.

Definition ReserveN (fw : FixedWindowLimiter) (t : Time) (n : Z)
  : FixedWindowLimiter * Reservation.Reservation :=
  let (fw, allowed) := AllowN fw t n in
  if allowed then
    (fw, {| Reservation.ok := true;
            Reservation.lim := Some FixedWindow;
            Reservation.tokens := n;
            Reservation.timeToAct := t;
            Reservation.limit := limit fw |})
  else (fw, Reservation.notOK).

Definition Reserve (fw : FixedWindowLimiter) (now : Time) := ReserveN fw now 1.

Definition WaitN (fw : FixedWindowLimiter) (now : Time) (n : Z)
  : FixedWindowLimiter * WaitOutcome :=
  let fw := resetIfNeeded fw now in
  if maxCount fw <? n then (fw, WaitExceeds n (maxCount fw))
  else if maxCount fw <? GoInt.add (currentCount fw) n then
    let nextWindow := Add (windowStart fw) (window fw) in
    (fw, WaitRetry nextWindow)
  else
    ({| limit := limit fw; maxCount := maxCount fw; window := window fw;
        currentCount := GoInt.add (currentCount fw) n;
        windowStart := windowStart fw |}, WaitNil).

Definition SetLimitAt (fw : FixedWindowLimiter) (t : Time) (newLimit : Limit)
  : FixedWindowLimiter :=
  let fw := resetIfNeeded fw t in
  {| limit := newLimit; maxCount := maxCount fw;
     window := if Float64.ltb 0 newLimit then windowOf newLimit (maxCount fw)
               else window fw;
     currentCount := currentCount fw; windowStart := windowStart fw |}.

Definition Burst (fw : FixedWindowLimiter) : Z := maxCount fw.

Definition SetBurstAt (fw : FixedWindowLimiter) (t : Time) (newBurst : Z)
  : FixedWindowLimiter :=
  let fw := resetIfNeeded fw t in
  {| limit := limit fw; maxCount := newBurst;
     window := if Float64.ltb 0 (limit fw) then windowOf (limit fw) newBurst
               else window fw;
     currentCount := currentCount fw; windowStart := windowStart fw |}.

Definition TokensAt (fw : FixedWindowLimiter) (t : Time)
  : FixedWindowLimiter * Q :=
  let fw := resetIfNeeded fw t in
  (fw, Float64.of_int (GoInt.sub (maxCount fw) (currentCount fw))).

Definition Algorithm (fw : FixedWindowLimiter) : Algorithm := FixedWindow.

Definition Capabilities (fw : FixedWindowLimiter) : Capabilities :=
  {| SupportsTokens := false; SupportsBurst := false;
     SupportsReservation := false |}.

Definition Limit (fw : FixedWindowLimiter) : Limit := limit fw.

End FW.

(** ** The interface Limiter and the factory NewLimiter *)

(** A value of the interface [Limiter]: one of the four engines. *)
Inductive Limiter : Type :=
| OfTokenBucket (tb : TB.TokenBucketLimiter)
| OfLeakyBucket (lb : LB.LeakyBucketLimiter)
| OfSlidingWindow (sw : SW.SlidingWindowLimiter)
| OfFixedWindow (fw : FW.FixedWindowLimiter).

(** [NewLimiter(algo, r, b)] when the clock reads [now]. *)
Definition NewLimiter (algo : Algorithm) (now : Time) (r : Limit) (b : Z)
  : Outcome Limiter :=
  match algo with
  | TokenBucket => Done (OfTokenBucket (TB.NewTokenBucket now r b))
  | LeakyBucket => lb <- LB.NewLeakyBucket now r b ;; Done (OfLeakyBucket lb)
  | SlidingWindow => sw <- SW.NewSlidingWindow r b ;; Done (OfSlidingWindow sw)
  | FixedWindow => Done (OfFixedWindow (FW.NewFixedWindow now r b))
  | OtherAlgorithm _ => Done (OfTokenBucket (TB.NewTokenBucket now r b))
  end.

(** The engine [NewLimiter] builds: the token bucket for a value that is
    none of the four constants. *)
Definition engine (algo : Algorithm) : Algorithm :=
  match algo with
  | OtherAlgorithm _ => TokenBucket
  | a => a
  end.

Definition lift {S A : Type} (inj : S -> Limiter) (p : S * A) : Limiter * A :=
  (inj (fst p), snd p).

(** Method calls through the interface. *)
Module L.

Definition AllowN (l : Limiter) (t : Time) (n : Z) : Outcome (Limiter * bool) :=
  match l with
  | OfTokenBucket tb => Done (lift OfTokenBucket (TB.AllowN tb t n))
  | OfLeakyBucket lb => p <- LB.AllowN lb t n ;; Done (lift OfLeakyBucket p)
  | OfSlidingWindow sw => Done (lift OfSlidingWindow (SW.AllowN sw t n))
  | OfFixedWindow fw => Done (lift OfFixedWindow (FW.AllowN fw t n))
  end.

Definition Allow (l : Limiter) (now : Time) : Outcome (Limiter * bool) :=
  AllowN l now 1.

Definition ReserveN (l : Limiter) (t : Time) (n : Z)
  : Outcome (Limiter * Reservation.Reservation) :=
  match l with
  | OfTokenBucket tb => Done (lift OfTokenBucket (TB.ReserveN tb t n))
  | OfLeakyBucket lb => p <- LB.ReserveN lb t n ;; Done (lift OfLeakyBucket p)
  | OfSlidingWindow sw => Done (lift OfSlidingWindow (SW.ReserveN sw t n))
  | OfFixedWindow fw => Done (lift OfFixedWindow (FW.ReserveN fw t n))
  end.

(** [now'] is the second reading of the clock, by [Reservation.Delay], in the
    two engines that wait on a reservation. *)
Definition WaitN (l : Limiter) (now now' : Time) (n : Z)
  : Outcome (Limiter * WaitOutcome) :=
  match l with
  | OfTokenBucket tb => Done (lift OfTokenBucket (TB.WaitN tb now now' n))
  | OfLeakyBucket lb => p <- LB.WaitN lb now now' n ;; Done (lift OfLeakyBucket p)
  | OfSlidingWindow sw => p <- SW.WaitN sw now n ;; Done (lift OfSlidingWindow p)
  | OfFixedWindow fw => Done (lift OfFixedWindow (FW.WaitN fw now n))
  end.

Definition TokensAt (l : Limiter) (t : Time) : Outcome (Limiter * Q) :=
  match l with
  | OfTokenBucket tb => Done (lift OfTokenBucket (TB.TokensAt tb t))
  | OfLeakyBucket lb => p <- LB.TokensAt lb t ;; Done (lift OfLeakyBucket p)
  | OfSlidingWindow sw => Done (lift OfSlidingWindow (SW.TokensAt sw t))
  | OfFixedWindow fw => Done (lift OfFixedWindow (FW.TokensAt fw t))
  end.

Definition SetLimitAt (l : Limiter) (t : Time) (newLimit : Limit)
  : Outcome Limiter :=
  match l with
  | OfTokenBucket tb => Done (OfTokenBucket (TB.SetLimitAt tb t newLimit))
  | OfLeakyBucket lb => lb <- LB.SetLimitAt lb t newLimit ;; Done (OfLeakyBucket lb)
  | OfSlidingWindow sw => Done (OfSlidingWindow (SW.SetLimitAt sw t newLimit))
  | OfFixedWindow fw => Done (OfFixedWindow (FW.SetLimitAt fw t newLimit))
  end.

Definition SetBurstAt (l : Limiter) (t : Time) (newBurst : Z)
  : Outcome Limiter :=
  match l with
  | OfTokenBucket tb => Done (OfTokenBucket (TB.SetBurstAt tb t newBurst))
  | OfLeakyBucket lb => lb <- LB.SetBurstAt lb t newBurst ;; Done (OfLeakyBucket lb)
  | OfSlidingWindow sw => Done (OfSlidingWindow (SW.SetBurstAt sw t newBurst))
  | OfFixedWindow fw => Done (OfFixedWindow (FW.SetBurstAt fw t newBurst))
  end.

Definition Burst (l : Limiter) : Z :=
  match l with
  | OfTokenBucket tb => TB.Burst tb
  | OfLeakyBucket lb => LB.Burst lb
  | OfSlidingWindow sw => SW.Burst sw
  | OfFixedWindow fw => FW.Burst fw
  end.

Definition Algorithm (l : Limiter) : Algorithm :=
  match l with
  | OfTokenBucket tb => TB.Algorithm tb
  | OfLeakyBucket lb => LB.Algorithm lb
  | OfSlidingWindow sw => SW.Algorithm sw
  | OfFixedWindow fw => FW.Algorithm fw
  end.

Definition Limit (l : Limiter) : Limit :=
  match l with
  | OfTokenBucket tb => TB.Limit tb
  | OfLeakyBucket lb => LB.Limit lb
  | OfSlidingWindow sw => SW.Limit sw
  | OfFixedWindow fw => FW.Limit fw
  end.

End L.

(** ** Sequences of calls *)

(** The time-dependent bookkeeping of each engine, the first step of every
    operation: [advance], [leak], [cleanup], [resetIfNeeded]. *)
Definition bookkeeping (l : Limiter) (t : Time) : Outcome Limiter :=
  match l with
  | OfTokenBucket tb => Done (OfTokenBucket (TB.advance tb t))
  | OfLeakyBucket lb => lb <- LB.leak lb t ;; Done (OfLeakyBucket lb)
  | OfSlidingWindow sw => Done (OfSlidingWindow (SW.cleanup sw t))
  | OfFixedWindow fw => Done (OfFixedWindow (FW.resetIfNeeded fw t))
  end.

(** The accounting quantity of each engine. *)
Definition accounted (l : Limiter) : Q :=
  match l with
  | OfTokenBucket tb => TB.tokens tb
  | OfLeakyBucket lb => inject_Z (GoInt.len (LB.queue lb))
  | OfSlidingWindow sw => inject_Z (GoInt.len (SW.timestamps sw))
  | OfFixedWindow fw => inject_Z (FW.currentCount fw)
  end.

(** Consecutive [Allow()] calls; [ts] are the readings of the clock. *)
Fixpoint allows (l : Limiter) (ts : list Time) : Outcome (Limiter * list bool) :=
  match ts with
  | [] => Done (l, [])
  | t :: rest =>
      p <- L.Allow l t ;;
      q <- allows (fst p) rest ;;
      Done (fst q, snd p :: snd q)
  end.

(** A contract operation with its arguments. *)
Inductive Op : Type :=
| OpAllowN (t : Time) (n : Z)
| OpReserveN (t : Time) (n : Z)
| OpWaitN (now now' : Time) (n : Z)
| OpTokensAt (t : Time)
| OpSetLimitAt (t : Time) (newLimit : Limit)
| OpSetBurstAt (t : Time) (newBurst : Z).

(** The instant an operation is stamped with. *)
Definition op_time (o : Op) : Time :=
  match o with
  | OpAllowN t _ | OpReserveN t _ | OpTokensAt t
  | OpSetLimitAt t _ | OpSetBurstAt t _ => t
  | OpWaitN now _ _ => now
  end.

(** What an operation returns. *)
Inductive Result : Type :=
| RAllow (allowed : bool)
| RReserve (r : Reservation.Reservation)
| RWait (w : WaitOutcome)
| RTokens (x : Q)
| RNone.

Definition exec (l : Limiter) (o : Op) : Outcome (Limiter * Result) :=
  match o with
  | OpAllowN t n => p <- L.AllowN l t n ;; Done (fst p, RAllow (snd p))
  | OpReserveN t n => p <- L.ReserveN l t n ;; Done (fst p, RReserve (snd p))
  | OpWaitN now now' n => p <- L.WaitN l now now' n ;; Done (fst p, RWait (snd p))
  | OpTokensAt t => p <- L.TokensAt l t ;; Done (fst p, RTokens (snd p))
  | OpSetLimitAt t r => l <- L.SetLimitAt l t r ;; Done (l, RNone)
  | OpSetBurstAt t b => l <- L.SetBurstAt l t b ;; Done (l, RNone)
  end.

(** The units an operation admitted: [n] for an [AllowN] that returned true,
    nothing otherwise. *)
Definition admitted (o : Op) (res : Result) : Z :=
  match o, res with
  | OpAllowN _ n, RAllow true => n
  | _, _ => 0
  end.

(** One operation: the next state and the units admitted. *)
Definition step (l : Limiter) (o : Op) : Outcome (Limiter * Z) :=
  p <- exec l o ;; Done (fst p, admitted o (snd p)).

(** A sequence of operations: the final state and the cumulative number of
    units admitted by [AllowN]. *)
Fixpoint run (l : Limiter) (ops : list Op) : Outcome (Limiter * Z) :=
  match ops with
  | [] => Done (l, 0)
  | o :: rest =>
      p <- step l o ;;
      q <- run (fst p) rest ;;
      Done (fst q, snd p + snd q)
  end.

(** ** Vocabulary of the properties *)

(** The operations [ops] follow the instant [last] and each other so
    closely that at most half a unit is due between two of them at rate
    [r]: the product, however float64 rounds it, truncates to zero. *)
Fixpoint frequent (r : Limit) (last : Time) (ops : list Op) : Prop :=
  match ops with
  | [] => True
  | o :: rest =>
      (0 <= r * Seconds (Sub (op_time o) last))%Q /\
      (r * Seconds (Sub (op_time o) last) <= 1 # 2)%Q /\
      frequent r (op_time o) rest
  end.

(** The number of units that left the queue between two states. *)
Definition drained (before after : LB.LeakyBucketLimiter) : Z :=
  GoInt.len (LB.queue before) - GoInt.len (LB.queue after).

(** The reservation that "try to allow now, otherwise not ok" stands for. *)
Definition reserve_by_allow (algo : Algorithm) (r : Limit) (t : Time) (n : Z)
    (allowed : bool) : Reservation.Reservation :=
  if allowed then
    Reservation.mkReservation true (Some algo) n t r
  else Reservation.notOK.

(** What is left to admit, as [TokensAt] reports it (the difference taken
    in the integers, without the 64-bit wrap). *)
Definition available (l : Limiter) : Q :=
  match l with
  | OfTokenBucket tb => TB.tokens tb
  | OfLeakyBucket lb => inject_Z (LB.capacity lb - GoInt.len (LB.queue lb))
  | OfSlidingWindow sw => inject_Z (SW.maxCount sw - GoInt.len (SW.timestamps sw))
  | OfFixedWindow fw => inject_Z (FW.maxCount fw - FW.currentCount fw)
  end.

(** The integer count an admission check of the window engines adds to. *)
Definition used (l : Limiter) : Z :=
  match l with
  | OfTokenBucket _ => 0
  | OfLeakyBucket lb => GoInt.len (LB.queue lb)
  | OfSlidingWindow sw => GoInt.len (SW.timestamps sw)
  | OfFixedWindow fw => FW.currentCount fw
  end.

(** The count is not negative and adding [n] to it stays within 64 bits. *)
Definition fits (l : Limiter) (n : Z) : Prop :=
  GoInt.MinInt64 <= n /\ 0 <= used l /\ used l + n <= GoInt.MaxInt64.

(** A request above the burst is refused and the state is untouched. *)
Definition refused_untouched (l : Limiter) (t now now' : Time) (n : Z) : Prop :=
  L.ReserveN l t n = Done (l, Reservation.notOK) /\
  exists l', L.WaitN l now now' n = Done (l', WaitExceeds n (L.Burst l)).

(** Processing the instant [t] does not lower the token count. *)
Definition keeps_tokens (tb : TB.TokenBucketLimiter) (t : Time) : Prop :=
  (TB.tokens tb <= TB.tokens (fst (TB.TokensAt tb t)))%Q.

(** The conditions under which an advance to [t] gives nothing back: none
    for the leaky bucket and the sliding window; a count that is not
    negative for the fixed window; for the token bucket, an instant not
    before the last one processed, a rate that is not negative and a token
    count within the burst. *)
Definition in_order (l : Limiter) (t : Time) : Prop :=
  match l with
  | OfTokenBucket tb =>
      TB.lastUpdated tb <= t /\ (0 <= TB.limit tb)%Q /\
      (TB.tokens tb <= Float64.of_int (TB.burst tb))%Q
  | OfFixedWindow fw => 0 <= FW.currentCount fw
  | _ => True
  end.

(** The accounting quantity is at most the current burst. *)
Definition within_burst (l : Limiter) : Prop :=
  (accounted l <= inject_Z (L.Burst l))%Q.

(** ... and, for the token bucket, not below zero. *)
Definition accounting_in_range (l : Limiter) : Prop :=
  within_burst l /\
  match l with
  | OfTokenBucket tb => (0 <= TB.tokens tb)%Q
  | _ => True
  end.

(** Bursts and unit counts are taken below [MaxUnits], so that a count plus
    a request stays within 64 bits. *)
Definition MaxUnits : Z := 2 ^ 62.

(** The bursts the properties cover: on the token bucket, a token count
    below 2^53, which float64 holds and counts down exactly; on the other
    engines, whose counts are integers, a count below [MaxUnits]. *)
Definition MaxBurst (algo : Algorithm) : Z :=
  match algo with
  | TokenBucket | OtherAlgorithm _ => 2 ^ 53 - 1
  | LeakyBucket | SlidingWindow | FixedWindow => MaxUnits - 1
  end.

(** A rate whose product with an elapsed time (less than 2^34 seconds)
    stays finite in float64: the unlimited sentinel, which is never
    multiplied, or a magnitude of at most 2^989. *)
Definition moderate (r : Limit) : Prop :=
  (r == Inf)%Q \/
  (- inject_Z (2 ^ 989) <= r)%Q /\ (r <= inject_Z (2 ^ 989))%Q.

(** The operations after which the accounting quantity is within the burst:
    every [AllowN] and [TokensAt]; [SetLimitAt] to a moderate rate;
    [ReserveN] and [WaitN] except on the leaky bucket, which queues a
    reservation beyond its capacity; [SetBurstAt] on the two buckets, to a
    burst within [MaxBurst]. *)
Definition covered (algo : Algorithm) (o : Op) : Prop :=
  match o with
  | OpAllowN _ n => 0 <= n < MaxUnits
  | OpReserveN _ n | OpWaitN _ _ n => 0 <= n < MaxUnits /\ algo <> LeakyBucket
  | OpTokensAt _ => True
  | OpSetLimitAt _ r => moderate r
  | OpSetBurstAt _ b =>
      0 <= b <= MaxBurst algo /\ (algo = TokenBucket \/ algo = LeakyBucket)
  end.

(** The operations of the token bucket that never spend in deficit. *)
Definition spends_at_most_tokens (o : Op) : Prop :=
  match o with
  | OpAllowN _ _ | OpTokensAt _ | OpSetLimitAt _ _ => True
  | OpSetBurstAt _ b => 0 <= b
  | OpReserveN _ _ | OpWaitN _ _ _ => False
  end.

(** The invariant carried along a sequence of operations on an engine of
    kind [algo]. *)
Definition bounded (algo : Algorithm) (l : Limiter) : Prop :=
  within_burst l /\ 0 <= L.Burst l < MaxUnits /\ L.Algorithm l = algo.

(** The unit count an operation carries. *)
Definition op_units (o : Op) : Z :=
  match o with
  | OpAllowN _ n | OpReserveN _ n | OpWaitN _ _ n => n
  | _ => 0
  end.

(** The units requested by a sequence of operations, admitted or not. *)
Definition requested (ops : list Op) : Z :=
  fold_right (fun o acc => op_units o + acc) 0 ops.

(** An operation that does not reconfigure the limiter, with its unit count
    in range. *)
Definition plain (o : Op) : Prop :=
  match o with
  | OpSetLimitAt _ _ | OpSetBurstAt _ _ => False
  | _ => 0 <= op_units o < MaxUnits
  end.

(** The timestamps do not go back in time, from [last] on. *)
Fixpoint chronological (last : Time) (ops : list Op) : Prop :=
  match ops with
  | [] => True
  | o :: rest => last <= op_time o /\ chronological (op_time o) rest
  end.

(** Every operation is stamped within one second from [t0]. *)
Definition first_window (t0 : Time) (ops : list Op) : Prop :=
  Forall (fun o => t0 <= op_time o < t0 + Second) ops.

(** The sequences of operations over which a limiter of rate [r <= 0]
    created at [t0] does not replenish. *)
Definition in_scope (algo : Algorithm) (t0 : Time) (r : Limit) (ops : list Op)
  : Prop :=
  match algo with
  | TokenBucket | OtherAlgorithm _ => (r == 0)%Q \/ chronological t0 ops
  | LeakyBucket =>
      ((r == 0)%Q \/ chronological t0 ops) /\ requested ops < MaxUnits
  | SlidingWindow | FixedWindow => first_window t0 ops
  end.

(** A limiter created at [t0] with rate [r] and burst [B] has admitted at
    most [B] units after any number [n] of the operations [ops]. *)
Definition never_replenishes (algo : Algorithm) (t0 : Time) (r : Limit) (B : Z)
    (ops : list Op) : Prop :=
  forall (n : nat) (l : Limiter) (k : Z),
    (l0 <- NewLimiter algo t0 r B ;; run l0 (firstn n ops)) = Done (l, k) ->
    k <= B.

(** The state of a limiter that will not replenish over the operations
    still to come. *)
Definition quiet (t0 : Time) (l : Limiter) (ops : list Op) : Prop :=
  match l with
  | OfTokenBucket tb =>
      (TB.limit tb <= 0)%Q /\
      ((TB.limit tb == 0)%Q \/ chronological (TB.lastUpdated tb) ops)
  | OfLeakyBucket lb =>
      (LB.limit lb <= 0)%Q /\
      ((LB.limit lb == 0)%Q \/ chronological (LB.lastLeakTime lb) ops) /\
      GoInt.len (LB.queue lb) + requested ops < MaxUnits
  | OfSlidingWindow sw =>
      SW.window sw = Second /\
      GoInt.len (SW.timestamps sw) <= SW.maxCount sw < MaxUnits /\
      Forall (fun x => t0 <= x) (SW.timestamps sw) /\
      first_window t0 ops
  | OfFixedWindow fw =>
      FW.window fw = Second /\ FW.windowStart fw = t0 /\
      0 <= FW.currentCount fw <= FW.maxCount fw /\
      FW.maxCount fw < MaxUnits /\
      first_window t0 ops
  end.

(** What one step owes to the next: the state stays quiet, the units
    admitted are taken from what was available, and an admission leaves
    the availability non-negative. *)
Definition pays (t0 : Time) (l l1 : Limiter) (o : Op) (rest : list Op) (res : Result) : Prop :=
  quiet t0 l1 rest /\
  (available l1 + inject_Z (admitted o res) <= available l)%Q /\
  (admitted o res = 0 \/ (0 <= available l1)%Q).

(** On a limiter created at [t0] with rate [r] and burst [B], [B]
    consecutive [Allow()] calls return true and the next one false; [ts] are
    the readings of the clock at the calls. *)
Definition burst_bound (algo : Algorithm) (t0 : Time) (r : Limit) (B : Z)
    (ts : list Time) : Prop :=
  forall l0 : Limiter,
    NewLimiter algo t0 r B = Done l0 ->
    exists l : Limiter,
      allows l0 ts = Done (l, repeat true (Z.to_nat B) ++ [false]).

(** At rate zero: any instants on the two buckets; instants within one second
    from the creation on the window engines, whose window is then one
    second. *)
Definition rate_zero_scope (algo : Algorithm) (t0 : Time) (ts : list Time)
  : Prop :=
  match algo with
  | TokenBucket | LeakyBucket | OtherAlgorithm _ => True
  | SlidingWindow | FixedWindow => Forall (fun t => t0 <= t < t0 + Second) ts
  end.

(** All calls at one instant [t], not before the creation: the rate of the
    token bucket is not the unlimited one; at most half a unit is due on the
    leaky bucket since its creation, so that the product, however float64
    rounds it, truncates to zero; the fixed window has a burst of zero, or a
    window of at least two nanoseconds and at most 2^62, which a rounding
    of the quotient makes neither zero nor too large for 64 bits. *)
Definition same_instant_scope (algo : Algorithm) (t0 : Time) (r : Limit)
    (B : Z) (t : Time) : Prop :=
  t0 <= t /\
  match algo with
  | TokenBucket | OtherAlgorithm _ => ~ (r == Inf)%Q
  | LeakyBucket => (r * Seconds (Sub t t0) <= 1 # 2)%Q
  | SlidingWindow => True
  | FixedWindow =>
      B = 0 \/ 2 <= FW.window (FW.NewFixedWindow t0 r B) <= 2 ^ 62
  end.

(** The calls at [ts] see no replenishment. *)
Definition no_replenishment (algo : Algorithm) (t0 : Time) (r : Limit) (B : Z)
    (ts : list Time) : Prop :=
  ((r == 0)%Q /\ rate_zero_scope algo t0 ts) \/
  (exists t : Time, Forall (eq t) ts /\ same_instant_scope algo t0 r B t).

(** A state in which the bookkeeping at the instants [ts] changes nothing
    of what is accounted. *)
Definition settled (l : Limiter) (ts : list Time) : Prop :=
  match l with
  | OfTokenBucket tb =>
      Float64.eqb (TB.limit tb) Float64.MaxFloat64 = false /\
      (TB.tokens tb <= Float64.of_int (TB.burst tb))%Q /\
      ((TB.limit tb == 0)%Q \/
       (0 <= TB.limit tb)%Q /\
       exists t : Time, Forall (eq t) ts /\
         (TB.lastUpdated tb = t \/
          TB.lastUpdated tb <= t /\
          (TB.tokens tb == Float64.of_int (TB.burst tb))%Q))
  | OfLeakyBucket lb =>
      GoInt.len (LB.queue lb) <= LB.capacity lb < MaxUnits /\
      ((LB.limit lb == 0)%Q \/
       exists t : Time, Forall (eq t) ts /\
         (-1 < LB.limit lb * Seconds (Sub t (LB.lastLeakTime lb)))%Q /\
         (LB.limit lb * Seconds (Sub t (LB.lastLeakTime lb)) < 1)%Q)
  | OfSlidingWindow sw =>
      GoInt.len (SW.timestamps sw) <= SW.maxCount sw < MaxUnits /\
      exists t1 : Time,
        Forall (fun x => t1 <= x) (SW.timestamps sw) /\
        Forall (fun t => t + GoInt.neg (SW.window sw) <= t1 <= t) ts
  | OfFixedWindow fw =>
      0 <= FW.currentCount fw <= FW.maxCount fw /\
      FW.maxCount fw < MaxUnits /\
      (FW.maxCount fw = 0 \/
       Forall (fun t => Sub t (FW.windowStart fw) < FW.window fw) ts \/
       FW.currentCount fw = 0 /\ 0 < FW.window fw /\
       exists t : Time, Forall (eq t) ts)
  end.

(** Tactics for two states with the same bookkeeping. *)
Ltac same_bookkeeping H :=
  cbv [bookkeeping op_time] in H;
  repeat match type of H with
         | context [LB.leak ?lb ?t] => destruct (LB.leak lb t) eqn:?
         end;
  cbv [bind] in H;
  try discriminate H;
  try match type of H with
      | Done (_ ?a) = Done (_ ?b) =>
          let E := fresh "E" in
          assert (E : a = b) by congruence; clear H; rename E into H
      end.

Ltac unfold_ops :=
  cbv [exec L.AllowN L.ReserveN L.WaitN L.TokensAt L.SetLimitAt L.SetBurstAt
       TB.AllowN TB.WaitN TB.ReserveN TB.TokensAt TB.SetLimitAt TB.SetBurstAt
       LB.AllowN LB.WaitN LB.ReserveN LB.TokensAt LB.SetLimitAt LB.SetBurstAt
       SW.ReserveN SW.AllowN SW.WaitN SW.TokensAt SW.SetLimitAt SW.SetBurstAt
       FW.ReserveN FW.AllowN FW.WaitN FW.TokensAt FW.SetLimitAt FW.SetBurstAt].

(** ** Vocabulary of the further properties *)

(** Timestamps in ascending order. *)
Fixpoint ascending (ts : list Time) : Prop :=
  match ts with
  | [] => True
  | x :: rest => Forall (fun y => x <= y) rest /\ ascending rest
  end.

(** Consecutive [AllowN(t, n)] calls on a sliding window, keeping the log of
    the timestamps of every unit admitted so far. *)
Fixpoint sw_calls (sw : SW.SlidingWindowLimiter) (log : list Time)
    (calls : list (Time * Z)) : SW.SlidingWindowLimiter * list Time :=
  match calls with
  | [] => (sw, log)
  | (t, n) :: rest =>
      let p := SW.AllowN sw t n in
      sw_calls (fst p)
        (if snd p then log ++ repeat t (Z.to_nat n) else log) rest
  end.

(** The calls come in order of time, from [last] on, each for a number of
    units in range. *)
Fixpoint calls_in_order (last : Time) (calls : list (Time * Z)) : Prop :=
  match calls with
  | [] => True
  | (t, n) :: rest =>
      last <= t /\ 0 <= n < MaxUnits /\ calls_in_order t rest
  end.

(** The instant of the last call, [t] when there is none. *)
Fixpoint last_instant (t : Time) (calls : list (Time * Z)) : Time :=
  match calls with
  | [] => t
  | (t', _) :: rest => last_instant t' rest
  end.

(** The number of logged units stamped within the window of length [w]
    that ends at [t]. *)
Definition in_window (w : Duration) (t : Time) (log : list Time) : Z :=
  GoInt.len (filter (fun x => t - w <=? x) log).

(** A call that cannot panic.  On the leaky bucket: the unlimited rate, or
    a rate that is not negative with a timestamp not before the last leak
    and at most 2^62 units due, so that the product, however float64 rounds
    it, converts to a 64-bit integer (and a burst that is not negative,
    when one is set).  On the sliding window: a wait for a number of units
    and under a bound that are 64-bit integers.  On both, the slice with
    the units the operation may append stays within half of what can be
    allocated, [append] growing a slice to no more than twice what it is
    to hold. *)
Definition safe_call (l : Limiter) (o : Op) : Prop :=
  match l with
  | OfLeakyBucket lb =>
      (Float64.eqb (LB.limit lb) Float64.MaxFloat64 = true \/
       (0 <= LB.limit lb)%Q /\ LB.lastLeakTime lb <= op_time o /\
       (LB.limit lb * Seconds (Sub (op_time o) (LB.lastLeakTime lb))
        <= inject_Z (2 ^ 62))%Q) /\
      GoInt.len (LB.queue lb) + Z.max 0 (op_units o)
      <= GoInt.MaxSliceCap / 2 /\
      match o with
      | OpSetBurstAt _ b => 0 <= b
      | _ => True
      end
  | OfSlidingWindow sw =>
      GoInt.len (SW.timestamps sw) + Z.max 0 (op_units o)
      <= GoInt.MaxSliceCap / 2 /\
      match o with
      | OpWaitN _ _ n =>
          GoInt.in_range n = true /\ GoInt.in_range (SW.maxCount sw) = true
      | _ => True
      end
  | _ => True
  end.

(** The rate and the burst an operation leaves configured. *)
Definition limit_after (o : Op) (old : Limit) : Limit :=
  match o with
  | OpSetLimitAt _ r => r
  | _ => old
  end.

Definition burst_after (o : Op) (old : Z) : Z :=
  match o with
  | OpSetBurstAt _ b => b
  | _ => old
  end.

(** Case analysis of an executed operation. *)
Ltac break_exec E :=
  repeat match type of E with
         | context [LB.leak ?lb ?t] =>
             let lb1 := fresh "lb1" in
             let Ek := fresh "Ek" in
             destruct (LB.leak lb t) as [lb1 |] eqn:Ek; cbn [bind] in E
         | context [GoInt.slice_to ?q ?b] => destruct (GoInt.slice_to q b); cbn [bind] in E
         | context [GoInt.index ?q ?b] => destruct (GoInt.index q b); cbn [bind] in E
         | context [if ?c then _ else _] => destruct c; cbn [bind fst snd lift] in E
         | context [let (_, _) := ?p in _] => destruct p; cbn [bind fst snd lift] in E
         end.

(* ================================================================== *)
(** * Properties *)

(** ** Arithmetic of the embedding *)

Lemma wrap64_id (z : Z) :
  GoInt.MinInt64 <= z <= GoInt.MaxInt64 -> GoInt.wrap64 z = z.
Proof.
  unfold GoInt.wrap64, GoInt.MinInt64, GoInt.MaxInt64. intros H.
  rewrite Z.mod_small; lia.
Qed.

Lemma in_range_iff (z : Z) :
  GoInt.in_range z = true <-> GoInt.MinInt64 <= z <= GoInt.MaxInt64.
Proof. unfold GoInt.in_range. rewrite andb_true_iff, !Z.leb_le. tauto. Qed.

Lemma trunc_zero (q : Q) : (q == 0)%Q -> Float64.trunc q = 0.
Proof.
  unfold Qeq, Float64.trunc. simpl. intros H.
  assert (E : Qnum q = 0) by lia. rewrite E. apply Z.quot_0_l. lia.
Qed.

Lemma trunc_nonneg (q : Q) : (0 <= q)%Q -> 0 <= Float64.trunc q.
Proof.
  unfold Qle, Float64.trunc. simpl. intros H.
  apply Z.quot_pos; lia.
Qed.

Lemma trunc_nonpos (q : Q) : (q <= 0)%Q -> Float64.trunc q <= 0.
Proof.
  unfold Qle, Float64.trunc. simpl. intros H.
  rewrite Z.mul_1_r in H.
  rewrite <- (Z.opp_involutive (Qnum q)). rewrite Z.quot_opp_l by lia.
  assert (0 <= - Qnum q ÷ Z.pos (Qden q)) by (apply Z.quot_pos; lia). lia.
Qed.

Lemma trunc_small (q : Q) : (-1 < q)%Q -> (q < 1)%Q -> Float64.trunc q = 0.
Proof.
  unfold Qlt, Float64.trunc. simpl. intros H1 H2.
  destruct (Z.le_gt_cases 0 (Qnum q)).
  - apply Z.quot_small. lia.
  - rewrite <- (Z.opp_involutive (Qnum q)). rewrite Z.quot_opp_l by lia.
    rewrite Z.quot_small; lia.
Qed.

Lemma trunc_le_m1 (q : Q) : (q <= -1)%Q -> Float64.trunc q <= -1.
Proof.
  unfold Qle, Float64.trunc. simpl. intros H.
  rewrite <- (Z.opp_involutive (Qnum q)). rewrite Z.quot_opp_l by lia.
  assert (1 <= - Qnum q ÷ Z.pos (Qden q)); [|lia].
  apply Z.quot_le_lower_bound; lia.
Qed.

Lemma trunc_ge_1 (q : Q) : (1 <= q)%Q -> 1 <= Float64.trunc q.
Proof.
  unfold Qle, Float64.trunc. simpl. intros H.
  apply Z.quot_le_lower_bound; lia.
Qed.

(** A converted float is its truncation, or the minimum integer. *)
Lemma to_int64_cases (q : Q) :
  Float64.to_int64 q = Float64.trunc q \/ Float64.to_int64 q = GoInt.MinInt64.
Proof. unfold Float64.to_int64. destruct (GoInt.in_range _); auto. Qed.

Lemma to_int64_small (q : Q) :
  (-1 < q)%Q -> (q < 1)%Q -> Float64.to_int64 q = 0.
Proof.
  intros H1 H2. unfold Float64.to_int64.
  rewrite (trunc_small q H1 H2). reflexivity.
Qed.

Lemma to_int64_neg (q : Q) : (q <= -1)%Q -> Float64.to_int64 q < 0.
Proof.
  intros H. destruct (to_int64_cases q) as [E | E]; rewrite E.
  - pose proof (trunc_le_m1 q H). lia.
  - reflexivity.
Qed.

Lemma len_nonneg {A : Type} (s : list A) : 0 <= GoInt.len s.
Proof. unfold GoInt.len. lia. Qed.

Lemma len_append_n {A : Type} (s : list A) (x : A) (n : Z) :
  0 <= n -> GoInt.len (GoInt.append_n s x n) = GoInt.len s + n.
Proof.
  intros H. unfold GoInt.len, GoInt.append_n.
  rewrite length_app, repeat_length. lia.
Qed.

Lemma slice_from_zero {A : Type} (s : list A) : GoInt.slice_from s 0 = Done s.
Proof.
  unfold GoInt.slice_from. pose proof (len_nonneg s).
  destruct (GoInt.len s <? 0) eqn:E; [apply Z.ltb_lt in E; lia|]. reflexivity.
Qed.

Lemma Forall_prefix {A : Type} (P : A -> Prop) (n : nat) (l : list A) :
  Forall P l -> Forall P (firstn n l).
Proof.
  intros H. revert n. induction H as [| x l Hx _ IH]; intros [| n]; simpl;
    constructor; auto.
Qed.

(** ** Reservations on the window engines *)

Lemma delay_zero_at_issue (algo : Algorithm) (r : Limit) (t : Time) (n : Z) :
  Reservation.DelayFrom (reserve_by_allow algo r t n true) t = 0.
Proof.
  unfold Reservation.DelayFrom, reserve_by_allow, Sub. simpl.
  rewrite Z.sub_diag. reflexivity.
Qed.

Lemma sw_allow_keeps_limit (sw : SW.SlidingWindowLimiter) (t : Time) (n : Z) :
  SW.limit (fst (SW.AllowN sw t n)) = SW.limit sw.
Proof. unfold SW.AllowN. destruct (_ <=? _); reflexivity. Qed.

Lemma fw_reset_keeps_limit (fw : FW.FixedWindowLimiter) (t : Time) :
  FW.limit (FW.resetIfNeeded fw t) = FW.limit fw.
Proof. unfold FW.resetIfNeeded. destruct (_ <=? _); reflexivity. Qed.

Lemma fw_allow_keeps_limit (fw : FW.FixedWindowLimiter) (t : Time) (n : Z) :
  FW.limit (fst (FW.AllowN fw t n)) = FW.limit fw.
Proof.
  unfold FW.AllowN. destruct (_ <=? _); simpl; apply fw_reset_keeps_limit.
Qed.

(** C9. On the sliding window and on the fixed window, [ReserveN(t, n)] is
    [AllowN(t, n)]: it leaves the state [AllowN] leaves, and returns the
    reservation of "allow now, otherwise not ok" - ok with time-to-act [t],
    hence zero delay at [t], when [AllowN] returns true, and not ok when it
    returns false. *)
Theorem window_reserve_is_allow (t : Time) (n : Z) :
  (forall sw : SW.SlidingWindowLimiter,
      SW.ReserveN sw t n =
      (fst (SW.AllowN sw t n),
       reserve_by_allow SlidingWindow (SW.limit sw) t n (snd (SW.AllowN sw t n)))) /\
  (forall fw : FW.FixedWindowLimiter,
      FW.ReserveN fw t n =
      (fst (FW.AllowN fw t n),
       reserve_by_allow FixedWindow (FW.limit fw) t n (snd (FW.AllowN fw t n)))) /\
  (forall (algo : Algorithm) (r : Limit),
      Reservation.OK (reserve_by_allow algo r t n true) = true /\
      Reservation.timeToAct (reserve_by_allow algo r t n true) = t /\
      Reservation.DelayFrom (reserve_by_allow algo r t n true) t = 0 /\
      Reservation.OK (reserve_by_allow algo r t n false) = false).
Proof.
  split; [|split].
  - intros sw. unfold SW.ReserveN.
    pose proof (sw_allow_keeps_limit sw t n) as E.
    destruct (SW.AllowN sw t n) as [sw' [|]]; simpl in *; try rewrite E; reflexivity.
  - intros fw. unfold FW.ReserveN.
    pose proof (fw_allow_keeps_limit fw t n) as E.
    destruct (FW.AllowN fw t n) as [fw' [|]]; simpl in *; try rewrite E; reflexivity.
  - intros algo r. repeat split. apply delay_zero_at_issue.
Qed.

(** ** The leaky bucket's drain *)

(** One leak over a gap in which less than one unit is due removes nothing
    and moves the last-leak instant. *)
Lemma leak_short_gap (lb : LB.LeakyBucketLimiter) (t : Time) :
  Float64.eqb (LB.limit lb) Float64.MaxFloat64
    || (GoInt.len (LB.queue lb) =? 0) = false ->
  (0 <= LB.limit lb * Seconds (Sub t (LB.lastLeakTime lb)))%Q ->
  (LB.limit lb * Seconds (Sub t (LB.lastLeakTime lb)) < 1)%Q ->
  LB.leak lb t =
  Done (LB.mk (LB.limit lb) (LB.capacity lb) (LB.queue lb) t).
Proof.
  intros Hskip H0 H1. unfold LB.leak. rewrite Hskip.
  rewrite to_int64_small by lra.
  pose proof (len_nonneg (LB.queue lb)).
  destruct (GoInt.len (LB.queue lb) <? 0) eqn:E; [apply Z.ltb_lt in E; lia|].
  rewrite slice_from_zero. reflexivity.
Qed.

(** The leak of a frequent operation on a queue that is not empty: nothing
    leaves the queue, and the last-leak instant moves to the operation
    unless the rate is the unlimited one. *)
Lemma leak_frequent (lb : LB.LeakyBucketLimiter) (last t : Time) :
  0 < GoInt.len (LB.queue lb) ->
  Float64.eqb (LB.limit lb) Float64.MaxFloat64 = true
    \/ LB.lastLeakTime lb = last ->
  (0 <= LB.limit lb * Seconds (Sub t last))%Q ->
  (LB.limit lb * Seconds (Sub t last) <= 1 # 2)%Q ->
  exists lb1 : LB.LeakyBucketLimiter,
    LB.leak lb t = Done lb1 /\
    LB.queue lb1 = LB.queue lb /\ LB.limit lb1 = LB.limit lb /\
    LB.capacity lb1 = LB.capacity lb /\
    (Float64.eqb (LB.limit lb) Float64.MaxFloat64 = true
     \/ LB.lastLeakTime lb1 = t).
Proof.
  intros Hq Hlast H0 H1.
  destruct (Float64.eqb (LB.limit lb) Float64.MaxFloat64) eqn:Einf.
  - exists lb. unfold LB.leak. rewrite Einf. cbn [orb].
    repeat split; auto.
  - destruct Hlast as [C | <-]; [discriminate|].
    assert (Hskip : Float64.eqb (LB.limit lb) Float64.MaxFloat64
                      || (GoInt.len (LB.queue lb) =? 0) = false).
    { rewrite Einf. cbn [orb]. apply Z.eqb_neq. lia. }
    rewrite (leak_short_gap lb t Hskip H0) by lra.
    eexists. split; [reflexivity|]. cbn [LB.queue LB.limit LB.capacity LB.lastLeakTime].
    repeat split; auto.
Qed.

Lemma exec_frequent (lb : LB.LeakyBucketLimiter) (last : Time) (o : Op)
    (l' : Limiter) (res : Result) :
  0 < GoInt.len (LB.queue lb) -> plain o ->
  Float64.eqb (LB.limit lb) Float64.MaxFloat64 = true
    \/ LB.lastLeakTime lb = last ->
  (0 <= LB.limit lb * Seconds (Sub (op_time o) last))%Q ->
  (LB.limit lb * Seconds (Sub (op_time o) last) <= 1 # 2)%Q ->
  exec (OfLeakyBucket lb) o = Done (l', res) ->
  exists (lb' : LB.LeakyBucketLimiter) (added : list Time),
    l' = OfLeakyBucket lb' /\ LB.queue lb' = LB.queue lb ++ added /\
    LB.limit lb' = LB.limit lb /\
    (Float64.eqb (LB.limit lb) Float64.MaxFloat64 = true
     \/ LB.lastLeakTime lb' = op_time o).
Proof.
  intros Hq Hp Hlast H0 H1 E.
  destruct (leak_frequent lb last (op_time o) Hq Hlast H0 H1)
    as (lb1 & El & Eq & Elim & Ecap & Hl1).
  destruct o as [t n | t n | now now' n | t | t x | t b];
    cbn [plain op_time] in *; try contradiction;
    cbv [exec L.AllowN L.ReserveN L.WaitN L.TokensAt
         LB.AllowN LB.ReserveN LB.WaitN LB.TokensAt] in E;
    rewrite El in E; cbn [bind] in E.
  - destruct (_ <=? _); cbn [bind lift fst snd] in E; injection E as <- _.
    + eexists; eexists. split; [reflexivity|].
      cbn [LB.queue LB.limit LB.lastLeakTime]. unfold GoInt.append_n.
      rewrite Eq. repeat split; auto.
    + exists lb1, []. rewrite app_nil_r. repeat split; auto.
  - destruct (LB.capacity lb1 <? n); cbn [bind lift fst snd] in E;
      injection E as <- _.
    + exists lb1, []. rewrite app_nil_r. repeat split; auto.
    + eexists; eexists. split; [reflexivity|].
      cbn [LB.queue LB.limit LB.lastLeakTime]. unfold GoInt.append_n.
      rewrite Eq. repeat split; auto.
  - destruct (LB.capacity lb1 <? n); cbn [bind lift fst snd negb Reservation.OK
                                          Reservation.ok Reservation.notOK] in E.
    + injection E as <- _.
      exists lb1, []. rewrite app_nil_r. repeat split; auto.
    + destruct (_ =? 0); cbn [bind lift fst snd] in E; injection E as <- _;
        (eexists; eexists; split; [reflexivity|]);
        cbn [LB.queue LB.limit LB.lastLeakTime]; unfold GoInt.append_n;
        rewrite Eq; repeat split; auto.
  - cbn [lift fst snd] in E. injection E as <- _.
    exists lb1, []. rewrite app_nil_r. repeat split; auto.
Qed.

Lemma run_frequent (ops : list Op) :
  forall (lb : LB.LeakyBucketLimiter) (last : Time) (l' : Limiter) (k : Z),
    0 < GoInt.len (LB.queue lb) -> Forall plain ops ->
    Float64.eqb (LB.limit lb) Float64.MaxFloat64 = true
      \/ LB.lastLeakTime lb = last ->
    frequent (LB.limit lb) last ops ->
    run (OfLeakyBucket lb) ops = Done (l', k) ->
    exists (lb' : LB.LeakyBucketLimiter) (added : list Time),
      l' = OfLeakyBucket lb' /\ LB.queue lb' = LB.queue lb ++ added.
Proof.
  induction ops as [| o rest IH]; intros lb last l' k Hq Hp Hlast Hf E.
  - cbn [run] in E. injection E as <- _. exists lb, [].
    rewrite app_nil_r. split; reflexivity.
  - inversion Hp as [| ? ? Hpo Hpr]; subst. destruct Hf as (H0 & H1 & Hrest).
    cbn [run] in E. unfold step in E.
    destruct (exec (OfLeakyBucket lb) o) as [[l1 res] |] eqn:Ee;
      cbn [bind fst snd] in E; [|discriminate].
    destruct (exec_frequent lb last o l1 res Hq Hpo Hlast H0 H1 Ee)
      as (lb1 & added & -> & Eq & Elim & Hl1).
    destruct (run (OfLeakyBucket lb1) rest) as [[l2 k2] |] eqn:Er;
      cbn [bind fst snd] in E; [|discriminate].
    injection E as <- _.
    destruct (IH lb1 (op_time o) l2 k2) as (lb2 & added2 & -> & Eq2).
    + rewrite Eq. unfold GoInt.len in *. rewrite length_app. lia.
    + exact Hpr.
    + rewrite Elim. exact Hl1.
    + rewrite Elim. exact Hrest.
    + exact Er.
    + exists lb2, (added ++ added2). split; [reflexivity|].
      rewrite Eq2, Eq, app_assoc. reflexivity.
Qed.

(** C10, amended. Draining the leaky bucket is not additive over time:
    there are a queue and instants [t1 < t2] after the last leak such that
    leaking at [t1] and then at [t2] removes fewer units than leaking once
    at [t2]; and over operations that return, on a queue that is not empty
    and whose last leak is at [last], so frequent from [last] on that at
    most half a unit is due between two of them, nothing leaves the queue:
    the final queue is the initial one followed by what was added. *)
Theorem leak_not_additive :
  (exists (lb a b c : LB.LeakyBucketLimiter) (t1 t2 : Time),
      LB.lastLeakTime lb < t1 /\ t1 < t2 /\
      LB.leak lb t1 = Done a /\ LB.leak a t2 = Done b /\
      LB.leak lb t2 = Done c /\
      drained lb b < drained lb c) /\
  (forall (lb : LB.LeakyBucketLimiter) (ops : list Op) (l' : Limiter) (k : Z),
      0 < GoInt.len (LB.queue lb) -> Forall plain ops ->
      frequent (LB.limit lb) (LB.lastLeakTime lb) ops ->
      run (OfLeakyBucket lb) ops = Done (l', k) ->
      exists (lb' : LB.LeakyBucketLimiter) (added : list Time),
        l' = OfLeakyBucket lb' /\ LB.queue lb' = LB.queue lb ++ added).
Proof.
  split.
  - exists (LB.mk 1%Q 2 [0; 0] 0),
           (LB.mk 1%Q 2 [0; 0] 500000000),
           (LB.mk 1%Q 2 [0; 0] 1000000000),
           (LB.mk 1%Q 2 [0] 1000000000),
           500000000, 1000000000.
    vm_compute. repeat split; reflexivity.
  - intros lb ops l' k Hq Hp Hf E.
    apply (run_frequent ops lb (LB.lastLeakTime lb) l' k Hq Hp); auto.
Qed.

Lemma leak_not_additive_witness :
  exists (lb' : LB.LeakyBucketLimiter) (added : list Time),
    OfLeakyBucket (LB.mk 1%Q 3 [0; 400000000; 800000000] 1200000000)
    = OfLeakyBucket lb' /\
    LB.queue lb' = LB.queue (LB.mk 1%Q 3 [0] 0) ++ added.
Proof.
  apply (proj2 leak_not_additive (LB.mk 1%Q 3 [0] 0)
           [OpAllowN 400000000 1; OpAllowN 800000000 1; OpTokensAt 1200000000]
           _ 2).
  - vm_compute. reflexivity.
  - repeat constructor; unfold MaxUnits; simpl; lia.
  - simpl. unfold Qle. simpl. lia.
  - vm_compute. reflexivity.
Defined.

(** The operations of the claim as stated, from an empty queue: while the
    queue is empty [leak] returns without moving the last-leak instant, so
    four operations 0.4s apart at one unit per second, each within half a
    unit of the one before, drain the unit queued at 1.2s at 1.6s. *)
Lemma frequent_operations_counterexample :
  let ops := [OpTokensAt 400000000; OpTokensAt 800000000;
              OpAllowN 1200000000 1; OpAllowN 1600000000 1] in
  Forall plain ops /\ frequent 1%Q 0 ops /\
  run (OfLeakyBucket (LB.mk 1%Q 2 [] 0)) ops
  = Done (OfLeakyBucket (LB.mk 1%Q 2 [1600000000] 1600000000), 2).
Proof.
  split; [|split].
  - repeat constructor; unfold MaxUnits; simpl; lia.
  - simpl. unfold Qle. simpl. lia.
  - vm_compute. reflexivity.
Qed.

(** ** Historical timestamps on the leaky bucket *)

Lemma leak_backwards_panics (lb : LB.LeakyBucketLimiter) (t : Time) :
  Float64.eqb (LB.limit lb) Float64.MaxFloat64
    || (GoInt.len (LB.queue lb) =? 0) = false ->
  (LB.limit lb * Seconds (Sub t (LB.lastLeakTime lb)) <= -1)%Q ->
  LB.leak lb t = Panic.
Proof.
  intros Hskip H. unfold LB.leak. rewrite Hskip.
  pose proof (to_int64_neg _ H) as Hneg.
  pose proof (len_nonneg (LB.queue lb)).
  destruct (GoInt.len (LB.queue lb) <? _) eqn:E; [apply Z.ltb_lt in E; lia|].
  unfold GoInt.slice_from.
  destruct (Float64.to_int64 _ <? 0) eqn:E0; [reflexivity|].
  apply Z.ltb_ge in E0. lia.
Qed.

(** C6. On the leaky bucket an operation stamped earlier than the last leak
    panics: after [AllowN] at 10s on a bucket of rate 1 and capacity 1,
    [AllowN], [ReserveN] and [TokensAt] at 8s each slice the queue from -2.
    The claim that older timestamps complete normally on every engine fails
    here. *)
Theorem leaky_bucket_older_timestamp_panics :
  (l <- NewLimiter LeakyBucket 10000000000 1%Q 1 ;;
   p <- L.AllowN l 10000000000 1 ;;
   L.AllowN (fst p) 8000000000 1) = Panic /\
  (l <- NewLimiter LeakyBucket 10000000000 1%Q 1 ;;
   p <- L.AllowN l 10000000000 1 ;;
   L.ReserveN (fst p) 8000000000 1) = Panic /\
  (l <- NewLimiter LeakyBucket 10000000000 1%Q 1 ;;
   p <- L.AllowN l 10000000000 1 ;;
   L.TokensAt (fst p) 8000000000) = Panic.
Proof. vm_compute. repeat split; reflexivity. Qed.

(** ** The unlimited rate *)

(** The token bucket refills to its burst at every advance ... *)
Lemma tb_unlimited_allows (tb : TB.TokenBucketLimiter) (t : Time) :
  Float64.eqb (TB.limit tb) Float64.MaxFloat64 = true -> 1 <= TB.burst tb ->
  snd (TB.Allow tb t) = true.
Proof.
  intros Hinf Hb. unfold TB.Allow, TB.AllowN, TB.advance. rewrite Hinf. simpl.
  destruct (Float64.leb _ _) eqn:E; [reflexivity|].
  exfalso. unfold Float64.leb, Float64.of_int in E.
  assert (H : (inject_Z 1 <= inject_Z (TB.burst tb))%Q) by (rewrite <- Zle_Qle; exact Hb).
  apply Qle_bool_iff in H. congruence.
Qed.

(** ... while the leaky bucket skips its leak, and so never drains. *)
Lemma lb_unlimited_never_drains (lb : LB.LeakyBucketLimiter) (t : Time) :
  Float64.eqb (LB.limit lb) Float64.MaxFloat64 = true -> LB.leak lb t = Done lb.
Proof. intros Hinf. unfold LB.leak. rewrite Hinf. reflexivity. Qed.

(** The window of the sliding window is then zero: calls that read the same
    instant from the clock still fill it. *)
Example sliding_window_unlimited_same_instant :
  (l <- NewLimiter SlidingWindow 0 Inf 1 ;;
   p <- allows l [1000000000; 1000000000] ;; Done (snd p)) = Done [true; false].
Proof. vm_compute. reflexivity. Qed.

(** C2. With the unlimited rate and burst 1 the leaky bucket admits the
    first [Allow()] and refuses the second, one second later: the claim that
    every call is admitted at the unlimited rate fails on this engine. *)
Theorem leaky_bucket_unlimited_rate_denies :
  (l <- NewLimiter LeakyBucket 0 Inf 1 ;;
   p <- allows l [0; 1000000000] ;; Done (snd p)) = Done [true; false].
Proof. vm_compute. reflexivity. Qed.

(** ** Alignment of the fixed window *)

(** C8. The fixed window created when the clock reads 1.5s, with rate 1
    and burst 1, has a window of one second and starts at 1.5s, which is not
    a multiple of its window: the initial window start is the creation
    instant, against the claim. *)
Theorem fixed_window_initial_start_unaligned :
  let fw := FW.NewFixedWindow 1500000000 1%Q 1 in
  FW.window fw = 1000000000 /\
  FW.windowStart fw = 1500000000 /\
  FW.windowStart fw mod FW.window fw <> 0.
Proof. vm_compute. repeat split; discriminate. Qed.

Lemma fw_rollover_aligned (fw : FW.FixedWindowLimiter) (now : Time) :
  0 < FW.window fw ->
  FW.window fw <= Sub now (FW.windowStart fw) ->
  FW.windowStart (FW.resetIfNeeded fw now) mod FW.window fw = 0.
Proof.
  intros Hw Hroll. unfold FW.resetIfNeeded.
  apply Z.leb_le in Hroll. rewrite Hroll. simpl. unfold Truncate.
  destruct (FW.window fw <=? 0) eqn:E; [apply Z.leb_le in E; lia|].
  rewrite Zminus_mod, Z.mod_mod, Z.sub_diag by lia. apply Z.mod_0_l. lia.
Qed.

(** ** Requests above the burst *)

Lemma tb_advance_burst (tb : TB.TokenBucketLimiter) (t : Time) :
  TB.burst (TB.advance tb t) = TB.burst tb.
Proof. unfold TB.advance. destruct (Float64.eqb _ _); reflexivity. Qed.

Lemma tb_advance_limit (tb : TB.TokenBucketLimiter) (t : Time) :
  TB.limit (TB.advance tb t) = TB.limit tb.
Proof. unfold TB.advance. destruct (Float64.eqb _ _); reflexivity. Qed.

Lemma tb_advance_lastUpdated (tb : TB.TokenBucketLimiter) (t : Time) :
  TB.lastUpdated (TB.advance tb t) = t.
Proof. unfold TB.advance. destruct (Float64.eqb _ _); reflexivity. Qed.

Lemma lb_leak_fields (lb lb' : LB.LeakyBucketLimiter) (t : Time) :
  LB.leak lb t = Done lb' ->
  LB.limit lb' = LB.limit lb /\ LB.capacity lb' = LB.capacity lb /\
  GoInt.len (LB.queue lb') <= GoInt.len (LB.queue lb).
Proof.
  unfold LB.leak. destruct (_ || _).
  - intros E. inversion E. subst. repeat split; lia.
  - set (k := if _ <? _ then _ else _). unfold GoInt.slice_from.
    destruct ((k <? 0) || _) eqn:Hk; simpl; [discriminate|].
    intros E. inversion E. simpl. repeat split.
    unfold GoInt.len. rewrite length_skipn. lia.
Qed.

Lemma sw_cleanup_len (sw : SW.SlidingWindowLimiter) (t : Time) :
  0 <= GoInt.len (SW.timestamps (SW.cleanup sw t)) <= GoInt.len (SW.timestamps sw).
Proof.
  unfold SW.cleanup, GoInt.len. simpl. rewrite length_skipn. lia.
Qed.

Lemma fw_reset_count (fw : FW.FixedWindowLimiter) (t : Time) :
  FW.currentCount (FW.resetIfNeeded fw t) = 0 \/
  FW.currentCount (FW.resetIfNeeded fw t) = FW.currentCount fw.
Proof. unfold FW.resetIfNeeded. destruct (_ <=? _); simpl; auto. Qed.

Lemma fw_reset_maxCount (fw : FW.FixedWindowLimiter) (t : Time) :
  FW.maxCount (FW.resetIfNeeded fw t) = FW.maxCount fw.
Proof. unfold FW.resetIfNeeded. destruct (_ <=? _); reflexivity. Qed.

Lemma tb_reserve_over_burst (tb : TB.TokenBucketLimiter) (t : Time) (n : Z) :
  TB.burst tb < n -> TB.ReserveN tb t n = (TB.advance tb t, Reservation.notOK).
Proof.
  intros H. unfold TB.ReserveN. rewrite tb_advance_burst.
  apply Z.ltb_lt in H. rewrite H. reflexivity.
Qed.

Lemma sw_allow_over_burst (sw : SW.SlidingWindowLimiter) (t : Time) (n : Z) :
  SW.maxCount sw < n -> fits (OfSlidingWindow sw) n ->
  SW.AllowN sw t n = (SW.cleanup sw t, false).
Proof.
  intros H (Hn & _ & Hmax). simpl in Hmax. unfold SW.AllowN.
  pose proof (sw_cleanup_len sw t) as Hl.
  unfold GoInt.add. rewrite wrap64_id by lia.
  replace (SW.maxCount (SW.cleanup sw t)) with (SW.maxCount sw) by reflexivity.
  destruct (_ <=? _) eqn:E; [apply Z.leb_le in E; lia | reflexivity].
Qed.

Lemma fw_allow_over_burst (fw : FW.FixedWindowLimiter) (t : Time) (n : Z) :
  FW.maxCount fw < n -> fits (OfFixedWindow fw) n ->
  FW.AllowN fw t n = (FW.resetIfNeeded fw t, false).
Proof.
  intros H (Hn & H0 & Hmax). simpl in H0, Hmax. unfold FW.AllowN.
  pose proof (fw_reset_count fw t) as Hc.
  unfold GoInt.add. rewrite wrap64_id by lia.
  rewrite fw_reset_maxCount.
  destruct (_ <=? _) eqn:E; [apply Z.leb_le in E; lia | reflexivity].
Qed.

(** C5, amended. For every engine and every [n] above the current burst
    (the count not negative and count + [n] within 64 bits): [ReserveN(t, n)]
    does the bookkeeping for [t] and returns the not-ok reservation, and
    [WaitN] does the bookkeeping for the instant it reads and returns the
    capacity error at once; no unit is consumed, and a panic of the
    bookkeeping is the only other outcome. *)
Theorem over_burst_refused_after_bookkeeping
    (l : Limiter) (t now now' : Time) (n : Z) :
  L.Burst l < n -> fits l n ->
  L.ReserveN l t n = (l' <- bookkeeping l t ;; Done (l', Reservation.notOK)) /\
  L.WaitN l now now' n =
    (l' <- bookkeeping l now ;; Done (l', WaitExceeds n (L.Burst l))).
Proof.
  intros Hn Hfit. destruct l as [tb | lb | sw | fw]; simpl in Hn |- *.
  - unfold TB.Burst in Hn. split.
    + rewrite tb_reserve_over_burst by exact Hn. reflexivity.
    + unfold TB.WaitN. rewrite tb_reserve_over_burst by exact Hn. simpl.
      unfold lift, TB.Burst. simpl. rewrite tb_advance_burst. reflexivity.
  - unfold LB.Burst in Hn. split.
    + unfold LB.ReserveN. destruct (LB.leak lb t) as [lb' |] eqn:E; simpl; [|reflexivity].
      destruct (lb_leak_fields _ _ _ E) as (_ & Hc & _). rewrite Hc.
      apply Z.ltb_lt in Hn. rewrite Hn. reflexivity.
    + unfold LB.WaitN, LB.ReserveN.
      destruct (LB.leak lb now) as [lb' |] eqn:E; simpl; [|reflexivity].
      destruct (lb_leak_fields _ _ _ E) as (_ & Hc & _). rewrite Hc.
      apply Z.ltb_lt in Hn. rewrite Hn. simpl.
      unfold lift, LB.Burst. simpl. rewrite Hc. reflexivity.
  - unfold SW.Burst in Hn. split.
    + unfold SW.ReserveN. rewrite sw_allow_over_burst by assumption. reflexivity.
    + unfold SW.WaitN.
      replace (SW.maxCount (SW.cleanup sw now)) with (SW.maxCount sw) by reflexivity.
      apply Z.ltb_lt in Hn. rewrite Hn. reflexivity.
  - unfold FW.Burst in Hn. split.
    + unfold FW.ReserveN. rewrite fw_allow_over_burst by assumption. reflexivity.
    + unfold FW.WaitN. rewrite fw_reset_maxCount.
      apply Z.ltb_lt in Hn. rewrite Hn. reflexivity.
Qed.

Lemma over_burst_refused_after_bookkeeping_witness :
  let l := OfFixedWindow (FW.NewFixedWindow 0 1%Q 1) in
  L.ReserveN l 1000000000 2 =
    (l' <- bookkeeping l 1000000000 ;; Done (l', Reservation.notOK)) /\
  L.WaitN l 1000000000 1000000000 2 =
    (l' <- bookkeeping l 1000000000 ;; Done (l', WaitExceeds 2 (L.Burst l))).
Proof.
  apply (over_burst_refused_after_bookkeeping
           (OfFixedWindow (FW.NewFixedWindow 0 1%Q 1))
           1000000000 1000000000 1000000000 2).
  - vm_compute. reflexivity.
  - vm_compute. repeat split; discriminate.
Defined.

Lemma refused_untouched_counterexample :
  let l := OfTokenBucket (TB.NewTokenBucket 0 1%Q 1) in
  L.Burst l < 2 /\ ~ refused_untouched l 1000000000 1000000000 1000000000 2.
Proof.
  split; [reflexivity|]. intros [H _]. vm_compute in H. discriminate H.
Qed.

(** The state a refused request leaves is the one [TokensAt] leaves. *)
Lemma tokensAt_state_is_bookkeeping (l : Limiter) (t : Time) :
  (p <- L.TokensAt l t ;; Done (fst p)) = bookkeeping l t.
Proof.
  destruct l as [tb | lb | sw | fw]; simpl; try reflexivity.
  unfold LB.TokensAt. destruct (LB.leak lb t); reflexivity.
Qed.

(** ** Bookkeeping before admission *)

Lemma Sub_nonneg (t u : Time) : u <= t -> 0 <= Sub t u.
Proof. unfold Sub, GoInt.MinInt64, GoInt.MaxInt64. lia. Qed.

Lemma Sub_diag (t : Time) : Sub t t = 0.
Proof. unfold Sub. rewrite Z.sub_diag. reflexivity. Qed.

Lemma Seconds_nonneg (d : Duration) : 0 <= d -> (0 <= Seconds d)%Q.
Proof. intros H. unfold Seconds, Qle. simpl. lia. Qed.

Lemma Seconds_zero : (Seconds 0%Z == 0)%Q.
Proof. reflexivity. Qed.

Lemma fmin_cases (a b : Q) :
  (Float64.fmin a b = a /\ (a <= b)%Q) \/ (Float64.fmin a b = b /\ (b < a)%Q).
Proof.
  unfold Float64.fmin, Float64.leb. destruct (Qle_bool a b) eqn:E.
  - left. split; [reflexivity|]. apply Qle_bool_iff. exact E.
  - right. split; [reflexivity|]. apply Qnot_le_lt. intros H.
    apply Qle_bool_iff in H. congruence.
Qed.

Lemma tb_advance_in_order (tb : TB.TokenBucketLimiter) (t : Time) :
  in_order (OfTokenBucket tb) t ->
  (TB.tokens tb <= TB.tokens (TB.advance tb t))%Q.
Proof.
  intros (Ht & Hr & Hb). unfold TB.advance.
  destruct (Float64.eqb _ _); simpl; [exact Hb|].
  pose proof (Seconds_nonneg _ (Sub_nonneg _ _ Ht)) as Hs.
  assert (0 <= TB.limit tb * Seconds (Sub t (TB.lastUpdated tb)))%Q
    by (apply Qmult_le_0_compat; assumption).
  destruct (fmin_cases (TB.tokens tb + TB.limit tb * Seconds (Sub t (TB.lastUpdated tb)))
              (Float64.of_int (TB.burst tb))) as [[E _] | [E _]]; rewrite E; lra.
Qed.

(** C7, amended. Every operation is evaluated on the state advanced to its
    timestamp: two states with the same bookkeeping at that instant give the
    same result and next state.  The bookkeeping never lowers what is
    available on the leaky bucket and the sliding window, nor on the fixed
    window when the count is not negative, nor on the token bucket when the
    instant is not before the last one processed, the rate is not negative
    and the tokens are within the burst. *)
Theorem bookkeeping_then_admission :
  (forall (l1 l2 : Limiter) (o : Op),
      bookkeeping l1 (op_time o) = bookkeeping l2 (op_time o) ->
      exec l1 o = exec l2 o) /\
  (forall (l l' : Limiter) (t : Time),
      bookkeeping l t = Done l' -> in_order l t ->
      (available l <= available l')%Q).
Proof.
  split.
  - intros l1 l2 o H.
    destruct l1 as [tb1 | lb1 | sw1 | fw1], l2 as [tb2 | lb2 | sw2 | fw2];
      destruct o; same_bookkeeping H; unfold_ops;
      repeat match goal with
             | E : LB.leak _ _ = _ |- _ => rewrite E; clear E
             end;
      try rewrite H; reflexivity.
  - intros l l' t Hb Hord. destruct l as [tb | lb | sw | fw]; simpl in Hb.
    + injection Hb as <-. simpl. apply tb_advance_in_order. exact Hord.
    + destruct (LB.leak lb t) as [lb' |] eqn:E; simpl in Hb; [|discriminate].
      injection Hb as <-. simpl.
      destruct (lb_leak_fields _ _ _ E) as (_ & Hc & Hl).
      rewrite <- Zle_Qle. lia.
    + injection Hb as <-. pose proof (sw_cleanup_len sw t).
      unfold available. rewrite <- Zle_Qle.
      replace (SW.maxCount (SW.cleanup sw t)) with (SW.maxCount sw) by reflexivity.
      lia.
    + injection Hb as <-. simpl in Hord. pose proof (fw_reset_count fw t).
      unfold available. rewrite <- Zle_Qle. rewrite fw_reset_maxCount. lia.
Qed.

Lemma bookkeeping_then_admission_witness :
  let l1 := OfTokenBucket (TB.mk 1%Q 10 10%Q 0) in
  let l2 := OfTokenBucket (TB.mk 1%Q 10 10%Q 5000000000) in
  exec l1 (OpAllowN 7000000000 3) = exec l2 (OpAllowN 7000000000 3) /\
  Qle (available l1)
      (available (OfTokenBucket (TB.advance (TB.mk 1%Q 10 10%Q 0) 7000000000))).
Proof.
  split.
  - apply (proj1 bookkeeping_then_admission
             (OfTokenBucket (TB.mk 1%Q 10 10%Q 0))
             (OfTokenBucket (TB.mk 1%Q 10 10%Q 5000000000))
             (OpAllowN 7000000000 3)).
    vm_compute. reflexivity.
  - apply (proj2 bookkeeping_then_admission
             (OfTokenBucket (TB.mk 1%Q 10 10%Q 0)) _ 7000000000).
    + reflexivity.
    + vm_compute. repeat split; discriminate.
Defined.

Lemma keeps_tokens_counterexample :
  let tb0 := TB.NewTokenBucket 0 1%Q 10 in
  let tb1 := fst (TB.AllowN tb0 0 10) in
  let tb2 := fst (TB.TokensAt tb1 5000000000) in
  3000000000 < TB.lastUpdated tb2 /\ ~ keeps_tokens tb2 3000000000.
Proof.
  split; [reflexivity|]. vm_compute. intros H. apply H. reflexivity.
Qed.

(** ** The accounting quantity and the burst *)

Lemma of_int_nonneg (n : Z) : 0 <= n -> (0 <= Float64.of_int n)%Q.
Proof. intros H. unfold Float64.of_int. change 0%Q with (inject_Z 0). rewrite <- Zle_Qle. exact H. Qed.

Lemma ltb_false_le (a b : Q) : Float64.ltb a b = false -> (b <= a)%Q.
Proof.
  unfold Float64.ltb. intros H. apply negb_false_iff in H.
  apply Qle_bool_iff. exact H.
Qed.

Lemma ltb_true_lt (a b : Q) : Float64.ltb a b = true -> (a < b)%Q.
Proof.
  unfold Float64.ltb. intros H. apply negb_true_iff in H.
  apply Qnot_le_lt. intros C. apply Qle_bool_iff in C. congruence.
Qed.

Lemma leb_true_le (a b : Q) : Float64.leb a b = true -> (a <= b)%Q.
Proof. unfold Float64.leb. apply Qle_bool_iff. Qed.

Lemma leb_false_lt (a b : Q) : Float64.leb a b = false -> (b < a)%Q.
Proof.
  unfold Float64.leb. intros H. apply Qnot_le_lt. intros C.
  apply Qle_bool_iff in C. congruence.
Qed.

Lemma tb_advance_within (tb : TB.TokenBucketLimiter) (t : Time) :
  (TB.tokens (TB.advance tb t) <= Float64.of_int (TB.burst tb))%Q.
Proof.
  unfold TB.advance. destruct (Float64.eqb _ _); simpl; [lra|].
  destruct (fmin_cases (TB.tokens tb + TB.limit tb * Seconds (Sub t (TB.lastUpdated tb)))
              (Float64.of_int (TB.burst tb))) as [[E H] | [E H]]; rewrite E; lra.
Qed.

Lemma tb_allow_within (tb : TB.TokenBucketLimiter) (t : Time) (n : Z) :
  0 <= n ->
  (TB.tokens (fst (TB.AllowN tb t n)) <= Float64.of_int (TB.burst tb))%Q /\
  TB.burst (fst (TB.AllowN tb t n)) = TB.burst tb.
Proof.
  intros Hn. pose proof (tb_advance_within tb t) as Hw.
  pose proof (of_int_nonneg n Hn) as Hq.
  unfold TB.AllowN. destruct (Float64.leb _ _); simpl;
    rewrite tb_advance_burst; split; try reflexivity; lra.
Qed.

Lemma tb_reserve_within (tb : TB.TokenBucketLimiter) (t : Time) (n : Z) :
  0 <= n ->
  (TB.tokens (fst (TB.ReserveN tb t n)) <= Float64.of_int (TB.burst tb))%Q /\
  TB.burst (fst (TB.ReserveN tb t n)) = TB.burst tb.
Proof.
  intros Hn. pose proof (tb_advance_within tb t) as Hw.
  pose proof (of_int_nonneg n Hn) as Hq.
  unfold TB.ReserveN. destruct (_ <? _); simpl;
    rewrite tb_advance_burst; split; try reflexivity; lra.
Qed.

Lemma tb_wait_state (tb : TB.TokenBucketLimiter) (now now' : Time) (n : Z) :
  fst (TB.WaitN tb now now' n) = fst (TB.ReserveN tb now n).
Proof.
  unfold TB.WaitN. destruct (TB.ReserveN tb now n) as [tb' r]. simpl.
  destruct (negb _); [reflexivity|]. destruct (_ =? _); reflexivity.
Qed.

Lemma tb_setBurst_within (tb : TB.TokenBucketLimiter) (t : Time) (b : Z) :
  (TB.tokens (TB.SetBurstAt tb t b) <= Float64.of_int b)%Q.
Proof.
  unfold TB.SetBurstAt. simpl.
  destruct (Float64.ltb _ _) eqn:E; [lra|]. apply ltb_false_le in E. exact E.
Qed.

Lemma MaxBurst_units (algo : Algorithm) : 0 < MaxBurst algo < MaxUnits.
Proof. destruct algo; vm_compute; split; reflexivity. Qed.

Lemma covered_burst (algo : Algorithm) (t : Time) (b : Z) :
  covered algo (OpSetBurstAt t b) -> 0 <= b < MaxUnits.
Proof.
  intros [H _]. pose proof (MaxBurst_units algo). lia.
Qed.

Lemma tb_exec_bounded (tb : TB.TokenBucketLimiter) (o : Op) (l' : Limiter) (r : Result) :
  0 <= TB.burst tb < MaxUnits -> covered TokenBucket o ->
  exec (OfTokenBucket tb) o = Done (l', r) -> bounded TokenBucket l'.
Proof.
  intros Hb Hc E. unfold bounded, within_burst.
  assert (Hcb : forall t b, o = OpSetBurstAt t b -> 0 <= b < MaxUnits)
    by (intros t b Eo; subst o; eapply covered_burst; exact Hc).
  destruct o as [t n | t n | now now' n | t | t x | t b]; simpl in E, Hc;
    injection E as <- _; simpl; unfold TB.Burst.
  - destruct (tb_allow_within tb t n) as [H1 H2]; [lia|]. rewrite H2. auto.
  - destruct (tb_reserve_within tb t n) as [H1 H2]; [lia|]. rewrite H2. auto.
  - rewrite tb_wait_state.
    destruct (tb_reserve_within tb now n) as [H1 H2]; [lia|]. rewrite H2. auto.
  - rewrite tb_advance_burst. pose proof (tb_advance_within tb t). auto.
  - rewrite tb_advance_burst. pose proof (tb_advance_within tb t). auto.
  - pose proof (tb_setBurst_within tb t b).
    pose proof (Hcb t b eq_refl). repeat split; try lia. exact H.
Qed.

Lemma add_in_range (a b : Z) :
  0 <= a < MaxUnits -> 0 <= b < MaxUnits -> GoInt.add a b = a + b.
Proof.
  unfold MaxUnits, GoInt.add. intros Ha Hb. apply wrap64_id.
  unfold GoInt.MinInt64, GoInt.MaxInt64. lia.
Qed.

Lemma lb_bounded_iff (lb : LB.LeakyBucketLimiter) :
  bounded LeakyBucket (OfLeakyBucket lb) <->
  GoInt.len (LB.queue lb) <= LB.capacity lb /\ 0 <= LB.capacity lb < MaxUnits.
Proof.
  unfold bounded, within_burst. simpl. unfold LB.Burst, LB.Algorithm.
  rewrite <- Zle_Qle. tauto.
Qed.

Lemma sw_bounded_iff (sw : SW.SlidingWindowLimiter) :
  bounded SlidingWindow (OfSlidingWindow sw) <->
  GoInt.len (SW.timestamps sw) <= SW.maxCount sw /\ 0 <= SW.maxCount sw < MaxUnits.
Proof.
  unfold bounded, within_burst. simpl. unfold SW.Burst, SW.Algorithm.
  rewrite <- Zle_Qle. tauto.
Qed.

Lemma fw_bounded_iff (fw : FW.FixedWindowLimiter) :
  bounded FixedWindow (OfFixedWindow fw) <->
  FW.currentCount fw <= FW.maxCount fw /\ 0 <= FW.maxCount fw < MaxUnits.
Proof.
  unfold bounded, within_burst. simpl. unfold FW.Burst, FW.Algorithm.
  rewrite <- Zle_Qle. tauto.
Qed.

Lemma lb_allow_bounded (lb lb' : LB.LeakyBucketLimiter) (t : Time) (n : Z) (b : bool) :
  bounded LeakyBucket (OfLeakyBucket lb) -> 0 <= n < MaxUnits ->
  LB.AllowN lb t n = Done (lb', b) -> bounded LeakyBucket (OfLeakyBucket lb').
Proof.
  rewrite !lb_bounded_iff. intros [Hl Hc] Hn. unfold LB.AllowN.
  destruct (LB.leak lb t) as [lb1 |] eqn:E; simpl; [|discriminate].
  destruct (lb_leak_fields _ _ _ E) as (_ & Hc1 & Hl1).
  pose proof (len_nonneg (LB.queue lb1)).
  rewrite add_in_range by lia.
  destruct (_ <=? _) eqn:Hle; intros Ed; injection Ed as <- <-; simpl.
  - apply Z.leb_le in Hle. rewrite len_append_n by lia. lia.
  - lia.
Qed.

Lemma lb_setBurst_bounded (lb lb' : LB.LeakyBucketLimiter) (t : Time) (b : Z) :
  0 <= b < MaxUnits ->
  LB.SetBurstAt lb t b = Done lb' -> bounded LeakyBucket (OfLeakyBucket lb').
Proof.
  rewrite lb_bounded_iff. intros Hb. unfold LB.SetBurstAt.
  destruct (LB.leak lb t) as [lb1 |] eqn:E; simpl; [|discriminate].
  destruct (b <? GoInt.len (LB.queue lb1)) eqn:Hlt.
  - unfold GoInt.slice_to.
    destruct (b <? 0) eqn:H0; [apply Z.ltb_lt in H0; lia|]. simpl.
    intros Ed. injection Ed as <-. simpl. unfold GoInt.len.
    rewrite length_firstn. lia.
  - apply Z.ltb_ge in Hlt. intros Ed. injection Ed as <-. simpl. lia.
Qed.

Lemma lb_exec_bounded (lb : LB.LeakyBucketLimiter) (o : Op) (l' : Limiter) (r : Result) :
  bounded LeakyBucket (OfLeakyBucket lb) -> covered LeakyBucket o ->
  exec (OfLeakyBucket lb) o = Done (l', r) -> bounded LeakyBucket l'.
Proof.
  intros Hb Hc E.
  assert (Hcb : forall t b, o = OpSetBurstAt t b -> 0 <= b < MaxUnits)
    by (intros t b Eo; subst o; eapply covered_burst; exact Hc).
  destruct o as [t n | t n | now now' n | t | t x | t b]; simpl in E, Hc;
    try (exfalso; apply (proj2 Hc); reflexivity).
  - destruct (LB.AllowN lb t n) as [[lb' a] |] eqn:Ea; simpl in E; [|discriminate].
    injection E as <- _. eapply lb_allow_bounded; eauto.
  - unfold LB.TokensAt in E.
    destruct (LB.leak lb t) as [lb1 |] eqn:El; simpl in E; [|discriminate].
    injection E as <- _. simpl.
    destruct (lb_leak_fields _ _ _ El) as (_ & Hc1 & Hl1).
    apply lb_bounded_iff in Hb. apply lb_bounded_iff. lia.
  - unfold LB.SetLimitAt in E.
    destruct (LB.leak lb t) as [lb1 |] eqn:El; simpl in E; [|discriminate].
    injection E as <- _.
    destruct (lb_leak_fields _ _ _ El) as (_ & Hc1 & Hl1).
    apply lb_bounded_iff in Hb. apply lb_bounded_iff. simpl. lia.
  - destruct (LB.SetBurstAt lb t b) as [lb1 |] eqn:Es; simpl in E; [|discriminate].
    injection E as <- _. eapply lb_setBurst_bounded; [|exact Es].
    exact (Hcb t b eq_refl).
Qed.

Lemma sw_allow_bounded (sw : SW.SlidingWindowLimiter) (t : Time) (n : Z) :
  bounded SlidingWindow (OfSlidingWindow sw) -> 0 <= n < MaxUnits ->
  bounded SlidingWindow (OfSlidingWindow (fst (SW.AllowN sw t n))).
Proof.
  rewrite !sw_bounded_iff. intros [Hl Hc] Hn. unfold SW.AllowN.
  pose proof (sw_cleanup_len sw t) as Hlen.
  assert (Hm : SW.maxCount (SW.cleanup sw t) = SW.maxCount sw) by reflexivity.
  revert Hlen Hm. generalize (SW.cleanup sw t). intros sw1 Hlen Hm.
  rewrite add_in_range by lia.
  destruct (_ <=? _) eqn:Hle; simpl.
  - apply Z.leb_le in Hle. rewrite len_append_n by lia. lia.
  - lia.
Qed.

Lemma sw_reserve_state (sw : SW.SlidingWindowLimiter) (t : Time) (n : Z) :
  fst (SW.ReserveN sw t n) = fst (SW.AllowN sw t n).
Proof.
  unfold SW.ReserveN. destruct (SW.AllowN sw t n) as [sw' [|]]; reflexivity.
Qed.

Lemma sw_wait_bounded (sw sw' : SW.SlidingWindowLimiter) (now : Time) (n : Z)
    (w : WaitOutcome) :
  bounded SlidingWindow (OfSlidingWindow sw) -> 0 <= n < MaxUnits ->
  SW.WaitN sw now n = Done (sw', w) ->
  bounded SlidingWindow (OfSlidingWindow sw').
Proof.
  rewrite !sw_bounded_iff. intros [Hl Hc] Hn. unfold SW.WaitN.
  pose proof (sw_cleanup_len sw now) as Hlen.
  assert (Hm : SW.maxCount (SW.cleanup sw now) = SW.maxCount sw) by reflexivity.
  revert Hlen Hm. generalize (SW.cleanup sw now). intros sw1 Hlen Hm.
  rewrite add_in_range by lia.
  destruct (SW.maxCount sw1 <? n).
  - intros E. injection E as <- _. lia.
  - destruct (SW.maxCount sw1 <? _) eqn:Hlt.
    + destruct (GoInt.index _ _); simpl; [|discriminate].
      intros E. injection E as <- _. lia.
    + apply Z.ltb_ge in Hlt. intros E. injection E as <- _. simpl.
      rewrite len_append_n by lia. lia.
Qed.

Lemma sw_exec_bounded (sw : SW.SlidingWindowLimiter) (o : Op) (l' : Limiter) (r : Result) :
  bounded SlidingWindow (OfSlidingWindow sw) -> covered SlidingWindow o ->
  exec (OfSlidingWindow sw) o = Done (l', r) -> bounded SlidingWindow l'.
Proof.
  intros Hb Hc E.
  destruct o as [t n | t n | now now' n | t | t x | t b]; simpl in E, Hc.
  - injection E as <- _. apply sw_allow_bounded; assumption.
  - injection E as <- _. simpl. rewrite sw_reserve_state.
    apply sw_allow_bounded; tauto.
  - destruct (SW.WaitN sw now n) as [[sw' w] |] eqn:Ew; simpl in E; [|discriminate].
    injection E as <- _. eapply sw_wait_bounded; [exact Hb | | exact Ew]. tauto.
  - injection E as <- _. simpl. apply sw_bounded_iff in Hb. apply sw_bounded_iff.
    pose proof (sw_cleanup_len sw t).
    replace (SW.maxCount (SW.cleanup sw t)) with (SW.maxCount sw) by reflexivity. lia.
  - injection E as <- _. apply sw_bounded_iff in Hb. apply sw_bounded_iff.
    pose proof (sw_cleanup_len sw t). simpl in *. lia.
  - destruct Hc as [_ [C | C]]; discriminate C.
Qed.

Lemma fw_allow_bounded (fw : FW.FixedWindowLimiter) (t : Time) (n : Z) :
  bounded FixedWindow (OfFixedWindow fw) ->
  bounded FixedWindow (OfFixedWindow (fst (FW.AllowN fw t n))).
Proof.
  rewrite !fw_bounded_iff. intros [Hl Hc]. unfold FW.AllowN.
  pose proof (fw_reset_count fw t) as Hr.
  rewrite fw_reset_maxCount.
  destruct (_ <=? _) eqn:Hle; simpl; rewrite ?fw_reset_maxCount.
  - apply Z.leb_le in Hle. lia.
  - lia.
Qed.

Lemma fw_reserve_state (fw : FW.FixedWindowLimiter) (t : Time) (n : Z) :
  fst (FW.ReserveN fw t n) = fst (FW.AllowN fw t n).
Proof.
  unfold FW.ReserveN. destruct (FW.AllowN fw t n) as [fw' [|]]; reflexivity.
Qed.

Lemma fw_wait_bounded (fw : FW.FixedWindowLimiter) (now : Time) (n : Z) :
  bounded FixedWindow (OfFixedWindow fw) ->
  bounded FixedWindow (OfFixedWindow (fst (FW.WaitN fw now n))).
Proof.
  rewrite !fw_bounded_iff. intros [Hl Hc]. unfold FW.WaitN.
  pose proof (fw_reset_count fw now) as Hr.
  rewrite fw_reset_maxCount.
  destruct (FW.maxCount fw <? n); simpl; rewrite ?fw_reset_maxCount; [lia|].
  destruct (FW.maxCount fw <? _) eqn:Hlt; simpl; rewrite ?fw_reset_maxCount; [lia|].
  apply Z.ltb_ge in Hlt. lia.
Qed.

Lemma fw_exec_bounded (fw : FW.FixedWindowLimiter) (o : Op) (l' : Limiter) (r : Result) :
  bounded FixedWindow (OfFixedWindow fw) -> covered FixedWindow o ->
  exec (OfFixedWindow fw) o = Done (l', r) -> bounded FixedWindow l'.
Proof.
  intros Hb Hc E.
  destruct o as [t n | t n | now now' n | t | t x | t b]; simpl in E, Hc;
    try (injection E as <- _).
  - apply fw_allow_bounded; assumption.
  - simpl. rewrite fw_reserve_state. apply fw_allow_bounded; assumption.
  - apply fw_wait_bounded; assumption.
  - simpl. apply fw_bounded_iff in Hb. apply fw_bounded_iff.
    pose proof (fw_reset_count fw t). rewrite fw_reset_maxCount. lia.
  - apply fw_bounded_iff in Hb. apply fw_bounded_iff.
    pose proof (fw_reset_count fw t). simpl. rewrite fw_reset_maxCount. lia.
  - destruct Hc as [_ [C | C]]; discriminate C.
Qed.

Lemma exec_bounded (algo : Algorithm) (l l' : Limiter) (o : Op) (r : Result) :
  bounded algo l -> covered algo o -> exec l o = Done (l', r) -> bounded algo l'.
Proof.
  intros Hb Hc E. assert (Ha : L.Algorithm l = algo) by apply Hb.
  destruct l as [tb | lb | sw | fw]; simpl in Ha; subst algo.
  - eapply tb_exec_bounded; eauto. apply Hb.
  - eapply lb_exec_bounded; eauto.
  - eapply sw_exec_bounded; eauto.
  - eapply fw_exec_bounded; eauto.
Qed.

Lemma run_bounded (algo : Algorithm) (ops : list Op) :
  forall (l l' : Limiter) (k : Z),
    bounded algo l -> Forall (covered algo) ops ->
    run l ops = Done (l', k) -> bounded algo l'.
Proof.
  induction ops as [| o rest IH]; intros l l' k Hb Hc E; simpl in E.
  - injection E as <- _. exact Hb.
  - inversion Hc as [| ? ? Ho Hrest]; subst. unfold step in E.
    destruct (exec l o) as [[l1 r] |] eqn:Ee; simpl in E; [|discriminate].
    destruct (run l1 rest) as [[l2 k2] |] eqn:Er; simpl in E; [|discriminate].
    injection E as <- _. eapply IH; [| exact Hrest | exact Er].
    eapply exec_bounded; eauto.
Qed.

Lemma fresh_bounded (algo : Algorithm) (t0 : Time) (r : Limit) (B : Z) (l : Limiter) :
  0 <= B <= MaxBurst algo -> NewLimiter algo t0 r B = Done l ->
  bounded (engine algo) l.
Proof.
  intros HB E. pose proof (MaxBurst_units algo) as Hm.
  assert (HB' : 0 <= B < MaxUnits) by lia. clear HB Hm.
  destruct algo; cbn [NewLimiter engine] in *.
  - injection E as <-. unfold bounded, within_burst. simpl.
    unfold TB.Burst, Float64.of_int. simpl. repeat split; try lia. lra.
  - unfold LB.NewLeakyBucket in E.
    destruct (GoInt.make_ok B); cbn [bind] in E; [|discriminate].
    injection E as <-. apply lb_bounded_iff. simpl. unfold GoInt.len. simpl. lia.
  - unfold SW.NewSlidingWindow in E.
    destruct (GoInt.make_ok B); cbn [bind] in E; [|discriminate].
    injection E as <-. apply sw_bounded_iff. simpl. unfold GoInt.len. simpl. lia.
  - injection E as <-. apply fw_bounded_iff. simpl. lia.
  - injection E as <-. unfold bounded, within_burst. simpl.
    unfold TB.Burst, Float64.of_int. simpl. repeat split; try lia. lra.
Qed.

Lemma tb_exec_nonneg (tb : TB.TokenBucketLimiter) (o : Op) (l' : Limiter) (res : Result) :
  (0 <= TB.tokens tb)%Q -> in_order (OfTokenBucket tb) (op_time o) ->
  spends_at_most_tokens o ->
  exec (OfTokenBucket tb) o = Done (l', res) -> (0 <= accounted l')%Q.
Proof.
  intros H0 Hord Hs E.
  destruct o as [t n | t n | now now' n | t | t x | t b]; simpl in E, Hs, Hord;
    try contradiction; injection E as <- _; simpl;
    pose proof (tb_advance_in_order tb t Hord) as Ha.
  - unfold TB.AllowN. destruct (Float64.leb _ _) eqn:El; simpl.
    + apply leb_true_le in El. lra.
    + lra.
  - lra.
  - lra.
  - destruct (Float64.ltb _ _); [apply of_int_nonneg; exact Hs | lra].
Qed.

(** C4, amended. From a limiter created with a moderate rate and a burst
    [0 <= B <= MaxBurst] (below 2^53 on the token bucket, below 2^62 on the
    other engines), at every point of a sequence of covered operations -
    [AllowN] and [TokensAt] on every engine, [SetLimitAt] to a moderate
    rate, [ReserveN] and [WaitN] except on the leaky bucket, [SetBurstAt]
    on the two buckets to a burst within [MaxBurst], counts in [0, 2^62) -
    the accounting quantity is at most the current burst.  On the token
    bucket, the token count stays non-negative across [AllowN], [TokensAt],
    [SetLimitAt] and [SetBurstAt] to a non-negative burst, when it was
    non-negative and within the burst, the instant is not before the last
    one processed and the rate is not negative. *)
Theorem accounting_within_burst :
  (forall (algo : Algorithm) (t0 : Time) (r : Limit) (B : Z) (ops : list Op)
          (n : nat) (l : Limiter) (k : Z),
      0 <= B <= MaxBurst algo -> moderate r ->
      Forall (covered (engine algo)) ops ->
      (l0 <- NewLimiter algo t0 r B ;; run l0 (firstn n ops)) = Done (l, k) ->
      within_burst l) /\
  (forall (tb : TB.TokenBucketLimiter) (o : Op) (l' : Limiter) (res : Result),
      (0 <= TB.tokens tb)%Q -> in_order (OfTokenBucket tb) (op_time o) ->
      spends_at_most_tokens o ->
      exec (OfTokenBucket tb) o = Done (l', res) -> (0 <= accounted l')%Q).
Proof.
  split.
  - intros algo t0 r B ops n l k HB _ Hc E.
    destruct (NewLimiter algo t0 r B) as [l0 |] eqn:En; cbn [bind] in E;
      [|discriminate].
    apply (run_bounded (engine algo) (firstn n ops) l0 l k);
      [| apply Forall_prefix; exact Hc | exact E].
    eapply fresh_bounded; eauto.
  - exact tb_exec_nonneg.
Qed.

Lemma accounting_within_burst_witness :
  within_burst
    (OfSlidingWindow (SW.mk 1%Q 1 1000000000 [0])) /\
  Qle 0 (accounted (OfTokenBucket (fst (TB.AllowN (TB.NewTokenBucket 0 1%Q 2) 1000000000 1)))).
Proof.
  split.
  - apply (proj1 accounting_within_burst SlidingWindow 0 1%Q 1
             [OpAllowN 0 1; OpReserveN 0 1; OpTokensAt 5] 3%nat _ 1).
    + vm_compute. split; discriminate.
    + right. vm_compute. split; discriminate.
    + repeat constructor; unfold MaxUnits; try lia; discriminate.
    + vm_compute. reflexivity.
  - apply (proj2 accounting_within_burst (TB.NewTokenBucket 0 1%Q 2)
             (OpAllowN 1000000000 1) _ (RAllow true)).
    + vm_compute. discriminate.
    + vm_compute. repeat split; discriminate.
    + exact I.
    + reflexivity.
Defined.

Lemma accounting_in_range_counterexample :
  exists (l : Limiter) (k : Z),
    (l0 <- NewLimiter TokenBucket 0 1%Q 1 ;;
     run l0 [OpReserveN 0 1; OpReserveN 0 1]) = Done (l, k) /\
    ~ accounting_in_range l.
Proof.
  eexists. eexists. split; [vm_compute; reflexivity|].
  intros [_ H]. vm_compute in H. apply H. reflexivity.
Qed.

(** What the covered operations leave out: a reservation on the leaky bucket
    queues beyond the capacity, and lowering the burst of a window engine
    keeps the entries already counted. *)
Example leaky_reserve_exceeds_capacity :
  exists (l : Limiter) (k : Z),
    (l0 <- NewLimiter LeakyBucket 0 1%Q 1 ;;
     run l0 [OpReserveN 0 1; OpReserveN 0 1]) = Done (l, k) /\
    ~ within_burst l.
Proof.
  eexists. eexists. split; [vm_compute; reflexivity|].
  vm_compute. intros H. apply H. reflexivity.
Qed.

Example window_setBurst_keeps_count :
  (exists (l : Limiter) (k : Z),
      (l0 <- NewLimiter SlidingWindow 0 1%Q 2 ;;
       run l0 [OpAllowN 0 2; OpSetBurstAt 0 1]) = Done (l, k) /\
      ~ within_burst l) /\
  (exists (l : Limiter) (k : Z),
      (l0 <- NewLimiter FixedWindow 0 1%Q 2 ;;
       run l0 [OpAllowN 0 2; OpSetBurstAt 0 1]) = Done (l, k) /\
      ~ within_burst l).
Proof.
  split; eexists; eexists; (split; [vm_compute; reflexivity|]);
    vm_compute; intros H; apply H; reflexivity.
Qed.

(** ** No replenishment at a rate that is not positive *)

Lemma nonpos_not_unlimited (r : Limit) :
  (r <= 0)%Q -> Float64.eqb r Float64.MaxFloat64 = false.
Proof.
  intros H. unfold Float64.eqb. destruct (Qeq_bool r Float64.MaxFloat64) eqn:E; [|reflexivity].
  apply Qeq_bool_iff in E. rewrite E in H. exfalso. revert H.
  unfold Float64.MaxFloat64, Qle. simpl. lia.
Qed.

Lemma nonpos_not_positive (r : Limit) : (r <= 0)%Q -> Float64.ltb 0 r = false.
Proof.
  intros H. unfold Float64.ltb. apply negb_false_iff. apply Qle_bool_iff. exact H.
Qed.

Lemma chronological_weaken (ops : list Op) (last last' : Time) :
  last' <= last -> chronological last ops -> chronological last' ops.
Proof.
  destruct ops as [| o rest]; simpl; [auto|]. intros H [H1 H2]. split; [lia | exact H2].
Qed.

(** At a rate that is not positive nothing is due, whenever the time since
    the last advance is not negative or the rate is zero. *)
Lemma nothing_due (r : Limit) (t last : Time) :
  (r <= 0)%Q -> (r == 0)%Q \/ last <= t ->
  (r * Seconds (Sub t last) <= 0)%Q.
Proof.
  intros Hr [H0 | Ht].
  - rewrite H0. lra.
  - pose proof (Seconds_nonneg _ (Sub_nonneg _ _ Ht)) as Hs.
    setoid_replace (r * Seconds (Sub t last))%Q
      with (- ((- r) * Seconds (Sub t last)))%Q by ring.
    assert (0 <= (- r) * Seconds (Sub t last))%Q
      by (apply Qmult_le_0_compat; lra).
    lra.
Qed.

Lemma tb_advance_quiet (tb : TB.TokenBucketLimiter) (t : Time) :
  (TB.limit tb <= 0)%Q -> (TB.limit tb == 0)%Q \/ TB.lastUpdated tb <= t ->
  (TB.tokens (TB.advance tb t) <= TB.tokens tb)%Q.
Proof.
  intros Hr Hc. unfold TB.advance. rewrite (nonpos_not_unlimited _ Hr). simpl.
  pose proof (nothing_due _ _ _ Hr Hc) as Hd.
  destruct (fmin_cases (TB.tokens tb + TB.limit tb * Seconds (Sub t (TB.lastUpdated tb)))
              (Float64.of_int (TB.burst tb))) as [[E H] | [E H]]; rewrite E; lra.
Qed.

Lemma tb_step_quiet (t0 : Time) (tb : TB.TokenBucketLimiter) (o : Op)
    (rest : list Op) (l1 : Limiter) (res : Result) :
  quiet t0 (OfTokenBucket tb) (o :: rest) -> plain o ->
  exec (OfTokenBucket tb) o = Done (l1, res) ->
  pays t0 (OfTokenBucket tb) l1 o rest res.
Proof.
  intros [Hr Hc] Hp E.
  assert (Hc' : (TB.limit tb == 0)%Q \/ TB.lastUpdated tb <= op_time o).
  { destruct Hc as [H | H]; [left; exact H | right; apply H]. }
  assert (Hq : forall tb1, TB.limit tb1 = TB.limit tb ->
                 TB.lastUpdated tb1 = op_time o ->
                 quiet t0 (OfTokenBucket tb1) rest).
  { intros tb1 E1 E2. simpl. rewrite E1, E2. split; [exact Hr|].
    destruct Hc as [H | H]; [left; exact H | right; apply H]. }
  pose proof (tb_advance_quiet tb (op_time o) Hr Hc') as Ha.
  unfold pays.
  destruct o as [t n | t n | now now' n | t | t x | t b]; simpl in E, Hp;
    try contradiction; injection E as <- <-; simpl in Ha, Hq |- *;
    try pose proof (of_int_nonneg n (proj1 Hp)) as Hn;
    rewrite ?tb_wait_state; unfold TB.AllowN, TB.ReserveN;
    try destruct (Float64.leb _ _) eqn:El; try destruct (_ <? _);
    try apply leb_true_le in El;
    cbn [fst snd];
    (split; [apply Hq; simpl; [apply tb_advance_limit | apply tb_advance_lastUpdated]|]);
    unfold Float64.of_int in *; simpl; change (inject_Z 0) with 0%Q in *;
    (split; [lra | first [left; reflexivity | right; lra]]).
Qed.

(** At a rate that is not positive a leak that returns has drained
    nothing. *)
Lemma lb_leak_quiet (lb lb1 : LB.LeakyBucketLimiter) (t : Time) :
  (LB.limit lb <= 0)%Q -> (LB.limit lb == 0)%Q \/ LB.lastLeakTime lb <= t ->
  LB.leak lb t = Done lb1 ->
  LB.limit lb1 = LB.limit lb /\ LB.capacity lb1 = LB.capacity lb /\
  LB.queue lb1 = LB.queue lb /\
  (LB.lastLeakTime lb1 = t \/ LB.lastLeakTime lb1 = LB.lastLeakTime lb).
Proof.
  intros Hr Hc. unfold LB.leak. rewrite (nonpos_not_unlimited _ Hr). simpl.
  destruct (GoInt.len (LB.queue lb) =? 0).
  - intros E. injection E as <-. auto.
  - pose proof (nothing_due _ _ _ Hr Hc) as Hd.
    pose proof (len_nonneg (LB.queue lb)) as Hl.
    set (x := (LB.limit lb * Seconds (Sub t (LB.lastLeakTime lb)))%Q) in *.
    assert (Hk : Float64.to_int64 x <= 0).
    { destruct (to_int64_cases x) as [E | E]; rewrite E.
      - apply trunc_nonpos. exact Hd.
      - unfold GoInt.MinInt64. lia. }
    destruct (GoInt.len (LB.queue lb) <? Float64.to_int64 x) eqn:Hlt;
      [apply Z.ltb_lt in Hlt; lia|].
    unfold GoInt.slice_from.
    destruct (Float64.to_int64 x <? 0) eqn:Hneg; simpl; [discriminate|].
    apply Z.ltb_ge in Hneg. assert (E0 : Float64.to_int64 x = 0) by lia.
    rewrite E0.
    destruct (GoInt.len (LB.queue lb) <? 0) eqn:Hl0; [apply Z.ltb_lt in Hl0; lia|].
    simpl. intros E. injection E as <-. simpl. auto.
Qed.

Lemma add_small (a b : Z) : 0 <= a -> 0 <= b -> a + b < MaxUnits -> GoInt.add a b = a + b.
Proof.
  unfold MaxUnits, GoInt.add. intros Ha Hb Hs. apply wrap64_id.
  unfold GoInt.MinInt64, GoInt.MaxInt64. lia.
Qed.

Lemma lb_quiet_next (t0 : Time) (lb lb1 : LB.LeakyBucketLimiter) (o : Op)
    (rest : list Op) :
  quiet t0 (OfLeakyBucket lb) (o :: rest) ->
  LB.limit lb1 = LB.limit lb ->
  (LB.lastLeakTime lb1 = op_time o \/ LB.lastLeakTime lb1 = LB.lastLeakTime lb) ->
  GoInt.len (LB.queue lb1) + requested rest < MaxUnits ->
  quiet t0 (OfLeakyBucket lb1) rest.
Proof.
  intros (Hr & Hc & _) El Ht Hq. simpl. rewrite El. split; [exact Hr|].
  split; [|exact Hq].
  destruct Hc as [H | [H1 H2]]; [left; exact H | right].
  destruct Ht as [-> | ->]; [exact H2|].
  eapply chronological_weaken; eauto.
Qed.

Lemma op_units_nonneg (o : Op) : plain o -> 0 <= op_units o.
Proof. destruct o; simpl; intros H; try contradiction; lia. Qed.

Lemma requested_nonneg (ops : list Op) : Forall plain ops -> 0 <= requested ops.
Proof.
  induction 1 as [| o rest Ho _ IH]; simpl; [lia|].
  pose proof (op_units_nonneg o Ho). lia.
Qed.

(** The state after the leak, unchanged or with [n] more entries queued, is
    quiet for the operations that follow; it has [n] less available. *)
Lemma lb_pays (t0 : Time) (lb lb1 : LB.LeakyBucketLimiter) (o : Op)
    (rest : list Op) (res : Result) (t : Time) (n : Z) :
  quiet t0 (OfLeakyBucket lb) (o :: rest) -> Forall plain rest ->
  LB.limit lb1 = LB.limit lb -> LB.capacity lb1 = LB.capacity lb ->
  LB.queue lb1 = LB.queue lb ->
  (LB.lastLeakTime lb1 = op_time o \/ LB.lastLeakTime lb1 = LB.lastLeakTime lb) ->
  0 <= n <= op_units o ->
  (admitted o res = 0 \/
   admitted o res = n /\ GoInt.len (LB.queue lb) + n <= LB.capacity lb) ->
  pays t0 (OfLeakyBucket lb)
    (OfLeakyBucket (LB.mk (LB.limit lb1) (LB.capacity lb1)
                      (GoInt.append_n (LB.queue lb1) t n) (LB.lastLeakTime lb1)))
    o rest res.
Proof.
  intros Hq Hrest E1 E2 E3 E4 Hn Ha. pose proof Hq as (Hr & Hc & Hreq).
  pose proof (requested_nonneg rest Hrest) as Hnn. simpl in Hreq.
  unfold pays. split.
  - apply (lb_quiet_next t0 lb _ o rest Hq); simpl; try assumption.
    rewrite len_append_n by lia. rewrite E3. lia.
  - simpl. rewrite len_append_n by lia. rewrite E2, E3.
    change 0%Q with (inject_Z 0). rewrite <- inject_Z_plus, <- !Zle_Qle.
    destruct Ha as [-> | [-> Hle]].
    + split; [lia | left; reflexivity].
    + split; [lia | right; lia].
Qed.

Lemma append_zero {A : Type} (s : list A) (x : A) : GoInt.append_n s x 0 = s.
Proof. unfold GoInt.append_n. simpl. apply app_nil_r. Qed.

Lemma lb_eta (lb : LB.LeakyBucketLimiter) (t : Time) :
  lb = LB.mk (LB.limit lb) (LB.capacity lb) (GoInt.append_n (LB.queue lb) t 0)
         (LB.lastLeakTime lb).
Proof. rewrite append_zero. destruct lb; reflexivity. Qed.

Lemma lb_step_quiet (t0 : Time) (lb : LB.LeakyBucketLimiter) (o : Op)
    (rest : list Op) (l1 : Limiter) (res : Result) :
  quiet t0 (OfLeakyBucket lb) (o :: rest) -> plain o -> Forall plain rest ->
  exec (OfLeakyBucket lb) o = Done (l1, res) ->
  pays t0 (OfLeakyBucket lb) l1 o rest res.
Proof.
  intros Hq Hp Hrest E. pose proof Hq as (Hr & Hc & Hreq).
  pose proof (requested_nonneg rest Hrest) as Hnn.
  assert (Hc' : (LB.limit lb == 0)%Q \/ LB.lastLeakTime lb <= op_time o).
  { destruct Hc as [H | H]; [left; exact H | right; apply H]. }
  simpl in Hreq. pose proof (len_nonneg (LB.queue lb)) as Hl.
  destruct o as [t n | t n | now now' n | t | t x | t b]; simpl in E, Hp, Hreq, Hc';
    try contradiction.
  - unfold LB.AllowN in E.
    destruct (LB.leak lb t) as [lb1 |] eqn:Ek; simpl in E; [|discriminate].
    destruct (lb_leak_quiet _ _ _ Hr Hc' Ek) as (E1 & E2 & E3 & E4).
    rewrite E3, E2 in E. rewrite add_small in E by lia.
    destruct (_ <=? _) eqn:Hle; simpl in E; injection E as <- <-.
    + apply Z.leb_le in Hle. rewrite <- E3, <- E2.
      apply (lb_pays t0 lb lb1 _ rest _ t n); simpl; auto; lia.
    + rewrite (lb_eta lb1 t).
      apply (lb_pays t0 lb lb1 _ rest _ t 0); simpl; auto; lia.
  - unfold LB.ReserveN in E.
    destruct (LB.leak lb t) as [lb1 |] eqn:Ek; simpl in E; [|discriminate].
    destruct (lb_leak_quiet _ _ _ Hr Hc' Ek) as (E1 & E2 & E3 & E4).
    destruct (LB.capacity lb1 <? n); simpl in E; injection E as <- <-.
    + rewrite (lb_eta lb1 t).
      apply (lb_pays t0 lb lb1 _ rest _ t 0); simpl; auto; lia.
    + apply (lb_pays t0 lb lb1 _ rest _ t n); simpl; auto; lia.
  - unfold LB.WaitN, LB.ReserveN in E.
    destruct (LB.leak lb now) as [lb1 |] eqn:Ek; simpl in E; [|discriminate].
    destruct (lb_leak_quiet _ _ _ Hr Hc' Ek) as (E1 & E2 & E3 & E4).
    destruct (LB.capacity lb1 <? n); simpl in E.
    + injection E as <- <-. rewrite (lb_eta lb1 now).
      apply (lb_pays t0 lb lb1 _ rest _ now 0); simpl; auto; lia.
    + destruct (_ =? 0) in E; simpl in E; injection E as <- <-;
        apply (lb_pays t0 lb lb1 _ rest _ now n); simpl; auto; lia.
  - unfold LB.TokensAt in E.
    destruct (LB.leak lb t) as [lb1 |] eqn:Ek; simpl in E; [|discriminate].
    destruct (lb_leak_quiet _ _ _ Hr Hc' Ek) as (E1 & E2 & E3 & E4).
    injection E as <- <-. rewrite (lb_eta lb1 t).
    apply (lb_pays t0 lb lb1 _ rest _ t 0); simpl; auto; lia.
Qed.

(** Within one second from [t0] no entry stamped at or after [t0] leaves the
    sliding window. *)
Lemma sw_cleanup_quiet (t0 : Time) (sw : SW.SlidingWindowLimiter) (t : Time) :
  SW.window sw = Second -> Forall (fun x => t0 <= x) (SW.timestamps sw) ->
  t0 <= t < t0 + Second ->
  SW.cleanup sw t = sw.
Proof.
  intros Hw Hts Ht. unfold SW.cleanup. rewrite Hw.
  assert (Hv : SW.validIdx (Add t (GoInt.neg Second)) (SW.timestamps sw) = O).
  { destruct (SW.timestamps sw) as [| x ts]; [reflexivity|]. simpl.
    inversion Hts as [| ? ? Hx _]; subst.
    change (GoInt.neg Second) with (- Second). unfold Before, Add.
    destruct (x <? t + - Second) eqn:E; [apply Z.ltb_lt in E; lia | reflexivity]. }
  rewrite Hv. simpl. destruct sw; simpl in *; subst; reflexivity.
Qed.

Lemma in_first_window (t0 : Time) (o : Op) (rest : list Op) :
  first_window t0 (o :: rest) ->
  t0 <= op_time o < t0 + Second /\ first_window t0 rest.
Proof. intros H. inversion H; subst. split; assumption. Qed.

Lemma sw_pays (t0 : Time) (sw : SW.SlidingWindowLimiter) (o : Op)
    (rest : list Op) (res : Result) (n : Z) :
  quiet t0 (OfSlidingWindow sw) (o :: rest) ->
  0 <= n -> GoInt.len (SW.timestamps sw) + n <= SW.maxCount sw ->
  (admitted o res = 0 \/ admitted o res = n) ->
  pays t0 (OfSlidingWindow sw)
    (OfSlidingWindow (SW.mk (SW.limit sw) (SW.maxCount sw) (SW.window sw)
                        (GoInt.append_n (SW.timestamps sw) (op_time o) n)))
    o rest res.
Proof.
  intros (Hw & Hl & Hts & Hwin) Hn Hle Ha.
  destruct (in_first_window _ _ _ Hwin) as [Ht Hrest].
  unfold pays. split.
  - simpl. rewrite len_append_n by lia. repeat split; try assumption; try lia.
    unfold GoInt.append_n. apply Forall_app. split; [exact Hts|].
    apply Forall_forall. intros x Hx. apply repeat_spec in Hx. subst. lia.
  - simpl. rewrite len_append_n by lia.
    change 0%Q with (inject_Z 0). rewrite <- inject_Z_plus, <- !Zle_Qle.
    destruct Ha as [-> | ->].
    + split; [lia | left; reflexivity].
    + split; [lia | right; lia].
Qed.

Lemma sw_eta (sw : SW.SlidingWindowLimiter) (t : Time) :
  sw = SW.mk (SW.limit sw) (SW.maxCount sw) (SW.window sw)
         (GoInt.append_n (SW.timestamps sw) t 0).
Proof. rewrite append_zero. destruct sw; reflexivity. Qed.

Lemma sw_step_quiet (t0 : Time) (sw : SW.SlidingWindowLimiter) (o : Op)
    (rest : list Op) (l1 : Limiter) (res : Result) :
  quiet t0 (OfSlidingWindow sw) (o :: rest) -> plain o ->
  exec (OfSlidingWindow sw) o = Done (l1, res) ->
  pays t0 (OfSlidingWindow sw) l1 o rest res.
Proof.
  intros Hq Hp E. pose proof Hq as (Hw & Hl & Hts & Hwin).
  destruct (in_first_window _ _ _ Hwin) as [Ht _].
  pose proof (sw_cleanup_quiet t0 sw (op_time o) Hw Hts Ht) as Hc.
  pose proof (len_nonneg (SW.timestamps sw)) as Hlen.
  destruct o as [t n | t n | now now' n | t | t x | t b]; simpl in E, Hp, Hc;
    try contradiction.
  - unfold SW.AllowN in E. rewrite Hc in E. rewrite add_in_range in E by lia.
    destruct (_ <=? _) eqn:Hle; simpl in E; injection E as <- <-.
    + apply Z.leb_le in Hle.
      apply (sw_pays t0 sw (OpAllowN t n) rest _ n); simpl; auto; lia.
    + rewrite (sw_eta sw t) at 2.
      apply (sw_pays t0 sw (OpAllowN t n) rest _ 0); simpl; auto; lia.
  - unfold SW.ReserveN, SW.AllowN in E. rewrite Hc in E.
    rewrite add_in_range in E by lia.
    destruct (_ <=? _) eqn:Hle; simpl in E; injection E as <- <-.
    + apply Z.leb_le in Hle.
      apply (sw_pays t0 sw (OpReserveN t n) rest _ n); simpl; auto; lia.
    + rewrite (sw_eta sw t) at 2.
      apply (sw_pays t0 sw (OpReserveN t n) rest _ 0); simpl; auto; lia.
  - unfold SW.WaitN in E. rewrite Hc in E. rewrite add_in_range in E by lia.
    destruct (SW.maxCount sw <? n).
    + simpl in E. injection E as <- <-. rewrite (sw_eta sw now) at 2.
      apply (sw_pays t0 sw (OpWaitN now now' n) rest _ 0); simpl; auto; lia.
    + destruct (SW.maxCount sw <? _) eqn:Hlt.
      * destruct (GoInt.index _ _); simpl in E; [|discriminate].
        injection E as <- <-. rewrite (sw_eta sw now) at 2.
        apply (sw_pays t0 sw (OpWaitN now now' n) rest _ 0); simpl; auto; lia.
      * apply Z.ltb_ge in Hlt. simpl in E. injection E as <- <-.
        apply (sw_pays t0 sw (OpWaitN now now' n) rest _ n); simpl; auto; lia.
  - unfold SW.TokensAt in E. rewrite Hc in E. injection E as <- <-.
    rewrite (sw_eta sw t) at 2.
    apply (sw_pays t0 sw (OpTokensAt t) rest _ 0); simpl; auto; lia.
Qed.

(** Within one second from its start the fixed window does not roll
    over. *)
Lemma fw_reset_quiet (fw : FW.FixedWindowLimiter) (t : Time) :
  FW.window fw = Second -> t < FW.windowStart fw + Second ->
  FW.resetIfNeeded fw t = fw.
Proof.
  intros Hw Ht. unfold FW.resetIfNeeded. rewrite Hw.
  destruct (Second <=? Sub t (FW.windowStart fw)) eqn:E; [|reflexivity].
  apply Z.leb_le in E. revert E.
  unfold Sub, Second, GoInt.MinInt64, GoInt.MaxInt64 in *. lia.
Qed.

Lemma fw_pays (t0 : Time) (fw : FW.FixedWindowLimiter) (o : Op)
    (rest : list Op) (res : Result) (n : Z) :
  quiet t0 (OfFixedWindow fw) (o :: rest) ->
  0 <= n -> FW.currentCount fw + n <= FW.maxCount fw ->
  (admitted o res = 0 \/ admitted o res = n) ->
  pays t0 (OfFixedWindow fw)
    (OfFixedWindow (FW.mk (FW.limit fw) (FW.maxCount fw) (FW.window fw)
                      (FW.currentCount fw + n) (FW.windowStart fw)))
    o rest res.
Proof.
  intros (Hw & Hs & Hc & Hm & Hwin) Hn Hle Ha.
  destruct (in_first_window _ _ _ Hwin) as [Ht Hrest].
  unfold pays. split.
  - simpl. repeat split; try assumption; lia.
  - simpl. change 0%Q with (inject_Z 0). rewrite <- inject_Z_plus, <- !Zle_Qle.
    destruct Ha as [-> | ->].
    + split; [lia | left; reflexivity].
    + split; [lia | right; lia].
Qed.

Lemma fw_eta (fw : FW.FixedWindowLimiter) :
  fw = FW.mk (FW.limit fw) (FW.maxCount fw) (FW.window fw)
         (FW.currentCount fw + 0) (FW.windowStart fw).
Proof. rewrite Z.add_0_r. destruct fw; reflexivity. Qed.

Lemma fw_step_quiet (t0 : Time) (fw : FW.FixedWindowLimiter) (o : Op)
    (rest : list Op) (l1 : Limiter) (res : Result) :
  quiet t0 (OfFixedWindow fw) (o :: rest) -> plain o ->
  exec (OfFixedWindow fw) o = Done (l1, res) ->
  pays t0 (OfFixedWindow fw) l1 o rest res.
Proof.
  intros Hq Hp E. pose proof Hq as (Hw & Hs & Hcnt & Hm & Hwin).
  destruct (in_first_window _ _ _ Hwin) as [Ht _].
  assert (Hc : FW.resetIfNeeded fw (op_time o) = fw)
    by (apply fw_reset_quiet; [exact Hw | lia]).
  destruct o as [t n | t n | now now' n | t | t x | t b]; simpl in E, Hp, Hc;
    try contradiction.
  - unfold FW.AllowN in E. rewrite Hc in E. rewrite add_in_range in E by lia.
    destruct (_ <=? _) eqn:Hle; simpl in E; injection E as <- <-.
    + apply Z.leb_le in Hle.
      apply (fw_pays t0 fw (OpAllowN t n) rest _ n); simpl; auto; lia.
    + rewrite (fw_eta fw) at 2.
      apply (fw_pays t0 fw (OpAllowN t n) rest _ 0); simpl; auto; lia.
  - unfold FW.ReserveN, FW.AllowN in E. rewrite Hc in E.
    rewrite add_in_range in E by lia.
    destruct (_ <=? _) eqn:Hle; simpl in E; injection E as <- <-.
    + apply Z.leb_le in Hle.
      apply (fw_pays t0 fw (OpReserveN t n) rest _ n); simpl; auto; lia.
    + rewrite (fw_eta fw) at 2.
      apply (fw_pays t0 fw (OpReserveN t n) rest _ 0); simpl; auto; lia.
  - unfold FW.WaitN in E. rewrite Hc in E. rewrite add_in_range in E by lia.
    destruct (FW.maxCount fw <? n).
    + simpl in E. injection E as <- <-. rewrite (fw_eta fw) at 2.
      apply (fw_pays t0 fw (OpWaitN now now' n) rest _ 0); simpl; auto; lia.
    + destruct (FW.maxCount fw <? _) eqn:Hlt; simpl in E; injection E as <- <-.
      * rewrite (fw_eta fw) at 2.
        apply (fw_pays t0 fw (OpWaitN now now' n) rest _ 0); simpl; auto; lia.
      * apply Z.ltb_ge in Hlt.
        apply (fw_pays t0 fw (OpWaitN now now' n) rest _ n); simpl; auto; lia.
  - unfold FW.TokensAt in E. rewrite Hc in E. injection E as <- <-.
    rewrite (fw_eta fw) at 2.
    apply (fw_pays t0 fw (OpTokensAt t) rest _ 0); simpl; auto; lia.
Qed.

Lemma step_quiet (t0 : Time) (l l1 : Limiter) (o : Op) (rest : list Op)
    (res : Result) :
  quiet t0 l (o :: rest) -> plain o -> Forall plain rest ->
  exec l o = Done (l1, res) -> pays t0 l l1 o rest res.
Proof.
  intros Hq Hp Hrest E. destruct l as [tb | lb | sw | fw].
  - apply tb_step_quiet; assumption.
  - apply lb_step_quiet; assumption.
  - apply sw_step_quiet; assumption.
  - apply fw_step_quiet; assumption.
Qed.

(** Over a quiet run nothing is admitted beyond what was available at its
    start. *)
Lemma run_quiet (t0 : Time) (ops : list Op) :
  forall (l l' : Limiter) (k : Z),
    quiet t0 l ops -> Forall plain ops -> run l ops = Done (l', k) ->
    k = 0 \/ (inject_Z k <= available l)%Q.
Proof.
  induction ops as [| o rest IH]; intros l l' k Hq Hp E; simpl in E.
  - injection E as _ <-. left. reflexivity.
  - inversion Hp as [| ? ? Ho Hrest]; subst. unfold step in E.
    destruct (exec l o) as [[l1 res] |] eqn:Ee; simpl in E; [|discriminate].
    destruct (run l1 rest) as [[l2 k2] |] eqn:Er; simpl in E; [|discriminate].
    injection E as _ <-.
    destruct (step_quiet t0 l l1 o rest res Hq Ho Hrest Ee) as (Hq1 & Hle & Hnn).
    specialize (IH l1 l2 k2 Hq1 Hrest Er).
    rewrite inject_Z_plus.
    destruct Hnn as [H0 | H0], IH as [H2 | H2].
    + left. lia.
    + right. rewrite H0 in *. change (inject_Z 0) with 0%Q in *. lra.
    + right. rewrite H2. change (inject_Z 0) with 0%Q. lra.
    + right. lra.
Qed.

Lemma chronological_prefix (n : nat) (ops : list Op) :
  forall last : Time,
    chronological last ops -> chronological last (firstn n ops).
Proof.
  revert n. induction ops as [| o rest IH]; intros [| n] last H; simpl; auto.
  destruct H as [H1 H2]. split; [exact H1 | apply IH; exact H2].
Qed.

Lemma requested_prefix (n : nat) (ops : list Op) :
  Forall plain ops -> requested (firstn n ops) <= requested ops.
Proof.
  intros H. revert n. induction H as [| o rest Ho Hrest IH]; intros [| n]; simpl;
    try lia.
  - pose proof (op_units_nonneg o Ho). pose proof (requested_nonneg rest Hrest). lia.
  - specialize (IH n). lia.
Qed.

Lemma in_scope_prefix (algo : Algorithm) (t0 : Time) (r : Limit) (n : nat)
    (ops : list Op) :
  Forall plain ops -> in_scope algo t0 r ops ->
  in_scope algo t0 r (firstn n ops).
Proof.
  intros Hp. destruct algo; simpl.
  - intros [H | H]; [left; exact H | right; apply chronological_prefix; exact H].
  - intros [Hc Hr]. split.
    + destruct Hc as [H | H]; [left; exact H | right; apply chronological_prefix; exact H].
    + pose proof (requested_prefix n ops Hp). lia.
  - apply Forall_prefix.
  - apply Forall_prefix.
  - intros [H | H]; [left; exact H | right; apply chronological_prefix; exact H].
Qed.

Lemma fresh_quiet (algo : Algorithm) (t0 : Time) (r : Limit) (B : Z)
    (ops : list Op) (l : Limiter) :
  0 <= B <= MaxBurst algo -> (r <= 0)%Q -> in_scope algo t0 r ops ->
  NewLimiter algo t0 r B = Done l ->
  quiet t0 l ops /\ available l = inject_Z B.
Proof.
  intros HB Hr Hs E. pose proof (MaxBurst_units algo) as Hm.
  assert (HB' : 0 <= B < MaxUnits) by lia. clear HB Hm.
  destruct algo; cbn [NewLimiter in_scope] in E, Hs.
  - injection E as <-. simpl. auto.
  - unfold LB.NewLeakyBucket in E.
    destruct (GoInt.make_ok B); cbn [bind] in E; [|discriminate].
    injection E as <-. simpl. unfold GoInt.len. simpl.
    rewrite Z.sub_0_r. repeat split; try tauto; try lia.
  - unfold SW.NewSlidingWindow in E.
    destruct (GoInt.make_ok B); cbn [bind] in E; [|discriminate].
    injection E as <-. simpl. rewrite (nonpos_not_positive r Hr).
    unfold GoInt.len. simpl. rewrite Z.sub_0_r. repeat split; auto; try lia.
  - injection E as <-. unfold FW.NewFixedWindow. rewrite (nonpos_not_positive r Hr).
    simpl. rewrite Z.sub_0_r. repeat split; auto; try lia.
  - injection E as <-. simpl. auto.
Qed.

(** C3, amended. On a limiter created with a rate [r <= 0] and a burst
    [0 <= B <= MaxBurst] (below 2^53 on the token bucket, whose float64
    token count is then exact; below 2^62 on the other engines) and never
    reconfigured, the units admitted by [AllowN] at any point of a
    sequence of [AllowN], [ReserveN], [WaitN] and [TokensAt] (counts in
    [0, 2^62)) never exceed [B], within this scope: on the two buckets,
    rate zero or timestamps that do not go back in time (on the leaky bucket
    fewer than 2^62 units requested in all); on the two window engines, whose
    window is one second at such a rate, timestamps within one second from
    the creation. *)
Theorem no_replenishment_in_scope
    (algo : Algorithm) (t0 : Time) (r : Limit) (B : Z) (ops : list Op) :
  0 <= B <= MaxBurst algo -> (r <= 0)%Q -> Forall plain ops ->
  in_scope algo t0 r ops ->
  never_replenishes algo t0 r B ops.
Proof.
  intros HB Hr Hp Hs n l k E.
  destruct (NewLimiter algo t0 r B) as [l0 |] eqn:En; cbn [bind] in E;
    [|discriminate].
  pose proof (in_scope_prefix algo t0 r n ops Hp Hs) as Hsn.
  pose proof (Forall_prefix plain n ops Hp) as Hpn.
  destruct (fresh_quiet algo t0 r B (firstn n ops) l0 HB Hr Hsn En) as [Hq Ha].
  destruct (run_quiet t0 (firstn n ops) l0 l k Hq Hpn E) as [-> | H]; [lia|].
  rewrite Ha in H. rewrite Zle_Qle. exact H.
Qed.

Lemma no_replenishment_in_scope_witness :
  never_replenishes LeakyBucket 0 0%Q 2
    [OpAllowN 5 1; OpReserveN 3 1; OpAllowN 9000000000 1; OpTokensAt 1; OpAllowN 2 1].
Proof.
  apply no_replenishment_in_scope.
  - vm_compute. split; discriminate.
  - discriminate.
  - repeat constructor; unfold MaxUnits; simpl; lia.
  - simpl. split; [left; reflexivity | unfold MaxUnits; lia].
Defined.

Lemma never_replenishes_counterexample :
  (0 <= 0)%Q /\
  ~ never_replenishes SlidingWindow 0 0%Q 1 [OpAllowN 0 1; OpAllowN 2000000000 1].
Proof.
  split; [discriminate|]. intros H.
  specialize (H 2%nat (OfSlidingWindow (SW.mk 0%Q 1 1000000000 [2000000000])) 2).
  assert (C : 2 <= 1) by (apply H; vm_compute; reflexivity). lia.
Qed.

(** ** The burst bound *)

Lemma Forall_eq_cons (t t' : Time) (rest : list Time) :
  Forall (eq t) (t' :: rest) -> t' = t /\ Forall (eq t) rest.
Proof. intros H. inversion H; subst. auto. Qed.

Lemma Seconds_Sub_diag (t : Time) : (Seconds (Sub t t) == 0)%Q.
Proof. rewrite Sub_diag. reflexivity. Qed.

(** In a settled token bucket the advance leaves the token count as it
    is. *)
Lemma tb_advance_settled (tb : TB.TokenBucketLimiter) (t : Time) (rest : list Time) :
  settled (OfTokenBucket tb) (t :: rest) ->
  (TB.tokens (TB.advance tb t) == TB.tokens tb)%Q.
Proof.
  intros (Hinf & Hle & Hc). unfold TB.advance. rewrite Hinf. simpl.
  set (d := (TB.limit tb * Seconds (Sub t (TB.lastUpdated tb)))%Q).
  assert (Hd : (d == 0)%Q \/ (0 <= d)%Q /\ (TB.tokens tb == Float64.of_int (TB.burst tb))%Q).
  { destruct Hc as [H0 | (Hr & t1 & Hall & Hlast)].
    - left. unfold d. rewrite H0. ring.
    - apply Forall_eq_cons in Hall. destruct Hall as [-> _].
      destruct Hlast as [E1 | [Hl Ht]].
      + left. unfold d. rewrite E1, Seconds_Sub_diag. ring.
      + right. split; [|exact Ht]. unfold d.
        apply Qmult_le_0_compat; [exact Hr|].
        apply Seconds_nonneg, Sub_nonneg, Hl. }
  destruct (fmin_cases (TB.tokens tb + d) (Float64.of_int (TB.burst tb)))
    as [[E H] | [E H]]; rewrite E; destruct Hd as [Hd | [Hd Ht]]; lra.
Qed.

Lemma tb_allow_settled (tb : TB.TokenBucketLimiter) (t : Time) (rest : list Time) :
  settled (OfTokenBucket tb) (t :: rest) ->
  exists (l' : Limiter) (b : bool),
    L.Allow (OfTokenBucket tb) t = Done (l', b) /\ settled l' rest /\
    (b = true /\ (1 <= available (OfTokenBucket tb))%Q /\
       (available l' == available (OfTokenBucket tb) - 1)%Q \/
     b = false /\ (available (OfTokenBucket tb) < 1)%Q /\
       (available l' == available (OfTokenBucket tb))%Q).
Proof.
  intros Hs. pose proof (tb_advance_settled tb t rest Hs) as Ha.
  destruct Hs as (Hinf & Hle & Hc).
  assert (Hnext : forall x : Q,
             (x <= Float64.of_int (TB.burst tb))%Q ->
             settled (OfTokenBucket (TB.mk (TB.limit tb) (TB.burst tb) x t)) rest).
  { intros x Hx. simpl. split; [exact Hinf|]. split; [exact Hx|].
    destruct Hc as [H0 | (Hr & t1 & Hall & _)]; [left; exact H0 | right].
    split; [exact Hr|]. apply Forall_eq_cons in Hall. destruct Hall as [-> Hall].
    exists t1. split; [exact Hall | left; reflexivity]. }
  unfold L.Allow, L.AllowN, TB.AllowN, lift.
  rewrite tb_advance_limit, tb_advance_burst, tb_advance_lastUpdated.
  destruct (Float64.leb _ _) eqn:El; cbn [fst snd].
  - apply leb_true_le in El. change (Float64.of_int 1) with 1%Q in *.
    eexists. exists true. split; [reflexivity|]. split.
    + apply Hnext. lra.
    + left. simpl. split; [reflexivity|]. split; [lra|]. rewrite Ha. reflexivity.
  - apply leb_false_lt in El. change (Float64.of_int 1) with 1%Q in *.
    exists (OfTokenBucket (TB.advance tb t)), false. split; [reflexivity|]. split.
    + replace (TB.advance tb t)
        with (TB.mk (TB.limit tb) (TB.burst tb) (TB.tokens (TB.advance tb t)) t).
      * apply Hnext. apply tb_advance_within.
      * pose proof (tb_advance_limit tb t). pose proof (tb_advance_burst tb t).
        pose proof (tb_advance_lastUpdated tb t).
        destruct (TB.advance tb t); simpl in *; subst; reflexivity.
    + right. simpl. split; [reflexivity|]. split; [lra | exact Ha].
Qed.

Lemma lb_leak_settled (lb : LB.LeakyBucketLimiter) (t : Time) (rest : list Time) :
  settled (OfLeakyBucket lb) (t :: rest) ->
  exists lb1 : LB.LeakyBucketLimiter,
    LB.leak lb t = Done lb1 /\
    LB.limit lb1 = LB.limit lb /\ LB.capacity lb1 = LB.capacity lb /\
    LB.queue lb1 = LB.queue lb /\
    (LB.lastLeakTime lb1 = t \/ LB.lastLeakTime lb1 = LB.lastLeakTime lb).
Proof.
  intros (Hb & Hc). unfold LB.leak.
  destruct (_ || _); [exists lb; auto 6|].
  set (x := (LB.limit lb * Seconds (Sub t (LB.lastLeakTime lb)))%Q).
  assert (Hx : (-1 < x)%Q /\ (x < 1)%Q).
  { destruct Hc as [H0 | (t1 & Hall & H1 & H2)].
    - unfold x. rewrite H0. split; lra.
    - apply Forall_eq_cons in Hall. destruct Hall as [-> _]. auto. }
  rewrite to_int64_small by tauto.
  pose proof (len_nonneg (LB.queue lb)).
  destruct (GoInt.len (LB.queue lb) <? 0) eqn:E; [apply Z.ltb_lt in E; lia|].
  rewrite slice_from_zero. simpl. eexists. split; [reflexivity|]. simpl. auto 6.
Qed.

Lemma lb_allow_settled (lb : LB.LeakyBucketLimiter) (t : Time) (rest : list Time) :
  settled (OfLeakyBucket lb) (t :: rest) ->
  exists (l' : Limiter) (b : bool),
    L.Allow (OfLeakyBucket lb) t = Done (l', b) /\ settled l' rest /\
    (b = true /\ (1 <= available (OfLeakyBucket lb))%Q /\
       (available l' == available (OfLeakyBucket lb) - 1)%Q \/
     b = false /\ (available (OfLeakyBucket lb) < 1)%Q /\
       (available l' == available (OfLeakyBucket lb))%Q).
Proof.
  intros Hs. destruct (lb_leak_settled lb t rest Hs) as (lb1 & Ek & E1 & E2 & E3 & E4).
  destruct Hs as (Hb & Hc). pose proof (len_nonneg (LB.queue lb)) as Hl.
  assert (Hnext : forall (li : Limit) (c : Z) (q : list Time) (la : Time),
             li = LB.limit lb -> c = LB.capacity lb ->
             la = t \/ la = LB.lastLeakTime lb ->
             GoInt.len q <= c ->
             settled (OfLeakyBucket (LB.mk li c q la)) rest).
  { intros li c q la -> -> Hla Hq. simpl. split; [lia|].
    destruct Hc as [H0 | (t1 & Hall & H1 & H2)]; [left; exact H0 | right].
    apply Forall_eq_cons in Hall. destruct Hall as [-> Hall].
    exists t1. split; [exact Hall|].
    destruct Hla as [-> | ->]; [|auto].
    rewrite Seconds_Sub_diag. split; ring_simplify; lra. }
  unfold L.Allow, L.AllowN, LB.AllowN. rewrite Ek. cbn [bind].
  rewrite E3, E2. rewrite add_in_range by (unfold MaxUnits in *; lia).
  destruct (_ <=? _) eqn:Hle; cbn [bind lift fst snd].
  - apply Z.leb_le in Hle. eexists. exists true. split; [reflexivity|]. split.
    + apply Hnext; auto. rewrite len_append_n by lia. lia.
    + left. split; [reflexivity|]. simpl. rewrite len_append_n by lia.
      split.
      * change 1%Q with (inject_Z 1). rewrite <- Zle_Qle. lia.
      * change 1%Q with (inject_Z 1). unfold Qminus. rewrite <- inject_Z_opp, <- inject_Z_plus.
        rewrite inject_Z_injective. lia.
  - apply Z.leb_gt in Hle. exists (OfLeakyBucket lb1), false. split; [reflexivity|]. split.
    + replace lb1 with (LB.mk (LB.limit lb1) (LB.capacity lb1) (LB.queue lb1)
                          (LB.lastLeakTime lb1)) by (destruct lb1; reflexivity).
      apply Hnext; auto. rewrite E3, E2. lia.
    + right. split; [reflexivity|]. simpl. rewrite E2, E3. split; [|reflexivity].
      change 1%Q with (inject_Z 1). rewrite <- Zlt_Qlt. lia.
Qed.

Lemma sw_cleanup_settled (sw : SW.SlidingWindowLimiter) (t : Time) (rest : list Time) :
  settled (OfSlidingWindow sw) (t :: rest) -> SW.cleanup sw t = sw.
Proof.
  intros (_ & t1 & Hts & Hall). inversion Hall as [| ? ? Ht _]; subst.
  unfold SW.cleanup.
  assert (Hv : SW.validIdx (Add t (GoInt.neg (SW.window sw))) (SW.timestamps sw) = O).
  { destruct (SW.timestamps sw) as [| x ts]; [reflexivity|]. simpl.
    inversion Hts as [| ? ? Hx _]; subst. unfold Before, Add.
    destruct (x <? _) eqn:E; [apply Z.ltb_lt in E; lia | reflexivity]. }
  rewrite Hv. simpl. destruct sw; reflexivity.
Qed.

Lemma sw_allow_settled (sw : SW.SlidingWindowLimiter) (t : Time) (rest : list Time) :
  settled (OfSlidingWindow sw) (t :: rest) ->
  exists (l' : Limiter) (b : bool),
    L.Allow (OfSlidingWindow sw) t = Done (l', b) /\ settled l' rest /\
    (b = true /\ (1 <= available (OfSlidingWindow sw))%Q /\
       (available l' == available (OfSlidingWindow sw) - 1)%Q \/
     b = false /\ (available (OfSlidingWindow sw) < 1)%Q /\
       (available l' == available (OfSlidingWindow sw))%Q).
Proof.
  intros Hs. pose proof (sw_cleanup_settled sw t rest Hs) as Hc.
  destruct Hs as (Hb & t1 & Hts & Hall). pose proof (len_nonneg (SW.timestamps sw)) as Hl.
  inversion Hall as [| ? ? Ht Hrest]; subst.
  unfold L.Allow, L.AllowN, SW.AllowN. rewrite Hc.
  rewrite add_in_range by (unfold MaxUnits in *; lia).
  destruct (_ <=? _) eqn:Hle; cbn [lift fst snd].
  - apply Z.leb_le in Hle. eexists. exists true. split; [reflexivity|]. split.
    + simpl. rewrite len_append_n by lia. split; [lia|]. exists t1. split; [|exact Hrest].
      unfold GoInt.append_n. apply Forall_app. split; [exact Hts|].
      simpl. constructor; [lia | constructor].
    + left. split; [reflexivity|]. simpl. rewrite len_append_n by lia.
      split.
      * change 1%Q with (inject_Z 1). rewrite <- Zle_Qle. lia.
      * change 1%Q with (inject_Z 1). unfold Qminus. rewrite <- inject_Z_opp, <- inject_Z_plus.
        rewrite inject_Z_injective. lia.
  - apply Z.leb_gt in Hle. exists (OfSlidingWindow sw), false. split; [reflexivity|]. split.
    + simpl. split; [lia|]. exists t1. auto.
    + right. split; [reflexivity|]. simpl. split; [|reflexivity].
      change 1%Q with (inject_Z 1). rewrite <- Zlt_Qlt. lia.
Qed.

Lemma Sub_Truncate (t : Time) (w : Duration) : 0 < w -> Sub t (Truncate t w) < w.
Proof.
  intros Hw. unfold Truncate. destruct (w <=? 0) eqn:E; [apply Z.leb_le in E; lia|].
  pose proof (Z.mod_pos_bound t w Hw). unfold Sub, GoInt.MinInt64, GoInt.MaxInt64. lia.
Qed.

(** The bookkeeping of a settled fixed window keeps the count, and the state
    stays settled whatever is then counted within the bound. *)
Lemma fw_reset_settled (fw : FW.FixedWindowLimiter) (t : Time) (rest : list Time) :
  settled (OfFixedWindow fw) (t :: rest) ->
  FW.currentCount (FW.resetIfNeeded fw t) = FW.currentCount fw /\
  forall c : Z,
    0 <= c <= FW.maxCount fw ->
    settled (OfFixedWindow
               (FW.mk (FW.limit fw) (FW.maxCount fw) (FW.window fw) c
                  (FW.windowStart (FW.resetIfNeeded fw t)))) rest.
Proof.
  intros (Hc & Hm & Hd). unfold FW.resetIfNeeded.
  destruct Hd as [H0 | [Hno | (Hz & Hw & t1 & Hall)]].
  - split.
    + destruct (_ <=? _); simpl; lia.
    + intros c Hcb. simpl. split; [lia|]. split; [lia|]. left. exact H0.
  - inversion Hno as [| ? ? Ht Hrest]; subst.
    destruct (_ <=? _) eqn:E; [apply Z.leb_le in E; lia|].
    split; [reflexivity|]. intros c Hcb. simpl. split; [lia|]. split; [lia|].
    right. left. exact Hrest.
  - apply Forall_eq_cons in Hall. destruct Hall as [-> Hall].
    assert (Hstill : Sub t1 (FW.windowStart
                               (if FW.window fw <=? Sub t1 (FW.windowStart fw)
                                then FW.mk (FW.limit fw) (FW.maxCount fw) (FW.window fw) 0
                                       (Truncate t1 (FW.window fw))
                                else fw)) < FW.window fw).
    { destruct (_ <=? _) eqn:E; simpl.
      - apply Sub_Truncate. exact Hw.
      - apply Z.leb_gt in E. exact E. }
    split.
    + destruct (_ <=? _); simpl; lia.
    + intros c Hcb. simpl. split; [lia|]. split; [lia|]. right. left.
      eapply Forall_impl; [|exact Hall]. intros a <-. exact Hstill.
Qed.

Lemma fw_reset_window (fw : FW.FixedWindowLimiter) (t : Time) :
  FW.window (FW.resetIfNeeded fw t) = FW.window fw.
Proof. unfold FW.resetIfNeeded. destruct (_ <=? _); reflexivity. Qed.

Lemma fw_allow_settled (fw : FW.FixedWindowLimiter) (t : Time) (rest : list Time) :
  settled (OfFixedWindow fw) (t :: rest) ->
  exists (l' : Limiter) (b : bool),
    L.Allow (OfFixedWindow fw) t = Done (l', b) /\ settled l' rest /\
    (b = true /\ (1 <= available (OfFixedWindow fw))%Q /\
       (available l' == available (OfFixedWindow fw) - 1)%Q \/
     b = false /\ (available (OfFixedWindow fw) < 1)%Q /\
       (available l' == available (OfFixedWindow fw))%Q).
Proof.
  intros Hs. destruct (fw_reset_settled fw t rest Hs) as [Hcnt Hnext].
  destruct Hs as (Hc & Hm & _).
  unfold L.Allow, L.AllowN, FW.AllowN.
  rewrite fw_reset_maxCount, fw_reset_keeps_limit, fw_reset_window, Hcnt.
  rewrite add_in_range by (unfold MaxUnits in *; lia).
  destruct (_ <=? _) eqn:Hle; cbn [lift fst snd].
  - apply Z.leb_le in Hle. eexists. exists true. split; [reflexivity|]. split.
    + apply Hnext. lia.
    + left. split; [reflexivity|]. simpl.
      split.
      * change 1%Q with (inject_Z 1). rewrite <- Zle_Qle. lia.
      * change 1%Q with (inject_Z 1). unfold Qminus. rewrite <- inject_Z_opp, <- inject_Z_plus.
        rewrite inject_Z_injective. lia.
  - apply Z.leb_gt in Hle. eexists. exists false. split; [reflexivity|]. split.
    + replace (FW.resetIfNeeded fw t)
        with (FW.mk (FW.limit fw) (FW.maxCount fw) (FW.window fw) (FW.currentCount fw)
                (FW.windowStart (FW.resetIfNeeded fw t))).
      * apply Hnext. lia.
      * pose proof (fw_reset_maxCount fw t). pose proof (fw_reset_keeps_limit fw t).
        pose proof (fw_reset_window fw t).
        destruct (FW.resetIfNeeded fw t); simpl in *; subst; reflexivity.
    + right. split; [reflexivity|]. simpl. rewrite fw_reset_maxCount, Hcnt.
      split; [|reflexivity].
      change 1%Q with (inject_Z 1). rewrite <- Zlt_Qlt. lia.
Qed.

Lemma allow_settled (l : Limiter) (t : Time) (rest : list Time) :
  settled l (t :: rest) ->
  exists (l' : Limiter) (b : bool),
    L.Allow l t = Done (l', b) /\ settled l' rest /\
    (b = true /\ (1 <= available l)%Q /\ (available l' == available l - 1)%Q \/
     b = false /\ (available l < 1)%Q /\ (available l' == available l)%Q).
Proof.
  destruct l as [tb | lb | sw | fw].
  - apply tb_allow_settled.
  - apply lb_allow_settled.
  - apply sw_allow_settled.
  - apply fw_allow_settled.
Qed.

(** From a settled state with [m] units available, [m] calls are admitted
    and the next one is refused. *)
Lemma allows_settled (ts : list Time) :
  forall (l : Limiter) (m : Z),
    settled l ts -> 0 <= m -> (available l == inject_Z m)%Q ->
    length ts = S (Z.to_nat m) ->
    exists l' : Limiter,
      allows l ts = Done (l', repeat true (Z.to_nat m) ++ [false]).
Proof.
  induction ts as [| t rest IH]; intros l m Hs Hm Ha Hlen; [discriminate|].
  destruct (allow_settled l t rest Hs) as (l1 & b & E & Hs1 & Hb).
  simpl. rewrite E. cbn [bind fst snd].
  destruct Hb as [(-> & H1 & Ha1) | (-> & H1 & Ha1)].
  - rewrite Ha in H1, Ha1. change 1%Q with (inject_Z 1) in H1, Ha1.
    rewrite <- Zle_Qle in H1.
    unfold Qminus in Ha1. rewrite <- inject_Z_opp, <- inject_Z_plus in Ha1.
    simpl in Hlen.
    destruct (IH l1 (m + - 1) Hs1) as (l2 & E2); [lia | exact Ha1 | lia |].
    rewrite E2. cbn [bind fst snd]. exists l2.
    replace (Z.to_nat m) with (S (Z.to_nat (m + - 1))) by lia. reflexivity.
  - rewrite Ha in H1. change 1%Q with (inject_Z 1) in H1. rewrite <- Zlt_Qlt in H1.
    assert (m = 0) by lia. subst m. simpl in Hlen.
    destruct rest; [|discriminate]. simpl. exists l1. reflexivity.
Qed.

Lemma neg_window_nonpos (r : Limit) (B : Z) :
  0 <= B -> (0 < r)%Q -> GoInt.neg (SW.windowOf r B) <= 0.
Proof.
  intros HB Hr. unfold SW.windowOf, Float64.to_int64.
  set (q := (Float64.of_int Second * Float64.of_int B / r)%Q).
  assert (Hq : (0 <= q)%Q).
  { unfold q, Qdiv. apply Qmult_le_0_compat.
    - apply Qmult_le_0_compat; [discriminate | apply of_int_nonneg; exact HB].
    - apply Qinv_le_0_compat. lra. }
  pose proof (trunc_nonneg q Hq) as Ht.
  destruct (GoInt.in_range (Float64.trunc q)) eqn:E.
  - apply in_range_iff in E. unfold GoInt.neg. rewrite wrap64_id; [lia|].
    unfold GoInt.MinInt64, GoInt.MaxInt64 in *. lia.
  - vm_compute. discriminate.
Qed.

Lemma settled_not_unlimited (r : Limit) :
  ~ (r == Inf)%Q -> Float64.eqb r Float64.MaxFloat64 = false.
Proof.
  intros H. unfold Float64.eqb. destruct (Qeq_bool _ _) eqn:E; [|reflexivity].
  apply Qeq_bool_iff in E. contradiction.
Qed.

Lemma fresh_settled (algo : Algorithm) (t0 : Time) (r : Limit) (B : Z)
    (ts : list Time) (l : Limiter) :
  0 <= B <= MaxBurst algo -> (0 <= r)%Q -> no_replenishment algo t0 r B ts ->
  NewLimiter algo t0 r B = Done l ->
  settled l ts /\ (available l == inject_Z B)%Q.
Proof.
  intros HM Hr Hn E. pose proof (MaxBurst_units algo) as Hm.
  assert (HB : 0 <= B < MaxUnits) by lia. clear Hm HM.
  destruct algo; cbn [NewLimiter] in E;
    unfold LB.NewLeakyBucket, SW.NewSlidingWindow in E;
    try (destruct (GoInt.make_ok B); [|discriminate E]);
    cbn [bind] in E; injection E as <-.
  - split; [|reflexivity]. simpl.
    destruct Hn as [[H0 _] | (t & Hall & Ht & Hinf)].
    + split; [apply nonpos_not_unlimited; lra|]. split; [lra | left; exact H0].
    + split; [apply settled_not_unlimited; exact Hinf|]. split; [lra|]. right.
      split; [exact Hr|]. exists t. split; [exact Hall|]. right. split; [exact Ht | reflexivity].
  - split; [|simpl; unfold GoInt.len; simpl; rewrite Z.sub_0_r; reflexivity].
    simpl. unfold GoInt.len. simpl. split; [lia|].
    destruct Hn as [[H0 _] | (t & Hall & Ht & Hlt)]; [left; exact H0 | right].
    exists t. split; [exact Hall|]. split; [|lra].
    assert (0 <= r * Seconds (Sub t t0))%Q; [|lra].
    apply Qmult_le_0_compat; [exact Hr | apply Seconds_nonneg, Sub_nonneg, Ht].
  - split; [|simpl; unfold GoInt.len; simpl; rewrite Z.sub_0_r; reflexivity].
    simpl. unfold GoInt.len. simpl. split; [lia|].
    destruct Hn as [[H0 Hwin] | (t & Hall & Ht & _)].
    + exists t0. split; [constructor|].
      rewrite nonpos_not_positive by lra. simpl in Hwin.
      eapply Forall_impl; [|exact Hwin]. intros a Ha. cbv beta in Ha.
      change (GoInt.neg Second) with (- Second). lia.
    + exists t. split; [constructor|].
      eapply Forall_impl; [|exact Hall]. intros a <-.
      match goal with
      | |- context [GoInt.neg ?w] => assert (Hw : GoInt.neg w <= 0)
      end.
      { destruct (Float64.ltb 0 r) eqn:E.
        - apply neg_window_nonpos; [lia | apply ltb_true_lt; exact E].
        - vm_compute. discriminate. }
      lia.
  - split; [|simpl; rewrite Z.sub_0_r; reflexivity].
    simpl. split; [lia|]. split; [lia|].
    destruct Hn as [[H0 Hwin] | (t & Hall & Ht & [HB1 | Hw])].
    + right. left. rewrite nonpos_not_positive by lra. simpl in Hwin.
      eapply Forall_impl; [|exact Hwin]. intros a Ha. cbv beta in Ha.
      unfold Sub, Second, GoInt.MinInt64, GoInt.MaxInt64 in *. lia.
    + left. exact HB1.
    + right. right. split; [reflexivity|].
      split; [destruct Hw as [Hw _]; simpl in Hw; lia|]. exists t. exact Hall.
  - split; [|reflexivity]. simpl.
    destruct Hn as [[H0 _] | (t & Hall & Ht & Hinf)].
    + split; [apply nonpos_not_unlimited; lra|]. split; [lra | left; exact H0].
    + split; [apply settled_not_unlimited; exact Hinf|]. split; [lra|]. right.
      split; [exact Hr|]. exists t. split; [exact Hall|]. right. split; [exact Ht | reflexivity].
Qed.

(** C1, amended. On a limiter freshly created at [t0] with a rate [0 <= r]
    and a burst [0 <= B <= MaxBurst] (below 2^53 on the token bucket, whose
    float64 token count is then exact; below 2^62 on the other engines),
    the first [B] consecutive [Allow()] calls return true and the next one
    returns false, when the calls see no replenishment: at rate zero (any
    instants on the two buckets, instants within one second from the
    creation on the two window engines), or when all calls read one instant
    [t >= t0] (the token bucket's rate not the unlimited one; at most half
    a unit due on the leaky bucket since its creation; on the fixed window
    a zero burst, or a window from two nanoseconds to 2^62). *)
Theorem burst_bound_without_replenishment
    (algo : Algorithm) (t0 : Time) (r : Limit) (B : Z) (ts : list Time) :
  0 <= B <= MaxBurst algo -> (0 <= r)%Q -> length ts = S (Z.to_nat B) ->
  no_replenishment algo t0 r B ts ->
  burst_bound algo t0 r B ts.
Proof.
  intros HB Hr Hlen Hn l0 E.
  destruct (fresh_settled algo t0 r B ts l0 HB Hr Hn E) as (Hs & Ha).
  exact (allows_settled ts l0 B Hs (proj1 HB) Ha Hlen).
Qed.

Lemma burst_bound_without_replenishment_witness :
  exists l : Limiter,
    allows (OfLeakyBucket (LB.mk (1 # 2) 3 [] 0))
      [1000000000; 1000000000; 1000000000; 1000000000]
    = Done (l, [true; true; true; false]).
Proof.
  apply (burst_bound_without_replenishment LeakyBucket 0 (1 # 2) 3
           [1000000000; 1000000000; 1000000000; 1000000000]).
  - vm_compute. split; discriminate.
  - discriminate.
  - reflexivity.
  - right. exists 1000000000. split.
    + repeat constructor.
    + split; [lia|]. vm_compute. discriminate.
  - reflexivity.
Defined.

Lemma burst_bound_counterexample :
  (0 == 0)%Q /\ length [0; 2000000000] = S (Z.to_nat 1) /\
  ~ burst_bound SlidingWindow 0 0%Q 1 [0; 2000000000].
Proof.
  split; [reflexivity|]. split; [reflexivity|].
  intros H.
  destruct (H (OfSlidingWindow (SW.mk 0%Q 1 1000000000 [])) eq_refl) as [l E].
  vm_compute in E. discriminate E.
Qed.

(* ================================================================== *)
(** * Further properties of the code *)

(** ** Reservation.DelayFrom *)

(** X1. The delay of a reservation is negative exactly when the reservation
    is not ok (it is then -1); for an ok reservation it is zero from the
    time to act on, and before it the time left, capped at the largest
    Duration. *)
Theorem delay_from_sign (r : Reservation.Reservation) (t : Time) :
  (Reservation.DelayFrom r t < 0 <-> Reservation.OK r = false) /\
  (Reservation.OK r = false -> Reservation.DelayFrom r t = -1) /\
  (Reservation.OK r = true ->
   Reservation.DelayFrom r t
   = Z.min GoInt.MaxInt64 (Z.max 0 (Reservation.timeToAct r - t))).
Proof.
  unfold Reservation.DelayFrom, Reservation.OK, Sub, GoInt.MinInt64, GoInt.MaxInt64.
  destruct (Reservation.ok r); simpl.
  - destruct (_ <? 0) eqn:E; [apply Z.ltb_lt in E | apply Z.ltb_ge in E];
      repeat split; intros; try discriminate; try lia.
  - repeat split; intros; try discriminate; try reflexivity; lia.
Qed.

Lemma delay_from_sign_witness :
  Reservation.DelayFrom Reservation.notOK 5 = -1 /\
  Reservation.DelayFrom
    {| Reservation.ok := true; Reservation.lim := Some TokenBucket;
       Reservation.tokens := 1; Reservation.timeToAct := 9;
       Reservation.limit := 2%Q |} 5
  = Z.min GoInt.MaxInt64 (Z.max 0 (9 - 5)).
Proof.
  split.
  - apply (proj1 (proj2 (delay_from_sign Reservation.notOK 5))). reflexivity.
  - apply (proj2 (proj2 (delay_from_sign
                           {| Reservation.ok := true;
                              Reservation.lim := Some TokenBucket;
                              Reservation.tokens := 1;
                              Reservation.timeToAct := 9;
                              Reservation.limit := 2%Q |} 5))).
    reflexivity.
Defined.

(** ** Configuration *)

(** X4. The configuration is what the setters stored: after [SetLimitAt] the
    limit is the new one, after [SetBurstAt] the burst is the new one, no
    other operation changes either, and no operation changes the algorithm
    of a limiter. *)
Theorem configuration_round_trip (l l' : Limiter) (o : Op) (res : Result) :
  exec l o = Done (l', res) ->
  L.Algorithm l' = L.Algorithm l /\
  L.Limit l' = limit_after o (L.Limit l) /\
  L.Burst l' = burst_after o (L.Burst l).
Proof.
  intros E.
  destruct l as [tb | lb | sw | fw]; destruct o as [t n | t n | now now' n | t | t x | t b];
    cbv [exec L.AllowN L.ReserveN L.WaitN L.TokensAt L.SetLimitAt L.SetBurstAt
         TB.AllowN TB.WaitN TB.ReserveN TB.TokensAt TB.SetLimitAt TB.SetBurstAt
         LB.AllowN LB.WaitN LB.ReserveN LB.TokensAt LB.SetLimitAt LB.SetBurstAt
         SW.ReserveN SW.AllowN SW.WaitN SW.TokensAt SW.SetLimitAt SW.SetBurstAt
         FW.ReserveN FW.AllowN FW.WaitN FW.TokensAt FW.SetLimitAt FW.SetBurstAt] in E;
    cbn [bind fst snd lift] in E;
    break_exec E; try discriminate E;
    injection E as <- _;
    cbn [L.Algorithm L.Limit L.Burst limit_after burst_after
         TB.Algorithm TB.Limit TB.Burst LB.Algorithm LB.Limit LB.Burst
         SW.Algorithm SW.Limit SW.Burst FW.Algorithm FW.Limit FW.Burst
         TB.limit TB.burst LB.limit LB.capacity SW.limit SW.maxCount
         FW.limit FW.maxCount fst];
    rewrite ?tb_advance_limit, ?tb_advance_burst, ?fw_reset_maxCount,
      ?fw_reset_keeps_limit;
    try (repeat split; reflexivity);
    try (match goal with
         | Ek : LB.leak _ _ = Done _ |- _ =>
             let Hl := fresh "Hl" in
             let Hc := fresh "Hc" in
             destruct (lb_leak_fields _ _ _ Ek) as (Hl & Hc & _);
             unfold LB.Algorithm, LB.Limit, LB.Burst; simpl;
             rewrite ?Hl, ?Hc; repeat split; reflexivity
         end).
Qed.

Lemma configuration_round_trip_witness :
  let l := OfLeakyBucket (LB.mk 2%Q 3 [5; 6] 7) in
  exists l' : Limiter,
    exec l (OpSetBurstAt 8 1) = Done (l', RNone) /\
    L.Algorithm l' = LeakyBucket /\ (L.Limit l' = 2%Q) /\ L.Burst l' = 1.
Proof.
  eexists. split; [vm_compute; reflexivity|].
  apply (configuration_round_trip (OfLeakyBucket (LB.mk 2%Q 3 [5; 6] 7)) _
           (OpSetBurstAt 8 1) RNone).
  vm_compute. reflexivity.
Defined.

(** ** The token bucket at the unlimited rate *)

(** X5. A token bucket at the unlimited rate with a burst of at least one
    admits every [Allow()], whatever the instants the calls read, in or out
    of order. *)
Theorem token_bucket_unlimited_admits_all (t0 : Time) (B : Z) (ts : list Time) :
  1 <= B ->
  exists l : Limiter,
    allows (OfTokenBucket (TB.NewTokenBucket t0 Inf B)) ts
    = Done (l, repeat true (length ts)).
Proof.
  intros HB.
  assert (H : forall tb : TB.TokenBucketLimiter,
             Float64.eqb (TB.limit tb) Float64.MaxFloat64 = true ->
             TB.burst tb = B ->
             exists l : Limiter,
               allows (OfTokenBucket tb) ts = Done (l, repeat true (length ts))).
  { induction ts as [| t rest IH]; intros tb Hinf Hb.
    - exists (OfTokenBucket tb). reflexivity.
    - simpl. unfold L.Allow, L.AllowN, lift. cbn [bind fst snd].
      pose proof (tb_unlimited_allows tb t Hinf) as Ha. unfold TB.Allow in Ha.
      rewrite Ha by lia.
      destruct (IH (fst (TB.AllowN tb t 1))) as (l & El).
      + unfold TB.AllowN. destruct (Float64.leb _ _); simpl;
          rewrite tb_advance_limit; exact Hinf.
      + unfold TB.AllowN. destruct (Float64.leb _ _); simpl;
          rewrite tb_advance_burst; exact Hb.
      + rewrite El. cbn [bind fst snd]. exists l. reflexivity. }
  apply H; reflexivity.
Qed.

Lemma token_bucket_unlimited_admits_all_witness :
  exists l : Limiter,
    allows (OfTokenBucket (TB.NewTokenBucket 0 Inf 1)) [5; 5; 3; 9]
    = Done (l, repeat true 4).
Proof. apply (token_bucket_unlimited_admits_all 0 1 [5; 5; 3; 9]). lia. Defined.

(** ** The fixed window *)

(** X6. A rollover of a fixed window with a positive window starts the new
    window at a multiple of the window length, at or before the instant of
    the rollover and less than one window before it, and resets the
    count. *)
Theorem fixed_window_rollover (fw : FW.FixedWindowLimiter) (now : Time) :
  0 < FW.window fw ->
  FW.window fw <= Sub now (FW.windowStart fw) ->
  let fw' := FW.resetIfNeeded fw now in
  FW.windowStart fw' mod FW.window fw = 0 /\
  FW.windowStart fw' <= now < FW.windowStart fw' + FW.window fw /\
  FW.currentCount fw' = 0.
Proof.
  intros Hw Hroll. pose proof (fw_rollover_aligned fw now Hw Hroll) as Ha.
  cbv zeta. split; [exact Ha|]. revert Ha. unfold FW.resetIfNeeded.
  apply Z.leb_le in Hroll. rewrite Hroll. simpl. unfold Truncate.
  destruct (FW.window fw <=? 0) eqn:E; [apply Z.leb_le in E; lia|].
  intros _. pose proof (Z.mod_pos_bound now (FW.window fw) Hw). lia.
Qed.

Lemma fixed_window_rollover_witness :
  let fw := FW.mk 1%Q 3 1000 3 1500 in
  let fw' := FW.resetIfNeeded fw 4700 in
  FW.windowStart fw' mod FW.window fw = 0 /\
  FW.windowStart fw' <= 4700 < FW.windowStart fw' + FW.window fw /\
  FW.currentCount fw' = 0.
Proof.
  apply (fixed_window_rollover (FW.mk 1%Q 3 1000 3 1500) 4700).
  - reflexivity.
  - vm_compute. discriminate.
Defined.

Lemma Sub_exact (t u : Time) :
  GoInt.MinInt64 <= t - u <= GoInt.MaxInt64 -> Sub t u = t - u.
Proof. unfold Sub. lia. Qed.

(** X7. The boundary artefact of the fixed window: a fresh limiter with a
    positive window [w] admits its full burst one nanosecond before the
    end of its first window and the full burst again at the end, twice
    the burst within one nanosecond. *)
Theorem fixed_window_boundary_double_admit (t0 : Time) (r : Limit) (B : Z) :
  0 <= B < MaxUnits ->
  let fw := FW.NewFixedWindow t0 r B in
  0 < FW.window fw <= GoInt.MaxInt64 ->
  exists l : Limiter,
    run (OfFixedWindow fw)
      [OpAllowN (t0 + FW.window fw - 1) B; OpAllowN (t0 + FW.window fw) B]
    = Done (l, 2 * B).
Proof.
  intros HB fw Hw. set (w := FW.window fw) in *.
  assert (E1 : FW.AllowN fw (t0 + w - 1) B
               = (FW.mk r B w B t0, true)).
  { unfold FW.AllowN, FW.resetIfNeeded. fold w.
    replace (FW.windowStart fw) with t0 by reflexivity.
    rewrite Sub_exact by (unfold GoInt.MinInt64, GoInt.MaxInt64 in *; lia).
    destruct (w <=? t0 + w - 1 - t0) eqn:E; [apply Z.leb_le in E; lia|].
    replace (FW.currentCount fw) with 0 by reflexivity.
    replace (FW.maxCount fw) with B by reflexivity.
    rewrite add_in_range by (unfold MaxUnits in *; lia).
    destruct (0 + B <=? B) eqn:E2; [|apply Z.leb_gt in E2; lia].
    reflexivity. }
  assert (E2 : FW.AllowN (FW.mk r B w B t0) (t0 + w) B
               = (FW.mk r B w B (Truncate (t0 + w) w), true)).
  { unfold FW.AllowN, FW.resetIfNeeded. cbn [FW.window FW.windowStart].
    rewrite Sub_exact by (unfold GoInt.MinInt64, GoInt.MaxInt64 in *; lia).
    destruct (w <=? t0 + w - t0) eqn:E; [|apply Z.leb_gt in E; lia].
    cbn [FW.currentCount FW.maxCount FW.limit FW.window FW.windowStart].
    rewrite add_in_range by (unfold MaxUnits in *; lia).
    destruct (0 + B <=? B) eqn:E3; [|apply Z.leb_gt in E3; lia].
    reflexivity. }
  replace (2 * B) with (B + (B + 0)) by lia.
  eexists. cbn [run]. unfold step, exec, L.AllowN, lift. rewrite E1. cbn [bind fst snd].
  rewrite E2. cbn [bind fst snd admitted]. reflexivity.
Qed.

Lemma fixed_window_boundary_double_admit_witness :
  exists l : Limiter,
    run (OfFixedWindow (FW.NewFixedWindow 1500 2%Q 4))
      [OpAllowN (1500 + 2000000000 - 1) 4; OpAllowN (1500 + 2000000000) 4]
    = Done (l, 2 * 4).
Proof.
  apply (fixed_window_boundary_double_admit 1500 2%Q 4).
  - unfold MaxUnits. lia.
  - vm_compute. split; [reflexivity | discriminate].
Defined.

(** X8. When [WaitN] on a fixed window finds no room and asks to retry at the
    next window, the retry at or after that instant finds room: it resets
    the count and returns at once. *)
Theorem fixed_window_wait_retry_succeeds
    (fw fw1 : FW.FixedWindowLimiter) (now now' : Time) (n : Z) (u : Time) :
  0 <= n < MaxUnits -> FW.window fw <= GoInt.MaxInt64 ->
  FW.WaitN fw now n = (fw1, WaitRetry u) -> u <= now' ->
  snd (FW.WaitN fw1 now' n) = WaitNil /\
  FW.currentCount (fst (FW.WaitN fw1 now' n)) = n.
Proof.
  intros Hn Hw E Hu. unfold FW.WaitN in E.
  rewrite fw_reset_maxCount in E.
  destruct (FW.maxCount fw <? n) eqn:Hmax; [discriminate|].
  apply Z.ltb_ge in Hmax.
  destruct (FW.maxCount fw <? _) eqn:Hroom; [|discriminate].
  injection E as <- <-.
  set (fw1 := FW.resetIfNeeded fw now) in *.
  assert (Hw1 : FW.window fw1 = FW.window fw) by apply fw_reset_window.
  assert (Hm1 : FW.maxCount fw1 = FW.maxCount fw) by apply fw_reset_maxCount.
  unfold Add in Hu. rewrite Hw1 in Hu.
  unfold FW.WaitN, FW.resetIfNeeded. rewrite Hw1.
  assert (Hroll : FW.window fw <= Sub now' (FW.windowStart fw1)).
  { unfold Sub, GoInt.MinInt64, GoInt.MaxInt64 in *. lia. }
  apply Z.leb_le in Hroll. rewrite Hroll.
  cbn [FW.maxCount FW.currentCount]. rewrite Hm1.
  destruct (FW.maxCount fw <? n) eqn:E1; [apply Z.ltb_lt in E1; lia|].
  rewrite add_in_range by (unfold MaxUnits in *; lia).
  destruct (FW.maxCount fw <? 0 + n) eqn:E2; [apply Z.ltb_lt in E2; lia|].
  simpl. split; [reflexivity | lia].
Qed.

Lemma fixed_window_wait_retry_succeeds_witness :
  let fw := FW.mk 1%Q 2 1000 2 3000 in
  snd (FW.WaitN (fst (FW.WaitN fw 3500 1)) 4000 1) = WaitNil /\
  FW.currentCount (fst (FW.WaitN (fst (FW.WaitN fw 3500 1)) 4000 1)) = 1.
Proof.
  apply (fixed_window_wait_retry_succeeds (FW.mk 1%Q 2 1000 2 3000) _ 3500 4000 1 4000).
  - unfold MaxUnits. lia.
  - vm_compute. discriminate.
  - reflexivity.
  - lia.
Defined.

(** ** Truncation *)

Lemma trunc_floor (q : Q) :
  (0 <= q)%Q ->
  (inject_Z (Float64.trunc q) <= q)%Q /\ (q < inject_Z (Float64.trunc q) + 1)%Q.
Proof.
  destruct q as [n d]. unfold Qle, Qlt, Float64.trunc, Qplus, inject_Z. simpl.
  intros H. rewrite Z.mul_1_r in H.
  pose proof (Z.quot_rem' n (Z.pos d)) as Hq.
  pose proof (Z.rem_bound_pos n (Z.pos d) H ltac:(lia)) as Hr.
  split; nia.
Qed.

(** ** Reservations at a rate that is not positive *)

(** X13. On the token bucket and on the leaky bucket, at a rate that is not
    positive a reservation for [n] units within the burst is ok and
    immediate - its time to act is the instant of the call - whether or not
    tokens or room are there, and [WaitN] then returns at once. *)
Theorem reservation_immediate_without_rate
    (l l' : Limiter) (t : Time) (n : Z) (r : Reservation.Reservation) :
  L.Algorithm l = TokenBucket \/ L.Algorithm l = LeakyBucket ->
  (L.Limit l <= 0)%Q -> n <= L.Burst l ->
  L.ReserveN l t n = Done (l', r) ->
  Reservation.OK r = true /\ Reservation.timeToAct r = t /\
  Reservation.DelayFrom r t = 0 /\
  forall now' : Time, t <= now' ->
    exists l2 : Limiter, L.WaitN l t now' n = Done (l2, WaitNil).
Proof.
  intros Ha Hr Hn E.
  assert (Hdelay : forall (a : option Algorithm) (x : Limit) (now' : Time),
             t <= now' ->
             Reservation.DelayFrom (Reservation.mkReservation true a n (Add t 0) x) now' = 0).
  { intros a x now' Hle. unfold Reservation.DelayFrom, Add, Sub.
    cbn [Reservation.ok Reservation.timeToAct negb].
    destruct (_ <? 0) eqn:C; [reflexivity|]. apply Z.ltb_ge in C.
    unfold GoInt.MinInt64, GoInt.MaxInt64 in *. lia. }
  destruct l as [tb | lb | sw | fw]; simpl in Ha, Hr, Hn;
    try (destruct Ha; discriminate).
  - unfold TB.Limit in Hr. unfold TB.Burst in Hn.
    assert (HR : TB.ReserveN tb t n
                 = (TB.mk (TB.limit tb) (TB.burst tb)
                      (TB.tokens (TB.advance tb t) - Float64.of_int n)%Q t,
                    Reservation.mkReservation true (Some TokenBucket) n (Add t 0)
                      (TB.limit tb))).
    { unfold TB.ReserveN.
      rewrite tb_advance_burst, tb_advance_limit, tb_advance_lastUpdated.
      destruct (TB.burst tb <? n) eqn:C; [apply Z.ltb_lt in C; lia|].
      rewrite (nonpos_not_positive _ Hr).
      destruct (Float64.ltb _ _); reflexivity. }
    simpl in E. rewrite HR in E. injection E as <- <-.
    split; [reflexivity|]. split; [unfold Add; simpl; lia|].
    split; [apply Hdelay; lia|].
    intros now' Hle. simpl. unfold TB.WaitN. rewrite HR.
    cbn [Reservation.OK Reservation.ok negb]. rewrite Hdelay by exact Hle.
    eexists. reflexivity.
  - unfold LB.Limit in Hr. unfold LB.Burst in Hn.
    simpl in E. unfold LB.ReserveN in E.
    destruct (LB.leak lb t) as [lb1 |] eqn:Ek; cbn [bind] in E; [|discriminate].
    destruct (lb_leak_fields _ _ _ Ek) as (Hl & Hc & _).
    assert (Hpos : Float64.ltb 0 (LB.limit lb1) = false)
      by (rewrite Hl; apply nonpos_not_positive; exact Hr).
    assert (Hcap : (LB.capacity lb1 <? n) = false)
      by (apply Z.ltb_ge; rewrite Hc; exact Hn).
    rewrite Hcap, Hpos in E.
    assert (Hw : (if LB.capacity lb1 <? GoInt.add (GoInt.len (LB.queue lb1)) n
                  then 0 else 0) = 0) by (destruct (_ <? _); reflexivity).
    rewrite Hw in E. cbn [lift fst snd] in E. injection E as <- <-.
    split; [reflexivity|]. split; [unfold Add; simpl; lia|].
    split; [apply Hdelay; lia|].
    intros now' Hle. simpl. unfold LB.WaitN, LB.ReserveN. rewrite Ek. cbn [bind].
    rewrite Hcap, Hpos, Hw. cbn [bind Reservation.OK Reservation.ok negb].
    rewrite Hdelay by exact Hle. eexists. reflexivity.
Qed.

Lemma reservation_immediate_without_rate_witness :
  let l := OfTokenBucket (TB.mk 0%Q 2 0%Q 0) in
  exists (l' : Limiter) (r : Reservation.Reservation),
    L.ReserveN l 5 2 = Done (l', r) /\
    Reservation.OK r = true /\ Reservation.timeToAct r = 5 /\
    Reservation.DelayFrom r 5 = 0 /\
    forall now' : Time, 5 <= now' ->
      exists l2 : Limiter, L.WaitN l 5 now' 2 = Done (l2, WaitNil).
Proof.
  eexists. eexists. split; [vm_compute; reflexivity|].
  eapply (reservation_immediate_without_rate (OfTokenBucket (TB.mk 0%Q 2 0%Q 0))).
  - left. reflexivity.
  - vm_compute. discriminate.
  - simpl. unfold TB.Burst. simpl. lia.
  - vm_compute. reflexivity.
Defined.

(** ** The leaky bucket with timestamps in order *)

Lemma trunc_le (q : Q) (z : Z) : (0 <= q)%Q -> (q < inject_Z z)%Q -> Float64.trunc q < z.
Proof.
  intros H0 Hlt. destruct (trunc_floor q H0) as [Hle _].
  assert (H : (inject_Z (Float64.trunc q) < inject_Z z)%Q) by lra.
  rewrite <- Zlt_Qlt in H. exact H.
Qed.

(** The value of [leak] where it does not panic. *)
Lemma lb_leak_value (lb : LB.LeakyBucketLimiter) (t : Time) :
  (0 <= LB.limit lb)%Q -> LB.lastLeakTime lb <= t ->
  (LB.limit lb * Seconds (Sub t (LB.lastLeakTime lb)) < inject_Z (2 ^ 63))%Q ->
  let due := Float64.trunc (LB.limit lb * Seconds (Sub t (LB.lastLeakTime lb)))%Q in
  LB.leak lb t =
  if Float64.eqb (LB.limit lb) Float64.MaxFloat64 || (GoInt.len (LB.queue lb) =? 0)
  then Done lb
  else Done (LB.mk (LB.limit lb) (LB.capacity lb)
               (skipn (Z.to_nat (Z.min due (GoInt.len (LB.queue lb)))) (LB.queue lb))
               t).
Proof.
  intros Hr Ht Hfit due. unfold LB.leak.
  destruct (_ || _); [reflexivity|].
  set (x := (LB.limit lb * Seconds (Sub t (LB.lastLeakTime lb)))%Q) in *.
  assert (Hx : (0 <= x)%Q).
  { unfold x. apply Qmult_le_0_compat; [exact Hr|].
    apply Seconds_nonneg, Sub_nonneg, Ht. }
  pose proof (trunc_nonneg x Hx) as H0.
  pose proof (trunc_le x (2 ^ 63) Hx Hfit) as H1.
  assert (Hc : Float64.to_int64 x = due).
  { unfold Float64.to_int64.
    assert (Hin : GoInt.in_range (Float64.trunc x) = true).
    { apply in_range_iff. unfold GoInt.MinInt64, GoInt.MaxInt64. lia. }
    rewrite Hin. reflexivity. }
  rewrite Hc. pose proof (len_nonneg (LB.queue lb)) as Hl. fold due in H0, H1.
  unfold GoInt.slice_from.
  destruct (GoInt.len (LB.queue lb) <? due) eqn:E.
  - apply Z.ltb_lt in E.
    destruct (GoInt.len (LB.queue lb) <? 0) eqn:E0; [apply Z.ltb_lt in E0; lia|].
    rewrite Z.ltb_irrefl. cbn [orb bind].
    replace (Z.min due (GoInt.len (LB.queue lb))) with (GoInt.len (LB.queue lb)) by lia.
    reflexivity.
  - apply Z.ltb_ge in E.
    destruct (due <? 0) eqn:E0; [apply Z.ltb_lt in E0; lia|].
    destruct (GoInt.len (LB.queue lb) <? due) eqn:E1; [apply Z.ltb_lt in E1; lia|].
    cbn [orb bind].
    replace (Z.min due (GoInt.len (LB.queue lb))) with due by lia.
    reflexivity.
Qed.

(** ** Calls that cannot panic *)

Lemma lb_leak_safe (lb : LB.LeakyBucketLimiter) (o : Op) :
  safe_call (OfLeakyBucket lb) o ->
  exists lb1 : LB.LeakyBucketLimiter, LB.leak lb (op_time o) = Done lb1.
Proof.
  intros [[Hinf | (Hr & Ht & Hfit)] _].
  - exists lb. unfold LB.leak. rewrite Hinf. reflexivity.
  - assert (Hlt : (inject_Z (2 ^ 62) < inject_Z (2 ^ 63))%Q)
      by (rewrite <- Zlt_Qlt; lia).
    rewrite (lb_leak_value lb (op_time o) Hr Ht) by lra.
    destruct (_ || _); eexists; reflexivity.
Qed.

Lemma sw_wait_index (ts : list Time) (n maxCount : Z) :
  GoInt.in_range n = true -> GoInt.in_range maxCount = true ->
  GoInt.len ts <= GoInt.MaxInt64 ->
  (maxCount <? n) = false ->
  (maxCount <? GoInt.add (GoInt.len ts) n) = true ->
  let k := GoInt.sub (GoInt.add (GoInt.len ts) n) maxCount in
  let k := if GoInt.len ts <? k then GoInt.len ts else k in
  1 <= k <= GoInt.len ts /\ GoInt.sub k 1 = k - 1 /\
  k = GoInt.len ts + n - maxCount.
Proof.
  intros Hn Hm Hl Hle Hlt. apply in_range_iff in Hn. apply in_range_iff in Hm.
  apply Z.ltb_ge in Hle. apply Z.ltb_lt in Hlt.
  pose proof (len_nonneg ts) as H0.
  unfold GoInt.add, GoInt.sub, GoInt.MinInt64, GoInt.MaxInt64 in *.
  assert (Hsum : GoInt.len ts + n <= 2 ^ 63 - 1).
  { destruct (Z.le_gt_cases (GoInt.len ts + n) (2 ^ 63 - 1)) as [H | H]; [exact H|].
    exfalso. revert Hlt. unfold GoInt.wrap64.
    replace (GoInt.len ts + n + 2 ^ 63) with (GoInt.len ts + n - 2 ^ 63 + 1 * 2 ^ 64) by lia.
    rewrite Z.mod_add by lia. rewrite Z.mod_small by lia. lia. }
  rewrite (wrap64_id (GoInt.len ts + n)) in *
    by (unfold GoInt.MinInt64, GoInt.MaxInt64; lia).
  rewrite (wrap64_id (GoInt.len ts + n - maxCount))
    by (unfold GoInt.MinInt64, GoInt.MaxInt64; lia).
  cbv zeta.
  destruct (GoInt.len ts <? _) eqn:E; [apply Z.ltb_lt in E; lia|].
  rewrite wrap64_id by (unfold GoInt.MinInt64, GoInt.MaxInt64; lia).
  lia.
Qed.

Lemma index_in_range {A : Type} (s : list A) (i : Z) :
  0 <= i < GoInt.len s -> exists a : A, GoInt.index s i = Done a.
Proof.
  intros H. unfold GoInt.index, GoInt.len in *.
  destruct (i <? 0) eqn:E; [apply Z.ltb_lt in E; lia|].
  destruct (nth_error s (Z.to_nat i)) as [a |] eqn:En; [exists a; reflexivity|].
  apply nth_error_None in En. lia.
Qed.

(** In the embedding a safe call returns. *)
Lemma safe_call_returns (l : Limiter) (o : Op) :
  safe_call l o ->
  exists (l' : Limiter) (res : Result), exec l o = Done (l', res).
Proof.
  intros Hs. destruct l as [tb | lb | sw | fw].
  - destruct o; simpl; eexists; eexists; reflexivity.
  - destruct (lb_leak_safe lb o Hs) as (lb1 & Ek).
    destruct o as [t n | t n | now now' n | t | t x | t b]; simpl in Ek |- *;
      unfold LB.AllowN, LB.WaitN, LB.ReserveN, LB.TokensAt, LB.SetLimitAt, LB.SetBurstAt;
      rewrite Ek; cbn [bind].
    + destruct (_ <=? _); cbn [bind]; eexists; eexists; reflexivity.
    + destruct (LB.capacity lb1 <? n); cbn [bind]; eexists; eexists; reflexivity.
    + destruct (LB.capacity lb1 <? n); cbn [bind Reservation.OK Reservation.ok negb];
        [eexists; eexists; reflexivity|].
      destruct (_ =? 0); cbn [bind]; eexists; eexists; reflexivity.
    + eexists; eexists; reflexivity.
    + eexists; eexists; reflexivity.
    + destruct Hs as (_ & _ & Hb). unfold GoInt.slice_to.
      destruct (b <? 0) eqn:E; [apply Z.ltb_lt in E; lia|].
      destruct (b <? GoInt.len (LB.queue lb1)); cbn [bind]; eexists; eexists; reflexivity.
  - destruct o as [t n | t n | now now' n | t | t x | t b]; simpl;
      try (eexists; eexists; reflexivity).
    destruct Hs as (Hl & Hn & Hm). unfold SW.WaitN.
    assert (Hcap : GoInt.MaxSliceCap / 2 <= GoInt.MaxInt64)
      by (vm_compute; discriminate).
    pose proof (sw_cleanup_len sw now) as Hlen.
    change (SW.maxCount (SW.cleanup sw now)) with (SW.maxCount sw).
    destruct (SW.maxCount sw <? n) eqn:E1; cbn [bind]; [eexists; eexists; reflexivity|].
    destruct (SW.maxCount sw <? GoInt.add _ n) eqn:E2; cbn [bind];
      [|eexists; eexists; reflexivity].
    destruct (sw_wait_index (SW.timestamps (SW.cleanup sw now)) n (SW.maxCount sw)
                Hn Hm ltac:(lia) E1 E2) as (Hk & Hk1 & _).
    cbv zeta in Hk, Hk1. rewrite Hk1.
    destruct (index_in_range (SW.timestamps (SW.cleanup sw now))
                ((if GoInt.len (SW.timestamps (SW.cleanup sw now)) <?
                     GoInt.sub (GoInt.add (GoInt.len (SW.timestamps (SW.cleanup sw now))) n)
                       (SW.maxCount sw)
                  then GoInt.len (SW.timestamps (SW.cleanup sw now))
                  else GoInt.sub (GoInt.add (GoInt.len (SW.timestamps (SW.cleanup sw now))) n)
                         (SW.maxCount sw)) - 1)) as (a & Ea); [lia|].
    rewrite Ea. cbn [bind]. eexists; eexists; reflexivity.
  - destruct o; simpl; eexists; eexists; reflexivity.
Qed.

(** X15. No safe call panics - no slice bound, index or allocation is out
    of range: on the leaky bucket, every operation at the unlimited rate,
    or at a rate that is not negative with a timestamp not before the last
    leak and at most 2^62 units due (a burst set being not negative); on
    the sliding window, [WaitN] included, whose index into the timestamps
    is always in range; on both, as long as the slice stays within half of
    what can be allocated; and every operation of the token bucket and the
    fixed window. *)
Theorem safe_call_never_panics (l : Limiter) (o : Op) :
  safe_call l o -> exec l o <> Panic.
Proof.
  intros Hs E. destruct (safe_call_returns l o Hs) as (l' & res & E').
  congruence.
Qed.

Lemma safe_call_never_panics_witness :
  exec (OfSlidingWindow (SW.mk 1%Q 2 1000 [10; 20])) (OpWaitN 30 30 1)
  <> Panic.
Proof.
  apply (safe_call_never_panics (OfSlidingWindow (SW.mk 1%Q 2 1000 [10; 20]))
           (OpWaitN 30 30 1)).
  simpl. repeat split; vm_compute; congruence.
Defined.

(** ** The sliding window with timestamps in order *)

Lemma ascending_skipn (k : nat) (ts : list Time) :
  ascending ts -> ascending (skipn k ts).
Proof.
  revert ts. induction k as [| k IH]; intros [| x rest] H; simpl; auto.
  apply IH. apply H.
Qed.

Lemma Forall_skipn {A : Type} (P : A -> Prop) (k : nat) (l : list A) :
  Forall P l -> Forall P (skipn k l).
Proof.
  revert l. induction k as [| k IH]; intros [| x rest] H; simpl; auto.
  apply IH. inversion H; assumption.
Qed.

Lemma ascending_app_repeat (ts : list Time) (t : Time) (k : nat) :
  ascending ts -> Forall (fun x => x <= t) ts -> ascending (ts ++ repeat t k).
Proof.
  induction ts as [| x rest IH]; simpl.
  - intros _ _. induction k as [| k IHk]; simpl; [exact I|].
    split; [|exact IHk]. apply Forall_forall. intros y Hy.
    apply repeat_spec in Hy. lia.
  - intros [Hx Hrest] Hall. inversion Hall as [| ? ? Hxt Hall']; subst.
    split; [|apply IH; assumption].
    apply Forall_app. split; [exact Hx|].
    apply Forall_forall. intros y Hy. apply repeat_spec in Hy. lia.
Qed.

Lemma filter_all {A : Type} (f : A -> bool) (l : list A) :
  Forall (fun x => f x = true) l -> filter f l = l.
Proof.
  induction 1 as [| x l Hx _ IH]; simpl; [reflexivity|]. rewrite Hx, IH. reflexivity.
Qed.

(** On an ascending list the loop of [cleanup] drops exactly the timestamps
    before the cutoff. *)
Lemma validIdx_filter (c : Time) (ts : list Time) :
  ascending ts ->
  skipn (SW.validIdx c ts) ts = filter (fun x => c <=? x) ts.
Proof.
  induction ts as [| x rest IH]; [reflexivity|]. intros [Hx Hrest].
  cbn [SW.validIdx]. unfold Before. destruct (x <? c) eqn:E.
  - apply Z.ltb_lt in E. cbn [skipn filter].
    destruct (c <=? x) eqn:E'; [apply Z.leb_le in E'; lia|]. apply IH. exact Hrest.
  - apply Z.ltb_ge in E. cbn [skipn]. symmetry. apply filter_all.
    constructor; [apply Z.leb_le; exact E|].
    eapply Forall_impl; [|exact Hx]. intros y Hy. cbv beta in Hy. apply Z.leb_le. lia.
Qed.

(** [cleanup] on ascending timestamps. *)
Lemma sw_cleanup_filter (sw : SW.SlidingWindowLimiter) (now : Time) :
  ascending (SW.timestamps sw) ->
  SW.cleanup sw now =
  SW.mk (SW.limit sw) (SW.maxCount sw) (SW.window sw)
    (filter (fun x => Add now (GoInt.neg (SW.window sw)) <=? x) (SW.timestamps sw)).
Proof.
  intros H. unfold SW.cleanup. rewrite validIdx_filter by exact H. reflexivity.
Qed.

(** X16. On timestamps in ascending order, [cleanup] keeps exactly the
    timestamps that are not before [now - window], in their order, and
    changes nothing else. *)
Theorem sliding_window_cleanup_is_filter (sw : SW.SlidingWindowLimiter) (now : Time) :
  ascending (SW.timestamps sw) ->
  SW.cleanup sw now =
  SW.mk (SW.limit sw) (SW.maxCount sw) (SW.window sw)
    (filter (fun x => Add now (GoInt.neg (SW.window sw)) <=? x) (SW.timestamps sw)).
Proof. exact (sw_cleanup_filter sw now). Qed.

Lemma sliding_window_cleanup_is_filter_witness :
  SW.cleanup (SW.mk 1%Q 5 1000 [100; 200; 1500; 1500; 2000]) 2500 =
  SW.mk 1%Q 5 1000 [1500; 1500; 2000].
Proof.
  apply (sliding_window_cleanup_is_filter (SW.mk 1%Q 5 1000 [100; 200; 1500; 1500; 2000]) 2500).
  simpl. repeat split; repeat constructor; lia.
Defined.

Lemma sw_cleanup_in_order (sw : SW.SlidingWindowLimiter) (t : Time) :
  ascending (SW.timestamps sw) -> Forall (fun x => x <= t) (SW.timestamps sw) ->
  ascending (SW.timestamps (SW.cleanup sw t)) /\
  Forall (fun x => x <= t) (SW.timestamps (SW.cleanup sw t)).
Proof.
  intros Ha Hf. unfold SW.cleanup. cbn [SW.timestamps].
  split; [apply ascending_skipn | apply Forall_skipn]; assumption.
Qed.

Lemma append_in_order (ts : list Time) (t : Time) (n : Z) :
  ascending ts -> Forall (fun x => x <= t) ts ->
  ascending (GoInt.append_n ts t n) /\ Forall (fun x => x <= t) (GoInt.append_n ts t n).
Proof.
  intros Ha Hf. unfold GoInt.append_n. split.
  - apply ascending_app_repeat; assumption.
  - apply Forall_app. split; [exact Hf|]. apply Forall_forall.
    intros y Hy. apply repeat_spec in Hy. lia.
Qed.

(** X17. The order of the timestamps is kept: when the timestamps of a
    sliding window are ascending and none is later than the instant of an
    operation, they are so again after the operation, whichever it is. *)
Theorem sliding_window_stays_ascending
    (sw : SW.SlidingWindowLimiter) (o : Op) (l' : Limiter) (res : Result) :
  ascending (SW.timestamps sw) ->
  Forall (fun x => x <= op_time o) (SW.timestamps sw) ->
  exec (OfSlidingWindow sw) o = Done (l', res) ->
  exists sw' : SW.SlidingWindowLimiter,
    l' = OfSlidingWindow sw' /\ ascending (SW.timestamps sw') /\
    Forall (fun x => x <= op_time o) (SW.timestamps sw').
Proof.
  intros Ha Hf E.
  destruct (sw_cleanup_in_order sw (op_time o) Ha Hf) as [Ha1 Hf1].
  destruct (append_in_order _ (op_time o) (op_units o) Ha1 Hf1) as [Ha2 Hf2].
  destruct o as [t n | t n | now now' n | t | t x | t b];
    cbn [op_time op_units] in *; simpl in E.
  - injection E as <- _. unfold SW.AllowN.
    destruct (_ <=? _); eexists; (split; [reflexivity|]); cbn [fst SW.timestamps]; auto.
  - injection E as <- _. rewrite sw_reserve_state. unfold SW.AllowN.
    destruct (_ <=? _); eexists; (split; [reflexivity|]); cbn [fst SW.timestamps]; auto.
  - unfold SW.WaitN in E.
    destruct (_ <? n); cbn [bind] in E.
    + injection E as <- _. eexists. split; [reflexivity|]. auto.
    + destruct (_ <? _); cbn [bind] in E.
      * destruct (GoInt.index _ _); cbn [bind] in E; [|discriminate].
        injection E as <- _. eexists. split; [reflexivity|]. auto.
      * injection E as <- _. eexists. split; [reflexivity|]. cbn [fst SW.timestamps]. auto.
  - injection E as <- _. eexists. split; [reflexivity|]. auto.
  - injection E as <- _. eexists. split; [reflexivity|]. cbn [SW.timestamps]. auto.
  - injection E as <- _. eexists. split; [reflexivity|]. cbn [SW.timestamps]. auto.
Qed.

Lemma sliding_window_stays_ascending_witness :
  exists sw' : SW.SlidingWindowLimiter,
    OfSlidingWindow (SW.mk 1%Q 5 1000 [1500; 2000; 2500; 2500])
    = OfSlidingWindow sw' /\ ascending (SW.timestamps sw') /\
    Forall (fun x => x <= 2500) (SW.timestamps sw').
Proof.
  apply (sliding_window_stays_ascending (SW.mk 1%Q 5 1000 [100; 1500; 2000])
           (OpAllowN 2500 2) _ (RAllow true)).
  - simpl. repeat split; repeat constructor; lia.
  - simpl. repeat constructor; lia.
  - vm_compute. reflexivity.
Defined.

(** ** Window containment *)

Lemma ascending_filter (f : Time -> bool) (ts : list Time) :
  ascending ts -> ascending (filter f ts).
Proof.
  induction ts as [| x rest IH]; simpl; [auto|]. intros [Hx Hrest].
  destruct (f x); [|apply IH; exact Hrest]. simpl. split; [|apply IH; exact Hrest].
  apply Forall_forall. intros y Hy. apply filter_In in Hy.
  rewrite Forall_forall in Hx. apply Hx. apply Hy.
Qed.

Lemma filter_cutoff_later (c c' : Time) (ts : list Time) :
  c <= c' ->
  filter (fun x => c' <=? x) (filter (fun x => c <=? x) ts)
  = filter (fun x => c' <=? x) ts.
Proof.
  intros H. induction ts as [| x rest IH]; simpl; [reflexivity|].
  destruct (c <=? x) eqn:E; simpl.
  - rewrite IH. reflexivity.
  - apply Z.leb_gt in E. destruct (c' <=? x) eqn:E'; [apply Z.leb_le in E'; lia|].
    exact IH.
Qed.

Lemma filter_repeat_kept (c t : Time) (k : nat) :
  c <= t -> filter (fun x => c <=? x) (repeat t k) = repeat t k.
Proof.
  intros H. apply filter_all. apply Forall_forall. intros y Hy.
  apply repeat_spec in Hy. subst. apply Z.leb_le. exact H.
Qed.

Lemma neg_window (w : Duration) : 0 <= w <= GoInt.MaxInt64 -> GoInt.neg w = - w.
Proof.
  intros H. unfold GoInt.neg. apply wrap64_id.
  unfold GoInt.MinInt64, GoInt.MaxInt64 in *. lia.
Qed.

(** The window holds exactly the logged units that are not older than the
    window, and the log is in order. *)
Lemma sw_calls_window (w : Duration) (M : Z) (calls : list (Time * Z)) :
  0 <= w <= GoInt.MaxInt64 -> 0 <= M < MaxUnits ->
  forall (sw : SW.SlidingWindowLimiter) (log : list Time) (t : Time),
    SW.window sw = w -> SW.maxCount sw = M ->
    SW.timestamps sw = filter (fun x => t - w <=? x) log ->
    GoInt.len (SW.timestamps sw) <= M ->
    ascending log -> Forall (fun x => x <= t) log ->
    calls_in_order t calls ->
    let p := sw_calls sw log calls in
    SW.timestamps (fst p)
    = filter (fun x => last_instant t calls - w <=? x) (snd p) /\
    GoInt.len (SW.timestamps (fst p)) <= M.
Proof.
  intros Hw HM. induction calls as [| [t' n] rest IH];
    intros sw log t Ew Em Ets Hlen Hasc Hle Hord; cbn [sw_calls last_instant].
  - cbv zeta. cbn [fst snd]. auto.
  - destruct Hord as (Ht & Hn & Hrest).
    assert (Hts_asc : ascending (SW.timestamps sw))
      by (rewrite Ets; apply ascending_filter; exact Hasc).
    assert (Hc : SW.cleanup sw t'
                 = SW.mk (SW.limit sw) M w (filter (fun x => t' - w <=? x) log)).
    { rewrite sw_cleanup_filter by exact Hts_asc.
      rewrite Ew, Em, Ets, neg_window by exact Hw. unfold Add.
      replace (t' + - w) with (t' - w) by lia.
      rewrite filter_cutoff_later by lia. reflexivity. }
    assert (Hlen1 : GoInt.len (filter (fun x => t' - w <=? x) log) <= M).
    { pose proof (sw_cleanup_len sw t') as H. rewrite Hc in H. cbn [SW.timestamps] in H.
      eapply Z.le_trans; [apply H | exact Hlen]. }
    assert (Hle' : Forall (fun x => x <= t') log).
    { eapply Forall_impl; [|exact Hle]. intros y Hy. cbv beta in Hy. lia. }
    unfold SW.AllowN. rewrite Hc. cbn [SW.timestamps SW.maxCount SW.limit SW.window].
    pose proof (len_nonneg (filter (fun x => t' - w <=? x) log)) as H0.
    rewrite add_in_range by (unfold Time, MaxUnits in *; lia).
    destruct (_ <=? M) eqn:E; cbn [fst snd].
    + apply Z.leb_le in E. apply IH; cbn [SW.timestamps SW.maxCount SW.window]; auto.
      * unfold GoInt.append_n. rewrite filter_app, filter_repeat_kept by lia. reflexivity.
      * rewrite len_append_n by lia. unfold Time in *. exact E.
      * apply ascending_app_repeat; assumption.
      * apply Forall_app. split; [exact Hle'|]. apply Forall_forall.
        intros y Hy. apply repeat_spec in Hy. lia.
    + apply IH; cbn [SW.timestamps SW.maxCount SW.window]; auto.
Qed.

(** X18. Window containment: over calls in order of time on a sliding window
    that starts empty, with a window [w >= 0] and a bound [M], the units
    admitted so far that are stamped within the window [w] ending at the
    last call never exceed [M]; they are exactly the timestamps the limiter
    holds. *)
Theorem sliding_window_containment
    (sw0 : SW.SlidingWindowLimiter) (t0 : Time) (calls : list (Time * Z)) :
  SW.timestamps sw0 = [] ->
  0 <= SW.window sw0 <= GoInt.MaxInt64 -> 0 <= SW.maxCount sw0 < MaxUnits ->
  calls_in_order t0 calls ->
  let p := sw_calls sw0 [] calls in
  in_window (SW.window sw0) (last_instant t0 calls) (snd p) <= SW.maxCount sw0 /\
  in_window (SW.window sw0) (last_instant t0 calls) (snd p)
  = GoInt.len (SW.timestamps (fst p)).
Proof.
  intros Hts Hw HM Hord. cbv zeta.
  assert (H1 : SW.timestamps sw0 = filter (fun x => t0 - SW.window sw0 <=? x) [])
    by (rewrite Hts; reflexivity).
  assert (H2 : GoInt.len (SW.timestamps sw0) <= SW.maxCount sw0)
    by (rewrite Hts; unfold GoInt.len; simpl; lia).
  destruct (sw_calls_window (SW.window sw0) (SW.maxCount sw0) calls Hw HM
              sw0 [] t0 eq_refl eq_refl H1 H2 I (Forall_nil _) Hord) as [E Hlen].
  unfold in_window. rewrite <- E. split; [exact Hlen | reflexivity].
Qed.

Lemma sliding_window_containment_witness :
  let sw0 := SW.mk 1%Q 2 1000 [] in
  let calls := [(100, 1); (600, 1); (900, 1); (1200, 1); (1700, 2)] in
  let p := sw_calls sw0 [] calls in
  in_window 1000 1700 (snd p) <= 2 /\
  in_window 1000 1700 (snd p) = GoInt.len (SW.timestamps (fst p)).
Proof.
  apply (sliding_window_containment (SW.mk 1%Q 2 1000 []) 0
           [(100, 1); (600, 1); (900, 1); (1200, 1); (1700, 2)]).
  - reflexivity.
  - vm_compute. split; discriminate.
  - vm_compute. split; [discriminate | reflexivity].
  - simpl. unfold MaxUnits. lia.
Defined.

(** ** Waiting on the sliding window *)




(** ** Construction *)

Lemma sub_zero (b : Z) : 0 <= b <= GoInt.MaxInt64 -> GoInt.sub b 0 = b.
Proof.
  intros H. unfold GoInt.sub. rewrite Z.sub_0_r. apply wrap64_id.
  unfold GoInt.MinInt64, GoInt.MaxInt64 in *. lia.
Qed.

Lemma add_zero (b : Z) : 0 <= b <= GoInt.MaxInt64 -> GoInt.add 0 b = b.
Proof.
  intros H. unfold GoInt.add. rewrite Z.add_0_l. apply wrap64_id.
  unfold GoInt.MinInt64, GoInt.MaxInt64 in *. lia.
Qed.

Lemma tb_fresh_tokens (now : Time) (r : Limit) (b : Z) :
  (TB.tokens (TB.advance (TB.NewTokenBucket now r b) now) == inject_Z b)%Q.
Proof.
  unfold TB.advance, TB.NewTokenBucket.
  cbn [TB.limit TB.burst TB.tokens TB.lastUpdated].
  destruct (Float64.eqb r Float64.MaxFloat64); cbn [TB.tokens]; [reflexivity|].
  rewrite Sub_diag. unfold Float64.of_int.
  assert (E : (inject_Z b + r * Seconds 0%Z == inject_Z b)%Q).
  { rewrite Seconds_zero. ring. }
  destruct (fmin_cases (inject_Z b + r * Seconds 0%Z) (inject_Z b))
    as [[-> _] | [-> _]]; [exact E | reflexivity].
Qed.

Lemma make_ok_false (b : Z) :
  GoInt.make_ok b = false <-> b < 0 \/ GoInt.MaxSliceCap < b.
Proof.
  unfold GoInt.make_ok. rewrite andb_false_iff, !Z.leb_gt. reflexivity.
Qed.

(** X22. A limiter starts full: the limiter [NewLimiter] returns, for any
    rate and a burst [b] from zero to 2^53, which float64 holds exactly, is
    of the engine built for the algorithm (the token bucket for a value
    that is none of the four constants), has the rate and the burst given,
    reports [b] tokens at its creation and admits the whole burst there at
    once.  [NewLimiter] panics exactly when it builds a leaky bucket or a
    sliding window with a burst that is negative or beyond what [make] can
    allocate. *)
Theorem new_limiter_starts_full
    (algo : Algorithm) (now : Time) (r : Limit) (b : Z) :
  (forall l : Limiter,
     NewLimiter algo now r b = Done l -> 0 <= b <= 2 ^ 53 ->
     L.Algorithm l = engine algo /\ L.Limit l = r /\ L.Burst l = b /\
     exists (l1 l2 : Limiter) (x : Q),
       L.TokensAt l now = Done (l1, x) /\ (x == inject_Z b)%Q /\
       L.AllowN l now b = Done (l2, true)) /\
  (NewLimiter algo now r b = Panic
   <-> (engine algo = LeakyBucket \/ engine algo = SlidingWindow) /\
       (b < 0 \/ GoInt.MaxSliceCap < b)).
Proof.
  split.
  - intros l E Hb53.
    assert (Hb : 0 <= b <= GoInt.MaxInt64) by (unfold GoInt.MaxInt64; lia).
    clear Hb53.
    assert (Eb : (b <=? b) = true) by (apply Z.leb_refl).
    assert (Htb : forall l : Limiter,
               Done (OfTokenBucket (TB.NewTokenBucket now r b)) = Done l ->
               L.Algorithm l = TokenBucket /\ L.Limit l = r /\ L.Burst l = b /\
               exists (l1 l2 : Limiter) (x : Q),
                 L.TokensAt l now = Done (l1, x) /\ (x == inject_Z b)%Q /\
                 L.AllowN l now b = Done (l2, true)).
    { intros l0 E0. injection E0 as <-.
      pose proof (tb_fresh_tokens now r b) as Ht.
      do 3 (split; [reflexivity|]).
      do 2 eexists. exists (TB.tokens (TB.advance (TB.NewTokenBucket now r b) now)).
      split; [|split].
      * unfold L.TokensAt, lift, TB.TokensAt. cbn [fst snd]. reflexivity.
      * exact Ht.
      * unfold L.AllowN, lift, TB.AllowN.
        assert (El : Float64.leb (Float64.of_int b)
                       (TB.tokens (TB.advance (TB.NewTokenBucket now r b) now))
                     = true).
        { unfold Float64.leb, Float64.of_int. apply Qle_bool_iff. rewrite Ht.
          apply Qle_refl. }
        rewrite El. cbn [fst snd]. reflexivity. }
    destruct algo; cbn [NewLimiter engine] in *.
    + (* token bucket *)
      exact (Htb l E).
    + (* leaky bucket *)
      unfold LB.NewLeakyBucket in E.
      destruct (GoInt.make_ok b); cbn [bind] in E; [|discriminate].
      injection E as <-. do 3 (split; [reflexivity|]).
      do 2 eexists. exists (inject_Z b).
      split; [|split].
      * unfold L.TokensAt, LB.TokensAt, LB.leak. cbn [LB.queue LB.limit].
        change (GoInt.len (@nil Time) =? 0) with true. rewrite orb_true_r.
        cbn [bind lift fst snd LB.capacity LB.queue].
        change (GoInt.len (@nil Time)) with 0. rewrite sub_zero by exact Hb.
        reflexivity.
      * reflexivity.
      * unfold L.AllowN, LB.AllowN, LB.leak. cbn [LB.queue LB.limit].
        change (GoInt.len (@nil Time) =? 0) with true. rewrite orb_true_r.
        cbn [bind lift fst snd LB.capacity LB.queue].
        change (GoInt.len (@nil Time)) with 0. rewrite add_zero by exact Hb.
        rewrite Eb. cbn [bind lift fst snd]. reflexivity.
    + (* sliding window *)
      unfold SW.NewSlidingWindow in E.
      destruct (GoInt.make_ok b); cbn [bind] in E; [|discriminate].
      injection E as <-. do 3 (split; [reflexivity|]).
      do 2 eexists. exists (inject_Z b).
      split; [|split].
      * unfold L.TokensAt, lift, SW.TokensAt, SW.cleanup.
        cbn [SW.timestamps SW.maxCount SW.validIdx skipn fst snd].
        change (GoInt.len (@nil Time)) with 0. rewrite sub_zero by exact Hb.
        reflexivity.
      * reflexivity.
      * unfold L.AllowN, lift, SW.AllowN, SW.cleanup.
        cbn [SW.timestamps SW.maxCount SW.validIdx skipn fst snd].
        change (GoInt.len (@nil Time)) with 0. rewrite add_zero by exact Hb.
        rewrite Eb. cbn [fst snd]. reflexivity.
    + (* fixed window *)
      injection E as <-.
      assert (Hreset : FW.currentCount
                         (FW.resetIfNeeded (FW.NewFixedWindow now r b) now) = 0
                       /\ FW.maxCount
                            (FW.resetIfNeeded (FW.NewFixedWindow now r b) now) = b).
      { unfold FW.resetIfNeeded. destruct (FW.window _ <=? _); split; reflexivity. }
      destruct Hreset as [Hc Hm].
      do 3 (split; [reflexivity|]).
      do 2 eexists. exists (inject_Z b).
      split; [|split].
      * unfold L.TokensAt, lift, FW.TokensAt. cbn [fst snd].
        rewrite Hc, Hm, sub_zero by exact Hb. reflexivity.
      * reflexivity.
      * unfold L.AllowN, lift, FW.AllowN. rewrite Hc, Hm.
        rewrite add_zero by exact Hb. rewrite Eb. cbn [fst snd]. reflexivity.
    + (* any other value: a token bucket *)
      exact (Htb l E).
  - destruct algo; cbn [NewLimiter engine];
      unfold LB.NewLeakyBucket, SW.NewSlidingWindow.
    + split; [discriminate | intros [[C | C] _]; discriminate C].
    + destruct (GoInt.make_ok b) eqn:E; cbn [bind]; split.
      * discriminate.
      * intros [_ H]. apply make_ok_false in H. congruence.
      * intros _. split; [left; reflexivity | apply make_ok_false; exact E].
      * reflexivity.
    + destruct (GoInt.make_ok b) eqn:E; cbn [bind]; split.
      * discriminate.
      * intros [_ H]. apply make_ok_false in H. congruence.
      * intros _. split; [right; reflexivity | apply make_ok_false; exact E].
      * reflexivity.
    + split; [discriminate | intros [[C | C] _]; discriminate C].
    + split; [discriminate | intros [[C | C] _]; discriminate C].
Qed.

Lemma new_limiter_starts_full_witness :
  L.Algorithm (OfTokenBucket (TB.NewTokenBucket 5 2%Q 3)) = TokenBucket /\
  L.Limit (OfTokenBucket (TB.NewTokenBucket 5 2%Q 3)) = 2%Q /\
  L.Burst (OfTokenBucket (TB.NewTokenBucket 5 2%Q 3)) = 3 /\
  exists (l1 l2 : Limiter) (x : Q),
    L.TokensAt (OfTokenBucket (TB.NewTokenBucket 5 2%Q 3)) 5 = Done (l1, x) /\
    (x == inject_Z 3)%Q /\
    L.AllowN (OfTokenBucket (TB.NewTokenBucket 5 2%Q 3)) 5 3 = Done (l2, true).
Proof.
  apply (proj1 (new_limiter_starts_full (OtherAlgorithm 7) 5 2%Q 3)).
  - reflexivity.
  - lia.
Defined.

(** ** The window of the window engines *)



